(** * git_commit_agent: a shallow embedding of Tools/git_commit_agent.py

    The program shells out to git, parses git's text output with regular
    expressions, asks a remote text-generation service for a commit message
    (with a bounded retry loop) and prints the result.  This file embeds the
    functions of the program as Rocq definitions and proves properties of
    them.

    Conventions of the embedding.
    - A Python [str] is a [list ascii]: a sequence of characters whose code
      points are below 256.  On that range [\d] is exactly [0-9] and the
      white space removed by [str.strip()] is the set given by [is_space].
    - A Python [int] is a [Z].
    - The external world (the git binary, the process environment, the
      settings files, the generation service, standard input) is a record of
      oracles, [world], that the program only reads.
    - Effects (printing, sleeping, service calls, the object heap, [sys.exit]
      and exceptions) are threaded through a small state-and-error monad. *)

From Stdlib Require Import ZArith NArith List Ascii String Lia Floats Decimal DecimalN DecimalPos.
From stdpp Require Import base option list gmap strings.

Local Open Scope Z_scope.

(** ** Python strings *)

Abbreviation str := (list ascii).

(** A string literal of the program. *)
Definition lit (s : string) : str := list_ascii_of_string s.

Definition nl : ascii := ascii_of_nat 10.

Definition len (s : str) : Z := Z.of_nat (length s).

Fixpoint eqb_str (a b : str) : bool :=
  match a, b with
  | [], [] => true
  | x :: a', y :: b' => Ascii.eqb x y && eqb_str a' b'
  | _, _ => false
  end.

(** [not s] for a string: the empty string is falsy. *)
Definition falsy (s : str) : bool :=
  match s with [] => true | _ => false end.

(** [not x] for an [Optional[str]]: [None] and the empty string are falsy. *)
Definition falsy_opt (o : option str) : bool :=
  match o with None => true | Some s => falsy s end.

Definition is_digit (c : ascii) : bool :=
  let n := nat_of_ascii c in (48 <=? n)%nat && (n <=? 57)%nat.

(** White space as [str.strip()] sees it, among code points below 256:
    TAB..CR, FS..US, SPACE, NEL and NBSP. *)
Definition is_space (c : ascii) : bool :=
  let n := nat_of_ascii c in
  ((9 <=? n)%nat && (n <=? 13)%nat) || ((28 <=? n)%nat && (n <=? 32)%nat)
  || (n =? 133)%nat || (n =? 160)%nat.

Fixpoint lstrip (s : str) : str :=
  match s with
  | c :: s' => if is_space c then lstrip s' else s
  | [] => []
  end.

(** [s.strip()] *)
Definition strip (s : str) : str := rev (lstrip (rev (lstrip s))).

(** [s.startswith(p)], returning the rest of [s] after [p]. *)
Fixpoint strip_prefix (p s : str) : option str :=
  match p, s with
  | [], _ => Some s
  | a :: p', b :: s' => if Ascii.eqb a b then strip_prefix p' s' else None
  | _ :: _, [] => None
  end.

(** [s.replace(pat, "")] for a non-empty [pat]: every occurrence, found left
    to right without overlap, is deleted.  [skip] counts the characters of
    the occurrence being deleted that are still to be dropped. *)
Fixpoint delete_all_from (pat : str) (skip : nat) (s : str) : str :=
  match s with
  | [] => []
  | c :: s' =>
      match skip with
      | S k => delete_all_from pat k s'
      | O =>
          match strip_prefix pat s with
          | Some _ => delete_all_from pat (length pat - 1) s'
          | None => c :: delete_all_from pat 0 s'
          end
      end
  end.

Definition delete_all (pat s : str) : str := delete_all_from pat 0 s.

(** [s.split(sep)] for a one-character separator: never an empty list. *)
Fixpoint split_on (sep : ascii) (s : str) : list str :=
  match s with
  | [] => [[]]
  | c :: s' =>
      if Ascii.eqb c sep then [] :: split_on sep s'
      else match split_on sep s' with
           | w :: ws => (c :: w) :: ws
           | [] => [[c]]
           end
  end.

(** [s[:n]]: a negative bound counts from the end, and bounds are clamped
    to the string. *)
Definition slice_to (s : str) (n : Z) : str :=
  let stop := if n <? 0 then Z.max 0 (n + len s) else n in
  take (Z.to_nat stop) s.

(** ** Decimal numerals: [str(n)] and [int(s)] *)

Definition digit_char (d : Z) : ascii := ascii_of_nat (48 + Z.to_nat d).
Definition digit_val (c : ascii) : Z := Z.of_nat (nat_of_ascii c) - 48.

Fixpoint chars_of_uint (d : Decimal.uint) : str :=
  match d with
  | Nil => []
  | D0 d => digit_char 0 :: chars_of_uint d
  | D1 d => digit_char 1 :: chars_of_uint d
  | D2 d => digit_char 2 :: chars_of_uint d
  | D3 d => digit_char 3 :: chars_of_uint d
  | D4 d => digit_char 4 :: chars_of_uint d
  | D5 d => digit_char 5 :: chars_of_uint d
  | D6 d => digit_char 6 :: chars_of_uint d
  | D7 d => digit_char 7 :: chars_of_uint d
  | D8 d => digit_char 8 :: chars_of_uint d
  | D9 d => digit_char 9 :: chars_of_uint d
  end.

(** The decimal numeral of a natural number, without leading zeros. *)
Definition decimal (n : N) : str := chars_of_uint (N.to_uint n).

(** [str(n)], also what an f-string writes for [{n}]. *)
Definition py_str (n : Z) : str :=
  match n with
  | Zneg p => lit "-" ++ decimal (Npos p)
  | _ => decimal (Z.to_N n)
  end.

(** The value of a digit string, most significant digit first. *)
Definition digits_value (ds : str) : Z :=
  fold_left (fun acc c => 10 * acc + digit_val c) ds 0.

(** Digits with single underscores between them, as [int] reads them: the
    digits without the underscores, or [None].  [prev] tells whether the
    previous character was a digit. *)
Fixpoint ungroup (prev : bool) (s : str) : option str :=
  match s with
  | [] => if prev then Some [] else None
  | c :: s' =>
      if is_digit c then option_map (cons c) (ungroup true s')
      else if Ascii.eqb c "_"%char then
             (if prev then ungroup false s' else None)
      else None
  end.

(** The most digits [int] converts: [sys.int_max_str_digits], which is
    4300 unless the interpreter is told otherwise; the program leaves it
    as it is. *)
Definition int_max_str_digits : Z := 4300.

(** [int(s)]: white space around the numeral is ignored, a sign may come
    first, leading zeros are allowed and count as digits.  [None] stands
    for the [ValueError] raised otherwise: for a text that is no numeral,
    and for a numeral of more than [int_max_str_digits] digits. *)
Definition py_int (s : str) : option Z :=
  let s := strip s in
  let '(negative, body) :=
    match s with
    | c :: r =>
        if Ascii.eqb c "-"%char then (true, r)
        else if Ascii.eqb c "+"%char then (false, r)
        else (false, s)
    | [] => (false, s)
    end in
  ds ← ungroup false body;
  if len ds >? int_max_str_digits then None
  else Some (if negative then - digits_value ds else digits_value ds).

(** ** Regular expressions

    The patterns of the program are sequences of literal characters, an
    optional literal character ([s?]) and one capturing group [(\d+)].
    [match_here] is the backtracking matcher anchored at the start of the
    text: [\d+] is greedy and gives digits back one at a time, [c?] tries
    the character first.  The result is the text of group 1. *)

Inductive item :=
  | Chr (c : ascii)      (* a literal character *)
  | Opt (c : ascii)      (* c? *)
  | Digits.              (* (\d+) *)

Definition chars (s : string) : list item := map Chr (lit s).

(** Greedy [\d+] followed by the rest of the pattern [k]. *)
Fixpoint digits_then (k : str -> option str) (s : str) : option str :=
  match s with
  | c :: s' =>
      if is_digit c then
        match digits_then k s' with
        | Some ds => Some (c :: ds)
        | None => match k s' with Some _ => Some [c] | None => None end
        end
      else None
  | [] => None
  end.

Fixpoint match_here (p : list item) (s : str) : option str :=
  match p with
  | [] => Some []
  | Chr c :: p' =>
      match s with
      | c' :: s' => if Ascii.eqb c c' then match_here p' s' else None
      | [] => None
      end
  | Opt c :: p' =>
      let skip := match_here p' s in
      match s with
      | c' :: s' =>
          if Ascii.eqb c c' then
            match match_here p' s' with Some g => Some g | None => skip end
          else skip
      | [] => skip
      end
  | Digits :: p' => digits_then (match_here p') s
  end.

(** [re.search(p, s)]: the match at the leftmost position where there is
    one; the result is [group(1)]. *)
Fixpoint re_search (p : list item) (s : str) : option str :=
  match match_here p s with
  | Some g => Some g
  | None => match s with [] => None | _ :: s' => re_search p s' end
  end.

(** The patterns of the program. *)
Definition ahead_re : list item := chars "ahead " ++ [Digits].
Definition behind_re : list item := chars "behind " ++ [Digits].
Definition files_re : list item :=
  [Digits] ++ chars " file" ++ [Opt "s"%char] ++ chars " changed".
Definition insertions_re : list item :=
  [Digits] ++ chars " insertion" ++ [Opt "s"%char].
Definition deletions_re : list item :=
  [Digits] ++ chars " deletion" ++ [Opt "s"%char].

(** ** parse_tracking_info *)

(** [m = re.search(p, s)] followed by [if m: x = int(m.group(1))], with [x]
    initialised to [dflt].  [None] stands for the [ValueError] of [int]. *)
Definition search_int (p : list item) (s : str) (dflt : Z) : option Z :=
  match re_search p s with
  | Some g => py_int g
  | None => Some dflt
  end.

Definition parse_tracking_info (track_info : str) : option (Z * Z) :=
  if falsy track_info then Some (0, 0)
  else
    ahead ← search_int ahead_re track_info 0;
    behind ← search_int behind_re track_info 0;
    Some (ahead, behind).


(** [s.lower()] on code points below 256: the letters A-Z and the capital
    letters of Latin-1 move up by 32. *)
Definition lower_char (c : ascii) : ascii :=
  let n := nat_of_ascii c in
  if ((65 <=? n)%nat && (n <=? 90)%nat)
     || ((192 <=? n)%nat && (n <=? 222)%nat && negb (n =? 215)%nat)
  then ascii_of_nat (n + 32) else c.

Definition lower (s : str) : str := map lower_char s.

(** ** The data model *)

Module BranchInfo.
Record t := mk {
  name : str;
  upstream : option str;
  ahead : Z;
  behind : Z;
  diff_stat : str;
  diff_content : str;
  commit_log : str;
  files_changed : Z;
  insertions : Z;
  deletions : Z
}.
End BranchInfo.

(** *** Python values and the object heap

    The module-level containers ([DEFAULT_CONFIG] and the list under its
    key [commit_types]) are objects on a heap and are held by reference
    ([VRef]), so that sharing and mutation are visible.  A sequence built by
    the YAML parser is held by value ([VList]): the program neither shares
    nor mutates it.  [VOther] is any other object (a nested mapping, a
    date, ...). *)

Abbreviation loc := positive.

#[warnings="-register-all"]
Inductive val :=
  | VNone
  | VBool (b : bool)
  | VInt (n : Z)
  | VFloat (x : float)
  | VStr (s : str)
  | VList (items : list val)
  | VOther
  | VRef (l : loc).

Inductive obj :=
  | ODict (entries : gmap string val)
  | OList (items : list val).

(** The dataclass [Config].  A dataclass does not check the types of its
    fields, so each field holds an arbitrary value; the functions that use a
    field read it at the type its annotation gives ([as_int],
    [as_str_list] below). *)
Module Config.
Record t := mk {
  max_diff_chars : val;
  model : val;
  temperature : val;
  max_retries : val;
  commit_types : val
}.
End Config.

(** The heap after the module is loaded: [DEFAULT_CONFIG] is bound to a
    dict whose entry [commit_types] refers to a list object. *)
Definition commit_types_loc : loc := 1%positive.
Definition DEFAULT_CONFIG : loc := 2%positive.

Definition default_commit_types : list val :=
  map (fun s => VStr (lit s))
    ["feat"; "fix"; "docs"; "style"; "refactor";
     "test"; "chore"; "perf"; "ci"; "build"]%string.

#[warnings="-inexact-float"]
Definition default_entries : gmap string val :=
  list_to_map
    [("max_diff_chars", VInt 50000);
     ("model", VStr (lit "claude-sonnet-4-5-20250929"));
     ("temperature", VFloat 0.7%float);
     ("max_retries", VInt 3);
     ("commit_types", VRef commit_types_loc)]%string.

Definition module_heap : gmap loc obj :=
  <[DEFAULT_CONFIG := ODict default_entries]>
    (<[commit_types_loc := OList default_commit_types]> ∅).

(** ** The world outside the program *)

(** What [subprocess.run] learns from a finished process. *)
Record proc := { returncode : Z; stdout : str; stderr : str }.

(** What [yaml.safe_load] returns, by the way [if user_config] and
    [config_dict.update(user_config)] treat it:
    - [Falsy]: a value that is false (an empty document, an empty mapping
      or sequence, 0, ...);
    - [Accepted items]: a true value that [dict.update] accepts, a mapping
      (or a sequence of key-value pairs): [items] are stored in order;
    - [Rejected stored]: a true value on which [dict.update] raises, after
      it has stored [stored] (nothing for a scalar, the leading pairs for a
      sequence).
    A key that is not a string is written as any string that is not a field
    of [Config]: building the [Config] from [config_dict] raises [TypeError]
    for both. *)
Inductive document :=
  | Falsy
  | Accepted (items : list (string * val))
  | Rejected (stored : list (string * val)).

(** Opening and parsing a settings file that exists. *)
Inductive load :=
  | LoadRaises                       (* open or safe_load raises *)
  | Loaded (user_config : document).

(** The outcome of [client.messages.create]: a message with its content
    blocks ([None] for a block without a [text] attribute), or one of the
    exceptions the program distinguishes. *)
Inductive response :=
  | Content (blocks : list (option str))
  | RateLimitError
  | APIError
  | OtherError.

(** What becomes of the file for the commit message, by the message:
    [tempfile.NamedTemporaryFile(..., delete=False)] creates the file (or
    raises [OSError], and there is no file), and [f.write] and the close at
    the end of the [with] block write the message or raise, an
    [UnicodeEncodeError] when the encoding of the locale has no code for a
    character, an [OSError] when the disk refuses. *)
Inductive temp_outcome :=
  | TempWritten
  | TempNotCreated
  | TempEncodeError
  | TempWriteError.

(** What [input()] meets on standard input. *)
Inductive input_event :=
  | Line (s : str)
  | Interrupt.

Record world := {
  (** the result of running [git] with the given arguments; [None] when
      there is no git binary *)
  git : list str -> option proc;
  (** [os.environ] *)
  environ : string -> option str;
  (** whether [import yaml] succeeded *)
  YAML_AVAILABLE : bool;
  (** [Path.home()] *)
  home : str;
  (** the file [.git-commit-agent.yaml] of a directory; [None] when it does
      not exist *)
  settings : str -> option load;
  (** the generation service, by the number of calls made before *)
  api : nat -> response;
  (** the lines waiting on standard input *)
  stdin : list input_event;
  (** the name [tempfile] gives the commit message file *)
  temp_name : str;
  (** what becomes of that file when the message is written to it *)
  temp_file : str -> temp_outcome
}.

(** ** Effects *)

Definition branch_row : Type := str * option str * Z * Z.

Inductive msg :=
  | GitNotFound
  | NoUpstreamWarning (branch : str)
  | ApiKeyNotSet                      (* configuration error, with its hint *)
  | RateLimitedWaiting (wait_time : Z)
  | RateLimitExceeded
  | ApiErrorMsg
  | UnexpectedErrorMsg
  | LoadedConfig (dir : str)
  | ConfigWarning (dir : str)
  | BranchReport (info : BranchInfo.t) (commit_message : str)
  | Menu (branches : list branch_row)
  | InvalidSelection
  | EnterNumber
  | Cancelled
  | NotARepository
  | AnalyzingStaged
  | NoStagedChanges
  | StagedReport (info : BranchInfo.t) (commit_message : str)
  | StagedJson (info : BranchInfo.t) (commit_message : str)
  | AutoCommitWithJson                (* written to stderr *)
  | Separator
  | Committed
  | CommitFailed (output : str)
  | CommitCancelled
  | AnalyzingBranch (branch : str)
  | BranchNotFound (branch : str)
  | NoUnpushedCommits (branch : str)
  | DiffFailed (branch : str)
  | BranchJson (info : BranchInfo.t) (commit_message : str)
  | Scanning
  | NoBranches
  | Exiting
  | Tip (branch : str)
  | BranchesJson (results : list (BranchInfo.t * str))
  | UsageError                        (* usage and error of argparse, on stderr *)
  | HelpText.                         (* the help of argparse *)

Inductive event :=
  | Print (m : msg)
  | Prompt (text : string)            (* the prompt of input() *)
  | ApiCall (model temperature : val) (* client.messages.create *)
  | Sleep (seconds : Z)               (* time.sleep *)
  | TempCreate                        (* the commit message file is created *)
  | TempWrite (text : str)            (* the message is written to it *)
  | TempUnlink.                       (* os.unlink(temp_file) *)

Record state := {
  heap : gmap loc obj;
  out : list event;                   (* what happened so far, oldest first *)
  api_calls : nat;                    (* calls made to the service *)
  pending : list input_event          (* standard input not yet read *)
}.

Definition init_state (w : world) : state :=
  {| heap := module_heap; out := []; api_calls := 0; pending := stdin w |}.

(** [UnicodeEncodeError] is a [ValueError] to every handler.  [IllTyped]:
    a field of [Config] holds a value outside its annotated type where the
    program uses it; the run is not followed further. *)
Inductive exn :=
  | TypeError
  | ValueError
  | UnicodeEncodeError
  | OSError
  | EOFError
  | KeyboardInterrupt
  | StopIteration
  | IllTyped.

Inductive res (A : Type) :=
  | Ret (a : A)
  | Exit (code : Z)                   (* sys.exit(code) *)
  | Raise (e : exn).
Arguments Ret {A} a.
Arguments Exit {A} code.
Arguments Raise {A} e.

Definition M (A : Type) : Type := state -> res A * state.

Definition ret {A} (a : A) : M A := fun s => (Ret a, s).

Definition bind {A B} (m : M A) (f : A -> M B) : M B := fun s =>
  match m s with
  | (Ret a, s') => f a s'
  | (Exit c, s') => (Exit c, s')
  | (Raise e, s') => (Raise e, s')
  end.

Declare Scope M_scope.
Delimit Scope M_scope with M.
Bind Scope M_scope with M.
Notation "x <- m ;; k" := (bind m (fun x => k))
  (at level 20, m at level 99, k at level 200, only parsing) : M_scope.
Notation "' p <- m ;; k" := (bind m (fun x => match x with p => k end))
  (at level 20, p pattern, m at level 99, k at level 200, only parsing) : M_scope.
Notation "m ;; k" := (bind m (fun _ => k))
  (at level 100, k at level 200, right associativity, only parsing) : M_scope.
Local Open Scope M_scope.

Definition exit {A} (code : Z) : M A := fun s => (Exit code, s).
Definition raise {A} (e : exn) : M A := fun s => (Raise e, s).

Definition emit (e : event) : M unit := fun s =>
  (Ret tt, {| heap := heap s; out := out s ++ [e];
              api_calls := api_calls s; pending := pending s |}).

Definition print (m : msg) : M unit := emit (Print m).

(** [int(...)] and the like: [None] is the [ValueError]. *)
Definition or_value_error {A} (o : option A) : M A :=
  match o with Some a => ret a | None => raise ValueError end.

(** [try: m except ...: h e]; [h] gives the handler of the exceptions it
    catches. *)
Definition try_except {A} (m : M A) (h : exn -> option (M A)) : M A := fun s =>
  match m s with
  | (Raise e, s') =>
      match h e with Some k => k s' | None => (Raise e, s') end
  | r => r
  end.

(** [try: m finally: cleanup] *)
Definition try_finally {A} (m : M A) (cleanup : M unit) : M A := fun s =>
  let '(r, s') := m s in
  match cleanup s' with
  | (Ret _, s'') => (r, s'')
  | (Exit c, s'') => (Exit c, s'')
  | (Raise e, s'') => (Raise e, s'')
  end.


(** *** Heap operations *)

Definition read_dict (l : loc) : M (gmap string val) := fun s =>
  match heap s !! l with
  | Some (ODict d) => (Ret d, s)
  | _ => (Raise TypeError, s)
  end.

Definition alloc (o : obj) : M loc := fun s =>
  let l := fresh (dom (heap s)) in
  (Ret l, {| heap := <[l := o]> (heap s); out := out s;
             api_calls := api_calls s; pending := pending s |}).

Definition store (l : loc) (o : obj) : M unit := fun s =>
  (Ret tt, {| heap := <[l := o]> (heap s); out := out s;
              api_calls := api_calls s; pending := pending s |}).

(** [d.copy()]: a new dict with the same entries (a shallow copy: the
    values, references included, are shared). *)
Definition dict_copy (d : loc) : M loc :=
  entries <- read_dict d;; alloc (ODict entries).

(** [d[k] = v] *)
Definition dict_set (d : loc) (k : string) (v : val) : M unit :=
  entries <- read_dict d;; store d (ODict (<[k := v]> entries)).

(** The stores of [d.update(...)], in order. *)
Fixpoint dict_store_all (d : loc) (items : list (string * val)) : M unit :=
  match items with
  | [] => ret tt
  | (k, v) :: rest => dict_set d k v;; dict_store_all d rest
  end.

(** Reading a field at its annotated type. *)
Definition as_int (v : val) : M Z :=
  match v with VInt n => ret n | _ => raise IllTyped end.

Definition as_str (v : val) : option str :=
  match v with VStr s => Some s | _ => None end.

Definition as_str_list (v : val) : M (list str) := fun s =>
  let items :=
    match v with
    | VList items => Some items
    | VRef l => match heap s !! l with
                | Some (OList items) => Some items
                | _ => None
                end
    | _ => None
    end in
  match items ≫= mapM as_str with
  | Some l => (Ret l, s)
  | None => (Raise IllTyped, s)
  end.

(** The command line, as [argparse] returns it. *)
Module Args.
Record t := mk {
  staged : bool;
  branch : option str;
  auto_commit : bool;
  json : bool
}.
End Args.


(** ** The program *)

Section Program.

Context (w : world).

(** *** Git operations *)

(** [subprocess.run] raises [CalledProcessError] only when [check] is set
    and the exit code is not zero; the handler then returns [False] with
    the error output.  Without [check] no exception is raised, whatever the
    exit code, and the first [return] is reached. *)
Definition run_git (args : list str) (check : bool) : M (bool * str) :=
  match git w args with
  | None => print GitNotFound;; exit 1
  | Some result =>
      if check && negb (returncode result =? 0) then
        if check then
          ret (false, if falsy (stderr result) then [] else strip (stderr result))
        else
          ret (false, if falsy (stdout result) then [] else strip (stdout result))
      else ret (true, strip (stdout result))
  end.

Definition is_git_repo : M bool :=
  '(success, _) <- run_git [lit "rev-parse"; lit "--git-dir"] false;;
  ret success.

Definition get_repo_root : M (option str) :=
  '(success, output) <- run_git [lit "rev-parse"; lit "--show-toplevel"] false;;
  ret (if success then Some output else None).

(** The loop body of [get_all_branches_with_status], over the lines of the
    listing. *)
Fixpoint collect_branches (lines : list str) (branches : list branch_row)
  : M (list branch_row) :=
  match lines with
  | [] => ret branches
  | line :: rest =>
      if falsy line then collect_branches rest branches
      else
        let parts := split_on "|"%char line in
        let branch_name := nth 0 parts [] in
        let upstream :=
          match parts with
          | _ :: p1 :: _ => if falsy p1 then None else Some p1
          | _ => None
          end in
        let track_info :=
          match parts with _ :: _ :: p2 :: _ => p2 | _ => [] end in
        '(ahead, behind) <- or_value_error (parse_tracking_info track_info);;
        collect_branches rest
          (if ahead >? 0 then branches ++ [(branch_name, upstream, ahead, behind)]
           else branches)
  end.

Definition get_all_branches_with_status : M (list branch_row) :=
  '(success, output) <-
    run_git [lit "for-each-ref";
             lit "--format=%(refname:short)|%(upstream:short)|%(upstream:track)";
             lit "refs/heads"] true;;
  if negb success || falsy output then ret []
  else collect_branches (split_on nl output) [].

(** *** The diff collector *)

(** The truncation of the full diff (the same five lines in
    [get_branch_diff] and in [get_staged_changes]). *)
Definition annotation (max_diff_chars original_size : Z) : str :=
  [nl; nl] ++ lit "... [Truncated: showing first " ++ py_str max_diff_chars
  ++ lit " of " ++ py_str original_size ++ lit " characters]".

Definition truncate_diff (diff_content : str) (max_diff_chars : Z) : str :=
  let original_size := len diff_content in
  if len diff_content >? max_diff_chars then
    slice_to diff_content max_diff_chars
    ++ annotation max_diff_chars original_size
  else diff_content.

(** The file statistics (the same lines in both functions): files changed,
    insertions, deletions. *)
Definition parse_stats (diff_stat : str) : option (Z * Z * Z) :=
  files_changed ← search_int files_re diff_stat 0;
  insertions ← search_int insertions_re diff_stat 0;
  deletions ← search_int deletions_re diff_stat 0;
  Some (files_changed, insertions, deletions).

(** The fallback loop over the common default branches. *)
Fixpoint first_candidate (upstream : option str) (candidates : list str)
  : M (option str) :=
  match candidates with
  | [] => ret upstream
  | candidate :: rest =>
      '(success, _) <- run_git [lit "rev-parse"; lit "--verify"; candidate] false;;
      if success then ret (Some candidate)
      else first_candidate upstream rest
  end.

(** [get_branch_diff] from "Get diff stat" on, for an upstream that is
    set. *)
Definition collect_branch (branch upstream : str) (config : Config.t)
  : M (option BranchInfo.t) :=
  let range := upstream ++ lit ".." ++ branch in
  '(success, diff_stat) <- run_git [lit "diff"; lit "--stat"; range] true;;
  if negb success then ret None else
  '(success, diff_content) <- run_git [lit "diff"; range] true;;
  if negb success then ret None else
  max_diff_chars <- as_int (Config.max_diff_chars config);;
  let diff_content := truncate_diff diff_content max_diff_chars in
  '(success, commit_log) <- run_git [lit "log"; lit "--oneline"; range] true;;
  let commit_log := if success then commit_log else [] in
  '(files_changed, insertions, deletions) <- or_value_error (parse_stats diff_stat);;
  '(success, track_output) <-
    run_git [lit "for-each-ref"; lit "--format=%(upstream:track)";
             lit "refs/heads/" ++ branch] true;;
  '(ahead, behind) <-
    or_value_error (parse_tracking_info (if success then track_output else []));;
  ret (Some (BranchInfo.mk branch (Some upstream) ahead behind
                diff_stat diff_content commit_log
                files_changed insertions deletions)).

(** An upstream that is [None] or empty is looked for; the test
    [if not upstream] after the search ends the function. *)
Definition get_branch_diff (branch : str) (upstream : option str)
    (config : Config.t) : M (option BranchInfo.t) :=
  match upstream with
  | Some (c :: u) => collect_branch branch (c :: u) config
  | _ =>
      '(success, default_branch) <-
        run_git [lit "symbolic-ref"; lit "refs/remotes/origin/HEAD"] false;;
      upstream <-
        (if success then
           ret (Some (delete_all (lit "refs/remotes/") default_branch))
         else
           first_candidate upstream
             [lit "origin/main"; lit "origin/master"; lit "main"; lit "master"]);;
      match upstream with
      | Some (c :: u) => collect_branch branch (c :: u) config
      | _ => print (NoUpstreamWarning branch);; ret None
      end
  end.

Definition get_staged_changes (config : Config.t) : M (option BranchInfo.t) :=
  '(success, status) <- run_git [lit "diff"; lit "--cached"; lit "--name-only"] true;;
  if negb success || falsy status then ret None else
  '(success, diff_stat) <- run_git [lit "diff"; lit "--cached"; lit "--stat"] true;;
  if negb success then ret None else
  '(success, diff_content) <- run_git [lit "diff"; lit "--cached"] true;;
  if negb success then ret None else
  max_diff_chars <- as_int (Config.max_diff_chars config);;
  let diff_content := truncate_diff diff_content max_diff_chars in
  '(success, current_branch) <- run_git [lit "branch"; lit "--show-current"] true;;
  let branch_name := if success then current_branch else lit "HEAD" in
  '(files_changed, insertions, deletions) <- or_value_error (parse_stats diff_stat);;
  ret (Some (BranchInfo.mk branch_name None 0 0
                diff_stat diff_content []
                files_changed insertions deletions)).

(** *** The message generator *)

(** [client.messages.create(...)]: the next answer of the service. *)
Definition messages_create (model temperature : val) : M response := fun s =>
  (Ret (api w (api_calls s)),
   {| heap := heap s; out := out s ++ [ApiCall model temperature];
      api_calls := S (api_calls s); pending := pending s |}).

(** The retry loop, over the attempts of [range(max_retries)] still to
    make.  An answer without content falls out of the [try] and the loop
    goes on to the next attempt. *)
Fixpoint attempts (config : Config.t) (max_retries : Z) (todo : list nat)
  : M (option str) :=
  match todo with
  | [] => ret None
  | attempt :: rest =>
      message <- messages_create (Config.model config) (Config.temperature config);;
      match message with
      | Content (Some text :: _) => ret (Some (strip text))
      | Content (None :: _) => print UnexpectedErrorMsg;; ret None
      | Content [] => attempts config max_retries rest
      | RateLimitError =>
          if Z.of_nat attempt <? max_retries - 1 then
            let wait_time := 2 ^ Z.of_nat attempt in
            print (RateLimitedWaiting wait_time);;
            emit (Sleep wait_time);;
            attempts config max_retries rest
          else (print RateLimitExceeded;; ret None)
      | APIError => print ApiErrorMsg;; ret None
      | OtherError => print UnexpectedErrorMsg;; ret None
      end
  end.

(** The text of the prompt is not modelled: the service is an oracle and
    nothing else reads the prompt.  Building it joins
    [config.commit_types], which must be a list of strings. *)
Definition generate_commit_message (branch_info : BranchInfo.t)
    (config : Config.t) : M (option str) :=
  match environ w "ANTHROPIC_API_KEY" with
  | Some (c :: key) =>
      _ <- as_str_list (Config.commit_types config);;
      max_retries <- as_int (Config.max_retries config);;
      attempts config max_retries (seq 0 (Z.to_nat max_retries))
  | _ => print ApiKeyNotSet;; ret None
  end.

(** *** Configuration loading *)

Definition Config_fields : list string :=
  ["max_diff_chars"; "model"; "temperature"; "max_retries"; "commit_types"]%string.

(** [Config( **config_dict)]: every key must be a field and every field
    must be given. *)
Definition new_Config (config_dict : loc) : M Config.t :=
  entries <- read_dict config_dict;;
  if forallb (fun k => existsb (String.eqb k) Config_fields)
       (map fst (map_to_list entries))
  then
    match entries !! "max_diff_chars"%string, entries !! "model"%string,
          entries !! "temperature"%string, entries !! "max_retries"%string,
          entries !! "commit_types"%string with
    | Some a, Some b, Some c, Some d, Some e => ret (Config.mk a b c d e)
    | _, _, _, _, _ => raise TypeError
    end
  else raise TypeError.

(** The loop over the candidate paths, each given by its directory. *)
Fixpoint load_first (config_dict : loc) (config_paths : list str) : M unit :=
  match config_paths with
  | [] => ret tt
  | config_path :: rest =>
      match settings w config_path with
      | None => load_first config_dict rest
      | Some LoadRaises =>
          print (ConfigWarning config_path);; load_first config_dict rest
      | Some (Loaded Falsy) => load_first config_dict rest
      | Some (Loaded (Accepted items)) =>
          dict_store_all config_dict items;;
          print (LoadedConfig config_path)
      | Some (Loaded (Rejected stored)) =>
          dict_store_all config_dict stored;;
          print (ConfigWarning config_path);;
          load_first config_dict rest
      end
  end.

Definition load_config : M Config.t :=
  config_dict <- dict_copy DEFAULT_CONFIG;;
  if negb (YAML_AVAILABLE w) then new_Config config_dict
  else
    repo_root <- get_repo_root;;
    let config_paths :=
      (if falsy_opt repo_root then [] else [default [] repo_root]) ++ [home w] in
    load_first config_dict config_paths;;
    new_Config config_dict.

(** *** Output and the menu *)

Definition print_branch_info (branch_info : BranchInfo.t) (commit_message : str)
  : M unit :=
  print (BranchReport branch_info commit_message).

(** [input(prompt)] *)
Definition input (prompt : string) : M str := fun s =>
  let s' := {| heap := heap s; out := out s ++ [Prompt prompt];
               api_calls := api_calls s; pending := tail (pending s) |} in
  match pending s with
  | Line l :: _ => (Ret l, s')
  | Interrupt :: _ => (Raise KeyboardInterrupt, s')
  | [] => (Raise EOFError, s')
  end.

(** The prompt of the menu: a line break, then the question. *)
Definition select_prompt : string :=
  String (ascii_of_nat 10) "Select a branch (0 to exit): ".

(** One round of the [while True] loop of [interactive_select_branch]:
    [Some r] when the function returns [r], [None] when the loop goes on.
    The index [choice_num - 1] is in range by the test before it. *)
Definition select_once (branches : list branch_row) : M (option (option str)) :=
  try_except
    (choice <- input select_prompt;;
     choice_num <- or_value_error (py_int (strip choice));;
     if choice_num =? 0 then ret (Some None)
     else if (1 <=? choice_num) && (choice_num <=? Z.of_nat (length branches)) then
       let '(branch, _, _, _) :=
         nth (Z.to_nat (choice_num - 1)) branches ([], None, 0, 0) in
       ret (Some (Some branch))
     else (print InvalidSelection;; ret None))
    (fun e =>
       match e with
       | ValueError | UnicodeEncodeError =>
           Some (print EnterNumber;; ret None)
       | KeyboardInterrupt => Some (print Cancelled;; ret (Some None))
       | _ => None
       end).

(** The loop; every round reads from standard input, so [fuel] rounds are
    enough when [fuel] exceeds the number of pending inputs. *)
Fixpoint select_loop (fuel : nat) (branches : list branch_row) : M (option str) :=
  match fuel with
  | O => raise EOFError
  | S fuel =>
      r <- select_once branches;;
      match r with
      | Some result => ret result
      | None => select_loop fuel branches
      end
  end.

Definition interactive_select_branch (branches : list branch_row) : M (option str) :=
  match branches with
  | [] => ret None
  | _ =>
      print (Menu branches);;
      (fun s => select_loop (S (length (pending s))) branches s)
  end.

(** *** Main *)

(** [if not commit_message]: no message, or an empty one. *)
Definition no_message (commit_message : option str) : bool :=
  match commit_message with Some (_ :: _) => false | _ => true end.

(** [if not b: m] *)
Definition unless (b : bool) (m : M unit) : M unit :=
  if b then ret tt else m.

(** The [with] block that writes the commit message to a new temporary
    file.  It stands before the [try]: when the write raises, the file is
    there and nothing removes it. *)
Definition write_temp (commit_message : str) : M unit :=
  match temp_file w commit_message with
  | TempNotCreated => raise OSError
  | TempEncodeError => emit TempCreate;; raise UnicodeEncodeError
  | TempWriteError => emit TempCreate;; raise OSError
  | TempWritten => emit TempCreate;; emit (TempWrite commit_message)
  end.

(** The block [if args.staged:] of [main]. *)
Definition main_staged (args : Args.t) (config : Config.t) : M unit :=
  unless (Args.json args) (print AnalyzingStaged);;
  branch_info <- get_staged_changes config;;
  match branch_info with
  | None => print NoStagedChanges;; exit 0
  | Some branch_info =>
      commit_message <- generate_commit_message branch_info config;;
      if no_message commit_message then exit 1 else
      let commit_message := default [] commit_message in
      (if Args.json args then print (StagedJson branch_info commit_message)
       else print (StagedReport branch_info commit_message));;
      (if Args.auto_commit args then
         if Args.json args then (print AutoCommitWithJson;; exit 1)
         else
           print Separator;;
           confirm <- input "Commit with this message? [y/N]: ";;
           if eqb_str (lower (strip confirm)) (lit "y") then
             write_temp commit_message;;
             try_finally
               ('(success, output) <-
                  run_git [lit "commit"; lit "-F"; temp_name w] true;;
                if success then print Committed
                else (print (CommitFailed output);; exit 1))
               (emit TempUnlink)
           else print CommitCancelled
       else ret tt);;
      exit 0
  end.

(** The block [if args.branch:] of [main], for the branch named. *)
Definition main_branch (args : Args.t) (branch : str) (config : Config.t)
  : M unit :=
  unless (Args.json args) (print (AnalyzingBranch branch));;
  '(success, output) <-
    run_git [lit "for-each-ref";
             lit "--format=%(upstream:short)|%(upstream:track)";
             lit "refs/heads/" ++ branch] true;;
  if negb success then (print (BranchNotFound branch);; exit 1) else
  let parts := split_on "|"%char output in
  let upstream :=
    match parts with
    | p0 :: _ => if falsy p0 then None else Some p0
    | [] => None
    end in
  let track_info := match parts with _ :: p1 :: _ => p1 | _ => [] end in
  '(ahead, behind) <- or_value_error (parse_tracking_info track_info);;
  if ahead =? 0 then (print (NoUnpushedCommits branch);; exit 0) else
  branch_info <- get_branch_diff branch upstream config;;
  match branch_info with
  | None => print (DiffFailed branch);; exit 1
  | Some branch_info =>
      commit_message <- generate_commit_message branch_info config;;
      if no_message commit_message then exit 1 else
      let commit_message := default [] commit_message in
      (if Args.json args then print (BranchJson branch_info commit_message)
       else print_branch_info branch_info commit_message);;
      exit 0
  end.

(** The loop of the JSON scan over all branches. *)
Fixpoint scan_all (config : Config.t) (branches : list branch_row)
    (results : list (BranchInfo.t * str)) : M (list (BranchInfo.t * str)) :=
  match branches with
  | [] => ret results
  | (branch_name, upstream, _, _) :: rest =>
      branch_info <- get_branch_diff branch_name upstream config;;
      match branch_info with
      | None => scan_all config rest results
      | Some branch_info =>
          commit_message <- generate_commit_message branch_info config;;
          if no_message commit_message then scan_all config rest results
          else scan_all config rest
                 (results ++ [(branch_info, default [] commit_message)])
      end
  end.

(** The default mode of [main]: scan all branches. *)
Definition main_scan (args : Args.t) (config : Config.t) : M unit :=
  unless (Args.json args) (print Scanning);;
  branches <- get_all_branches_with_status;;
  match branches with
  | [] => print NoBranches;; exit 0
  | _ =>
      if negb (Args.json args) then
        selected_branch <- interactive_select_branch branches;;
        if falsy_opt selected_branch then (print Exiting;; exit 0) else
        match filter (fun b : branch_row =>
                        eqb_str (fst (fst (fst b))) (default [] selected_branch) = true)
                branches with
        | (branch_name, upstream, _, _) :: _ =>
            print (AnalyzingBranch branch_name);;
            branch_info <- get_branch_diff branch_name upstream config;;
            match branch_info with
            | None => print (DiffFailed branch_name);; exit 1
            | Some branch_info =>
                commit_message <- generate_commit_message branch_info config;;
                if no_message commit_message then exit 1 else
                print_branch_info branch_info (default [] commit_message);;
                print (Tip branch_name)
            end
        | [] => raise StopIteration
        end
      else
        results <- scan_all config branches [];;
        print (BranchesJson results)
  end.

(** [main] from the line after [args = parser.parse_args()], for the
    arguments that [parse_args] returned. *)
Definition main (args : Args.t) : M unit :=
  repo <- is_git_repo;;
  if negb repo then (print NotARepository;; exit 1) else
  config <- load_config;;
  if Args.staged args then main_staged args config
  else
    match Args.branch args with
    | Some (c :: b) => main_branch args (c :: b) config
    | _ => main_scan args config
    end.



End Program.
(** ** Notions used to state the properties *)

(** The longest prefix of digits, and what follows it. *)
Fixpoint span_digits (s : str) : str * str :=
  match s with
  | c :: s' =>
      if is_digit c then let (ds, r) := span_digits s' in (c :: ds, r)
      else ([], s)
  | [] => ([], [])
  end.

(** The length of the longest run of digits in a text. *)
Fixpoint longest_run (s : str) : Z :=
  match s with
  | [] => 0
  | _ :: s' => Z.max (len (fst (span_digits s))) (longest_run s')
  end.

(** A numeral of 4301 nines, one digit more than [int] converts. *)
Definition long_number : str := repeat "9"%char 4301.

Definition starts_with_digit (s : str) : bool :=
  match s with c :: _ => is_digit c | [] => false end.

(** [s] starts with the keyword followed by a digit. *)
Definition marker_here (kw s : str) : bool :=
  match strip_prefix kw s with
  | Some r => starts_with_digit r
  | None => false
  end.

(** Some position of [s] starts a marker. *)
Fixpoint has_marker (kw s : str) : bool :=
  marker_here kw s ||
  match s with [] => false | _ :: s' => has_marker kw s' end.

(** None of the first [n] positions of [s] starts a marker. *)
Fixpoint no_marker_before (kw : str) (n : nat) (s : str) : bool :=
  match n with
  | O => true
  | S n' =>
      negb (marker_here kw s) &&
      match s with [] => true | _ :: s' => no_marker_before kw n' s' end
  end.

(** Horner's rule with an accumulator, against the library's reading of a
    decimal numeral. *)
Definition horner (acc : Z) (ds : str) : Z :=
  fold_left (fun acc c => 10 * acc + digit_val c) ds acc.


(** The pattern has the group [(\d+)]. *)
Definition has_group (p : list item) : bool :=
  existsb (fun i => match i with Digits => true | _ => false end) p.


(** The text [run_git(args)] returns with success: git ran, ended with
    exit code 0, and this is its output without the white space around
    it. *)
Definition git_output (w : world) (args : list str) : option str :=
  match git w args with
  | Some result =>
      if returncode result =? 0 then Some (strip (stdout result)) else None
  | None => None
  end.

(** [needle in text] *)
Definition contains (needle text : str) : Prop :=
  exists pre post, text = pre ++ needle ++ post.

(** *** A small world, for examples

    A repository with staged changes and a branch [feature] two commits
    ahead of [origin/main]; both diffs are the six characters [abcdef].
    The symbolic reference [origin/HEAD] is not set, and as git does,
    [for-each-ref] lists nothing and ends with exit code 0 for a branch
    that does not exist.  The credential is absent, there is no settings
    file, and the service is always rate limited. *)

Fixpoint eqb_args (a b : list str) : bool :=
  match a, b with
  | [], [] => true
  | x :: a', y :: b' => eqb_str x y && eqb_args a' b'
  | _, _ => false
  end.

Definition exited (code : Z) (output error : string) : option proc :=
  Some {| returncode := code; stdout := lit output; stderr := lit error |}.

Definition demo_git (args : list str) : option proc :=
  if eqb_args args [lit "rev-parse"; lit "--git-dir"] then
    exited 0 ".git" ""
  else if eqb_args args [lit "rev-parse"; lit "--show-toplevel"] then
    exited 0 "/repo" ""
  else if eqb_args args [lit "diff"; lit "--cached"; lit "--name-only"] then
    exited 0 "a.py" ""
  else if eqb_args args [lit "diff"; lit "--cached"; lit "--stat"] then
    exited 0 " 1 file changed, 5 insertions(+)" ""
  else if eqb_args args [lit "diff"; lit "--cached"] then
    exited 0 "abcdef" ""
  else if eqb_args args [lit "diff"; lit "--stat"; lit "origin/main..feature"] then
    exited 0 " 3 files changed, 42 insertions(+), 15 deletions(-)" ""
  else if eqb_args args [lit "diff"; lit "origin/main..feature"] then
    exited 0 "abcdef" ""
  else if eqb_args args [lit "rev-parse"; lit "--verify"; lit "origin/main"] then
    exited 0 "1f2e3d4c" ""
  else if eqb_args args
            [lit "for-each-ref";
             lit "--format=%(upstream:short)|%(upstream:track)";
             lit "refs/heads/feature"] then
    exited 0 "origin/main|[ahead 2]" ""
  else if eqb_args args
            [lit "for-each-ref";
             lit "--format=%(upstream:short)|%(upstream:track)";
             lit "refs/heads/merged"] then
    exited 0 "origin/main|" ""
  else if match args with
          | cmd :: _ => eqb_str cmd (lit "for-each-ref")
          | [] => false
          end then
    exited 0 "" ""                    (* no ref matches: nothing is listed *)
  else exited 128 "" "fatal: bad revision".

Definition demo_world : world := {|
  git := demo_git;
  environ := fun _ => None;
  YAML_AVAILABLE := true;
  home := lit "/home/dev";
  settings := fun _ => None;
  api := fun _ => RateLimitError;
  stdin := [];
  temp_name := lit "/tmp/msg.txt";
  temp_file := fun _ => TempWritten
|}.

(** The same world with the credential set. *)
Definition demo_world_key : world := {|
  git := demo_git;
  environ := fun k =>
    if String.eqb k "ANTHROPIC_API_KEY" then Some (lit "sk-test") else None;
  YAML_AVAILABLE := true;
  home := lit "/home/dev";
  settings := fun _ => None;
  api := fun _ => RateLimitError;
  stdin := [];
  temp_name := lit "/tmp/msg.txt";
  temp_file := fun _ => TempWritten
|}.

Definition demo_config (max_diff_chars : Z) : Config.t :=
  Config.mk (VInt max_diff_chars) (VStr (lit "some-model")) VNone (VInt 3)
    (VList [VStr (lit "feat"); VStr (lit "fix")]).

(** *** Configuration *)

(** The state right after the module is loaded, nothing read or printed. *)
Definition module_state : state :=
  {| heap := module_heap; out := []; api_calls := 0; pending := [] |}.

(** The declared defaults as a [Config]: the list of commit types is the
    list object of the default mapping itself. *)
#[warnings="-inexact-float"]
Definition default_config : Config.t :=
  Config.mk (VInt 50000) (VStr (lit "claude-sonnet-4-5-20250929"))
    (VFloat 0.7%float) (VInt 3) (VRef commit_types_loc).

(** The nine tags the specification lists, and the ten of the program. *)
Definition nine_tags : list str :=
  map lit ["feat"; "fix"; "docs"; "style"; "refactor";
           "test"; "chore"; "perf"; "ci"]%string.

Definition ten_tags : list str := nine_tags ++ [lit "build"].

(** The state after loading the configuration once in each of the given
    worlds, one after the other. *)
Definition loads (worlds : list world) (s : state) : state :=
  fold_left (fun s w => snd (load_config w s)) worlds s.

(** A computation that changes no object of the heap other than the one
    at [d]. *)
Definition writes_at {A} (d : loc) (m : M A) : Prop :=
  forall s r s' l, m s = (r, s') -> l <> d -> heap s' !! l = heap s !! l.

(** The small world with a settings file in the repository that overrides
    two keys. *)
Definition override_world : world := {|
  git := demo_git;
  environ := fun _ => None;
  YAML_AVAILABLE := true;
  home := lit "/home/dev";
  settings := fun dir =>
    if eqb_str dir (lit "/repo") then
      Some (Loaded (Accepted
        [("max_diff_chars"%string, VInt 10);
         ("commit_types"%string, VList [VStr (lit "feat"); VStr (lit "fix")])]))
    else None;
  api := fun _ => RateLimitError;
  stdin := [];
  temp_name := lit "/tmp/msg.txt";
  temp_file := fun _ => TempWritten
|}.

(** *** The message generator *)


(** The sleeps of a trace, in order. *)
Definition sleeps (trace : list event) : list Z :=
  flat_map (fun e => match e with Sleep n => [n] | _ => [] end) trace.

(** The calls to the service in a trace. *)
Definition calls (trace : list event) : nat :=
  length (flat_map (fun e => match e with ApiCall _ _ => [e] | _ => [] end) trace).






Definition demo_info : BranchInfo.t :=
  BranchInfo.mk (lit "feature") (Some (lit "origin/main")) 2 0
    (lit "1 file changed, 5 insertions(+)") (lit "abcdef") [] 1 5 0.

(** *** Main *)

(** The tracking part of the line [upstream|track] that main reads. *)
Definition track_part (output : str) : str :=
  match split_on "|"%char output with
  | _ :: p1 :: _ => p1
  | _ => []
  end.

(** The query of [--branch] mode for the branch named. *)
Definition branch_query (branch : str) : list str :=
  [lit "for-each-ref"; lit "--format=%(upstream:short)|%(upstream:track)";
   lit "refs/heads/" ++ branch].

(** A directory that is not a repository: every git command fails. *)
Definition outside_world : world := {|
  git := fun _ => exited 128 "" "fatal: not a git repository";
  environ := fun _ => None;
  YAML_AVAILABLE := true;
  home := lit "/home/dev";
  settings := fun _ => None;
  api := fun _ => RateLimitError;
  stdin := [];
  temp_name := lit "/tmp/msg.txt";
  temp_file := fun _ => TempWritten
|}.

(** *** Traces *)

(** Every run of [m] only adds events to the trace, and each event added
    satisfies [P]. *)
Definition emits {A} (P : event -> Prop) (m : M A) : Prop :=
  forall s r s', m s = (r, s') ->
    exists evs, out s' = out s ++ evs /\ Forall P evs.

(** The events that every part of the program may produce: what is
    printed, except the notice that the directory is not a repository, and
    the sleeps. *)
Definition ordinary (e : event) : Prop :=
  match e with
  | Print NotARepository => False
  | Print _ | Sleep _ => True
  | _ => False
  end.

Definition is_api_call (e : event) : Prop :=
  match e with ApiCall _ _ => True | _ => False end.

(** *** The branch listing *)

Definition row_name (row : branch_row) : str := fst (fst (fst row)).
Definition row_ahead (row : branch_row) : Z := snd (fst row).

(** The listing [get_all_branches_with_status] asks git for. *)
Definition listing_query : list str :=
  [lit "for-each-ref";
   lit "--format=%(refname:short)|%(upstream:short)|%(upstream:track)";
   lit "refs/heads"].

(** What one line [name|upstream|track] of the listing contributes.
    [None]: [int] refuses a number of the line and the loop ends in a
    [ValueError].  Otherwise the branch of the line, when the line is not
    empty and the branch is ahead. *)
Definition row_of_line (line : str) : option (option branch_row) :=
  if falsy line then Some None
  else
    match split_on "|"%char line with
    | [] => Some None
    | branch_name :: rest =>
        let upstream :=
          match rest with
          | p1 :: _ => if falsy p1 then None else Some p1
          | [] => None
          end in
        let track_info := match rest with _ :: p2 :: _ => p2 | _ => [] end in
        match parse_tracking_info track_info with
        | Some (ahead, behind) =>
            Some (if ahead >? 0 then Some (branch_name, upstream, ahead, behind)
                  else None)
        | None => None
        end
    end.

(** The branches that the lines contribute, in order; [None] when [int]
    refuses a number of some line. *)
Fixpoint rows_of_lines (lines : list str) : option (list branch_row) :=
  match lines with
  | [] => Some []
  | line :: rest =>
      match row_of_line line with
      | None => None
      | Some row =>
          match rows_of_lines rest with
          | None => None
          | Some rows =>
              Some (match row with Some r => r :: rows | None => rows end)
          end
      end
  end.

(** A repository with four branches: [main] is level with its upstream,
    [feature] is two commits ahead, [fix] has no upstream, [old] is one
    ahead and three behind. *)
Definition listing_world : world := {|
  git := fun args =>
    if eqb_args args listing_query then
      Some {| returncode := 0;
              stdout := lit "main|origin/main|" ++ [nl]
                        ++ lit "feature|origin/main|[ahead 2]" ++ [nl]
                        ++ lit "fix||" ++ [nl]
                        ++ lit "old|origin/old|[ahead 1, behind 3]" ++ [nl];
              stderr := [] |}
    else demo_git args;
  environ := fun _ => None;
  YAML_AVAILABLE := false;
  home := lit "/home/dev";
  settings := fun _ => None;
  api := fun _ => RateLimitError;
  stdin := [Line (lit "x"); Line (lit "7"); Line (lit " 2 ")];
  temp_name := lit "/tmp/msg.txt";
  temp_file := fun _ => TempWritten
|}.

(** *** A service that answers *)

(** The small world with the credential set and a service whose first
    answer has no content and whose second is a message, with white space
    around it. *)
Definition answering_world : world := {|
  git := demo_git;
  environ := fun k =>
    if String.eqb k "ANTHROPIC_API_KEY" then Some (lit "sk-test") else None;
  YAML_AVAILABLE := true;
  home := lit "/home/dev";
  settings := fun _ => None;
  api := fun n =>
    match n with
    | O => Content []
    | _ => Content [Some ([nl] ++ lit "fix(cli): handle empty input" ++ [nl])]
    end;
  stdin := [Line (lit " Y ")];
  temp_name := lit "/tmp/msg.txt";
  temp_file := fun _ => TempWritten
|}.

(** The small world with the credential set and a service that never has
    content in its answers. *)
Definition silent_world : world := {|
  git := demo_git;
  environ := fun k =>
    if String.eqb k "ANTHROPIC_API_KEY" then Some (lit "sk-test") else None;
  YAML_AVAILABLE := true;
  home := lit "/home/dev";
  settings := fun _ => None;
  api := fun _ => Content [];
  stdin := [];
  temp_name := lit "/tmp/msg.txt";
  temp_file := fun _ => TempWritten
|}.

(** The call the generator makes with a configuration. *)
Definition call_of (config : Config.t) : event :=
  ApiCall (Config.model config) (Config.temperature config).

(** *** The menu *)

(** The state after reading from standard input down to [tail], with the
    events [evs] added to the trace. *)
Definition reads (s : state) (evs : list event) (tail : list input_event)
  : state :=
  {| heap := heap s; out := out s ++ evs; api_calls := api_calls s;
     pending := tail |}.

(** A line that neither selects a branch nor exits: no number, or a number
    below 0 or above the number of branches. *)
Definition selects_nothing (branches : list branch_row) (line : str) : Prop :=
  match py_int (strip line) with
  | None => True
  | Some n => n < 0 \/ Z.of_nat (length branches) < n
  end.

(** What the menu says to such a line. *)
Definition complaint (line : str) : msg :=
  match py_int (strip line) with
  | None => EnterNumber
  | Some _ => InvalidSelection
  end.

(** The prompts and complaints for a sequence of such lines. *)
Definition asks_again (bad : list str) : list event :=
  flat_map (fun line => [Prompt select_prompt; Print (complaint line)]) bad.

(** The branches of [listing_world] that are ahead. *)
Definition listed : list branch_row :=
  [(lit "feature", Some (lit "origin/main"), 2, 0);
   (lit "old", Some (lit "origin/old"), 1, 3)].

(** *** Settings *)

(** The mapping after the pairs are stored in it, in order. *)
Definition store_pairs (items : list (string * val))
    (entries : gmap string val) : gmap string val :=
  fold_left (fun m kv => <[fst kv := snd kv]> m) items entries.

(** The value the pairs of a settings file give a key: that of the last
    pair with the key. *)
Fixpoint last_value (k : string) (items : list (string * val)) : option val :=
  match items with
  | [] => None
  | (k', v) :: rest =>
      match last_value k rest with
      | Some v' => Some v'
      | None => if String.eqb k' k then Some v else None
      end
  end.

(** The configuration with the pairs laid over the defaults: a field the
    pairs give has their value, every other field its default. *)
Definition overlaid (items : list (string * val)) : Config.t :=
  Config.mk
    (default (Config.max_diff_chars default_config)
       (last_value "max_diff_chars" items))
    (default (Config.model default_config) (last_value "model" items))
    (default (Config.temperature default_config)
       (last_value "temperature" items))
    (default (Config.max_retries default_config)
       (last_value "max_retries" items))
    (default (Config.commit_types default_config)
       (last_value "commit_types" items)).

(** Every key of the pairs is a field of [Config]. *)
Definition known_keys (items : list (string * val)) : Prop :=
  Forall (fun kv => In (fst kv) Config_fields) items.

(** The notices for a settings file that is passed over without a change
    to the configuration: none when the file does not exist or holds a
    value that is false, a warning when it cannot be read or parsed. *)
Definition passed_over (w : world) (dir : str) : option (list event) :=
  match settings w dir with
  | None | Some (Loaded Falsy) => Some []
  | Some LoadRaises => Some [Print (ConfigWarning dir)]
  | Some (Loaded _) => None
  end.

(** The directory [git rev-parse --show-toplevel] prints, as
    [get_repo_root] returns it. *)
Definition repo_root_of (w : world) : option str :=
  match git w [lit "rev-parse"; lit "--show-toplevel"] with
  | Some result => Some (strip (stdout result))
  | None => None
  end.

(** The small world with a settings file in the repository that cannot be
    parsed and one in the home directory that sets the model. *)
Definition home_world : world := {|
  git := demo_git;
  environ := fun _ => None;
  YAML_AVAILABLE := true;
  home := lit "/home/dev";
  settings := fun dir =>
    if eqb_str dir (lit "/repo") then Some LoadRaises
    else if eqb_str dir (lit "/home/dev") then
      Some (Loaded (Accepted [("model"%string, VStr (lit "other-model"))]))
    else None;
  api := fun _ => RateLimitError;
  stdin := [];
  temp_name := lit "/tmp/msg.txt";
  temp_file := fun _ => TempWritten
|}.

(** The small world with a settings file in the repository that misspells
    a key. *)
Definition typo_world : world := {|
  git := demo_git;
  environ := fun _ => None;
  YAML_AVAILABLE := true;
  home := lit "/home/dev";
  settings := fun dir =>
    if eqb_str dir (lit "/repo") then
      Some (Loaded (Accepted [("max_retries"%string, VInt 5);
                              ("max_diff_char"%string, VInt 10)]))
    else None;
  api := fun _ => RateLimitError;
  stdin := [];
  temp_name := lit "/tmp/msg.txt";
  temp_file := fun _ => TempWritten
|}.

(** A world without the YAML library and without git, with a settings
    file in every directory. *)
Definition no_yaml_world : world := {|
  git := fun _ => None;
  environ := fun _ => None;
  YAML_AVAILABLE := false;
  home := lit "/home/dev";
  settings := fun _ =>
    Some (Loaded (Accepted [("max_diff_chars"%string, VInt 10)]));
  api := fun _ => RateLimitError;
  stdin := [];
  temp_name := lit "/tmp/msg.txt";
  temp_file := fun _ => TempWritten
|}.

(** *** Runs of main *)

(** The query for the names of the staged files. *)
Definition staged_query : list str :=
  [lit "diff"; lit "--cached"; lit "--name-only"].

(** The branches that the listing of git gives: those of
    [get_all_branches_with_status]; [None] when [int] refuses a number of
    the listing. *)
Definition listing (w : world) : option (list branch_row) :=
  match git_output w listing_query with
  | Some (c :: output) => rows_of_lines (split_on nl (c :: output))
  | _ => Some []
  end.

(** What [main] says first, unless the output is JSON. *)
Definition opening (args : Args.t) (m : msg) : list event :=
  if Args.json args then [] else [Print m].

(** *** How a run ends *)

(** Every run of [m] that ends in [sys.exit] does so with a code in [X],
    and every run that ends in an exception with one in [E]. *)
Definition stops {A} (X : Z -> Prop) (E : exn -> Prop) (m : M A) : Prop :=
  forall s r s', m s = (r, s') ->
    match r with
    | Ret _ => True
    | Exit code => X code
    | Raise e => E e
    end.



(** *** Unattended runs and the commit message file *)

(** An event that needs nobody at the terminal and leaves the commit
    message file alone. *)
Definition unattended (e : event) : Prop :=
  match e with
  | Prompt _ | TempCreate | TempWrite _ | TempUnlink => False
  | _ => True
  end.

Definition no_write (e : event) : Prop :=
  match e with TempCreate | TempWrite _ => False | _ => True end.

(** Every run of [m] only adds events to the trace, and the result of the
    run and the events added satisfy [G]. *)
Definition traces {A} (G : res A -> list event -> Prop) (m : M A) : Prop :=
  forall s r s', m s = (r, s') -> exists evs, out s' = out s ++ evs /\ G r evs.

(** The run was ended by an error of writing the commit message file. *)
Definition write_failed {A} (r : res A) : Prop :=
  match r with
  | Raise UnicodeEncodeError | Raise OSError => True
  | _ => False
  end.

(** Every write of the commit message file is followed by its removal, and
    so is every creation of it, but for a creation that is the last event
    of a run ended by the error of the write that follows it. *)
Definition removed_after_write {A} (r : res A) (evs : list event) : Prop :=
  (forall pre text post,
      evs = pre ++ TempWrite text :: post -> In TempUnlink post) /\
  (forall pre post,
      evs = pre ++ TempCreate :: post ->
      In TempUnlink post \/ (post = [] /\ write_failed r)).

(** The world of [answering_world] with a commit message that the encoding
    of the file cannot take. *)
Definition unwritable_world : world := {|
  git := demo_git;
  environ := fun k =>
    if String.eqb k "ANTHROPIC_API_KEY" then Some (lit "sk-test") else None;
  YAML_AVAILABLE := true;
  home := lit "/home/dev";
  settings := fun _ => None;
  api := fun n =>
    match n with
    | O => Content []
    | _ => Content [Some ([nl] ++ lit "fix(cli): handle empty input" ++ [nl])]
    end;
  stdin := [Line (lit " Y ")];
  temp_name := lit "/tmp/msg.txt";
  temp_file := fun _ => TempEncodeError
|}.

(** *** The commit of [--auto-commit] *)

Definition confirm_prompt : string := "Commit with this message? [y/N]: ".

(** The command that commits with the message in the temporary file. *)
Definition commit_query (w : world) : list str :=
  [lit "commit"; lit "-F"; temp_name w].

(** The staged changes of the small world. *)
Definition staged_info : BranchInfo.t :=
  BranchInfo.mk (lit "HEAD") None 0 0 (lit "1 file changed, 5 insertions(+)")
    (lit "abcdef") [] 1 5 0.

(** *** The scan of all branches *)


(** *** The summary line of git *)

(** None of the first [n] positions of [s] starts a match of [p]. *)
Fixpoint no_match_before (p : list item) (n : nat) (s : str) : bool :=
  match n with
  | O => true
  | S n' =>
      match match_here p s with Some _ => false | None => true end &&
      match s with [] => true | _ :: s' => no_match_before p n' s' end
  end.

Definition plural (n : N) : str := if (n =? 1)%N then [] else lit "s".

(** The last line of [git diff --stat], without the blank before it, as
    git writes it: the number of files, then the insertions unless there
    are none but there are deletions, then the deletions unless there are
    none but there are insertions; every noun in the singular after 1. *)
Definition git_summary (files insertions deletions : N) : str :=
  decimal files ++ lit " file" ++ plural files ++ lit " changed"
  ++ (if (insertions =? 0)%N && negb (deletions =? 0)%N then []
      else lit ", " ++ decimal insertions ++ lit " insertion"
           ++ plural insertions ++ lit "(+)")
  ++ (if (deletions =? 0)%N && negb (insertions =? 0)%N then []
      else lit ", " ++ decimal deletions ++ lit " deletion"
           ++ plural deletions ++ lit "(-)").

(** The rest of a statistics pattern after its group. *)
Definition files_rest : list item :=
  chars " file" ++ [Opt "s"%char] ++ chars " changed".
Definition insertions_rest : list item := chars " insertion" ++ [Opt "s"%char].
Definition deletions_rest : list item := chars " deletion" ++ [Opt "s"%char].

(** The output of [git diff --stat] for two files, as [run_git] returns
    it. *)
Definition two_file_stat : str :=
  lit "a.py | 5 +++++" ++ [nl] ++ lit " docs/b.md | 1 -" ++ [nl] ++ lit " ".

(** *** Waiting *)

(** The seconds slept in a trace. *)
Definition waited (trace : list event) : Z := fold_right Z.add 0 (sleeps trace).
Example parse_tracking_info_tests :
  parse_tracking_info (lit "[ahead 3]") = Some (3, 0) /\
  parse_tracking_info (lit "[behind 2]") = Some (0, 2) /\
  parse_tracking_info (lit "[ahead 5, behind 2]") = Some (5, 2) /\
  parse_tracking_info (lit "") = Some (0, 0) /\
  parse_tracking_info (lit "[]") = Some (0, 0) /\
  parse_tracking_info (lit "[behind 1, ahead 4]") = Some (4, 1) /\
  parse_tracking_info (lit "[gone]") = Some (0, 0) /\
  parse_tracking_info (lit "ahead 007x") = Some (7, 0).
Proof. repeat split; reflexivity. Qed.

(** ** Facts about numerals *)

Lemma is_digit_digit_char d : 0 <= d <= 9 -> is_digit (digit_char d) = true.
Proof.
  intros H.
  assert (Hd : d = 0 \/ d = 1 \/ d = 2 \/ d = 3 \/ d = 4 \/ d = 5 \/ d = 6 \/
               d = 7 \/ d = 8 \/ d = 9) by lia.
  repeat (destruct Hd as [-> | Hd]; [reflexivity |]). subst. reflexivity.
Qed.

Lemma digit_val_digit_char d : 0 <= d <= 9 -> digit_val (digit_char d) = d.
Proof.
  intros H.
  assert (Hd : d = 0 \/ d = 1 \/ d = 2 \/ d = 3 \/ d = 4 \/ d = 5 \/ d = 6 \/
               d = 7 \/ d = 8 \/ d = 9) by lia.
  repeat (destruct Hd as [-> | Hd]; [reflexivity |]). subst. reflexivity.
Qed.

Lemma chars_of_uint_digits d : forallb is_digit (chars_of_uint d) = true.
Proof. induction d; simpl; auto. Qed.

Lemma chars_of_uint_nil d : chars_of_uint d = [] -> d = Nil.
Proof. destruct d; simpl; congruence. Qed.

Lemma horner_of_uint_acc d p :
  horner (Zpos p) (chars_of_uint d) = Zpos (Pos.of_uint_acc d p).
Proof.
  revert p. unfold horner.
  induction d; intros p; simpl; try reflexivity;
    rewrite digit_val_digit_char by lia;
    match goal with
    | |- fold_left _ _ ?a = _ =>
        match a with
        | _ => replace a with (Zpos (Pos.mul 10 p)) by lia
        | _ => replace a with (Zpos (Pos.succ (Pos.mul 10 p))) by lia
        | _ => replace a with (Zpos (Pos.add 2 (Pos.mul 10 p))) by lia
        | _ => replace a with (Zpos (Pos.add 3 (Pos.mul 10 p))) by lia
        | _ => replace a with (Zpos (Pos.add 4 (Pos.mul 10 p))) by lia
        | _ => replace a with (Zpos (Pos.add 5 (Pos.mul 10 p))) by lia
        | _ => replace a with (Zpos (Pos.add 6 (Pos.mul 10 p))) by lia
        | _ => replace a with (Zpos (Pos.add 7 (Pos.mul 10 p))) by lia
        | _ => replace a with (Zpos (Pos.add 8 (Pos.mul 10 p))) by lia
        | _ => replace a with (Zpos (Pos.add 9 (Pos.mul 10 p))) by lia
        end
    end; apply IHd.
Qed.

Lemma horner_of_uint d : horner 0 (chars_of_uint d) = Z.of_N (Pos.of_uint d).
Proof.
  induction d; simpl; try reflexivity; try exact IHd;
    unfold horner; simpl; rewrite digit_val_digit_char by lia;
    match goal with
    | |- fold_left _ _ ?a = Z.pos (Pos.of_uint_acc _ ?p) =>
        change a with (Zpos p)
    end; apply horner_of_uint_acc.
Qed.

Lemma decimal_digits n : forallb is_digit (decimal n) = true.
Proof. apply chars_of_uint_digits. Qed.

Lemma decimal_nonempty n : decimal n <> [].
Proof.
  unfold decimal. intros H. apply chars_of_uint_nil in H.
  destruct n as [| p]; [discriminate |].
  simpl in H. exact (DecimalPos.Unsigned.to_uint_nonnil p H).
Qed.

Lemma digits_value_decimal n : digits_value (decimal n) = Z.of_N n.
Proof.
  unfold decimal. change digits_value with (horner 0).
  rewrite horner_of_uint. f_equal. apply DecimalN.Unsigned.of_to.
Qed.

Lemma is_digit_not_space c : is_digit c = true -> is_space c = false.
Proof.
  unfold is_digit, is_space. set (n := nat_of_ascii c). intros H.
  apply andb_prop in H as [H1 H2].
  apply Nat.leb_le in H1. apply Nat.leb_le in H2.
  repeat match goal with
         | |- context [(?a <=? ?b)%nat] => destruct (Nat.leb_spec a b)
         | |- context [(?a =? ?b)%nat] => destruct (Nat.eqb_spec a b)
         end; simpl; try reflexivity; lia.
Qed.

Lemma lstrip_digits s : forallb is_digit s = true -> lstrip s = s.
Proof.
  destruct s as [| c s]; simpl; [reflexivity |]. intros H.
  apply andb_prop in H as [Hc _]. now rewrite (is_digit_not_space c Hc).
Qed.

Lemma forallb_rev {A} (f : A -> bool) (l : list A) :
  forallb f l = true -> forallb f (rev l) = true.
Proof.
  rewrite !forallb_forall. intros H x Hx. apply H. now apply in_rev.
Qed.

Lemma strip_digits s : forallb is_digit s = true -> strip s = s.
Proof.
  intros H. unfold strip. rewrite (lstrip_digits s H).
  rewrite (lstrip_digits (rev s)) by now apply forallb_rev.
  apply rev_involutive.
Qed.

Lemma ungroup_digits prev ds :
  forallb is_digit ds = true -> ds <> [] \/ prev = true ->
  ungroup prev ds = Some ds.
Proof.
  revert prev. induction ds as [| c ds IH]; intros prev Hd Hne; simpl in *.
  - destruct Hne as [Hne | ->]; [congruence | reflexivity].
  - apply andb_prop in Hd as [Hc Hd]. rewrite Hc.
    rewrite (IH true Hd) by now right. reflexivity.
Qed.

(** [int] reads a group matched by [\d+] by Horner's rule, unless the
    group has more digits than [int] converts. *)
Lemma py_int_digits_cases ds :
  ds <> [] -> forallb is_digit ds = true ->
  py_int ds = if len ds >? int_max_str_digits then None
              else Some (digits_value ds).
Proof.
  intros Hne Hd. unfold py_int. rewrite (strip_digits ds Hd).
  destruct ds as [| c ds]; [congruence |].
  assert (Hc : is_digit c = true) by (simpl in Hd; now apply andb_prop in Hd).
  destruct (Ascii.eqb_spec c "-"%char) as [-> | _]; [discriminate |].
  destruct (Ascii.eqb_spec c "+"%char) as [-> | _]; [discriminate |].
  rewrite (ungroup_digits false (c :: ds) Hd) by now left. reflexivity.
Qed.

Lemma py_int_digits ds :
  ds <> [] -> forallb is_digit ds = true -> len ds <= int_max_str_digits ->
  py_int ds = Some (digits_value ds).
Proof.
  intros Hne Hd Hlen. rewrite (py_int_digits_cases ds Hne Hd).
  destruct (Z.gtb_spec (len ds) int_max_str_digits); [lia | reflexivity].
Qed.

Lemma py_int_decimal n :
  len (decimal n) <= int_max_str_digits -> py_int (decimal n) = Some (Z.of_N n).
Proof.
  intros Hlen.
  rewrite py_int_digits
    by (apply decimal_nonempty || apply decimal_digits || exact Hlen).
  now rewrite digits_value_decimal.
Qed.

Lemma digits_value_nonneg_from acc ds :
  0 <= acc -> forallb is_digit ds = true -> 0 <= horner acc ds.
Proof.
  revert acc. unfold horner.
  induction ds as [| c ds IH]; intros acc Hacc Hd; simpl in *; [lia |].
  apply andb_prop in Hd as [Hc Hd]. apply IH; [| exact Hd].
  unfold is_digit in Hc. apply andb_prop in Hc as [H1 H2].
  apply Nat.leb_le in H1. unfold digit_val. lia.
Qed.


(** ** Facts about the matcher *)

Lemma span_digits_app ds post :
  forallb is_digit ds = true -> starts_with_digit post = false ->
  span_digits (ds ++ post) = (ds, post).
Proof.
  intros Hd Hp. induction ds as [| c ds IH]; simpl in *.
  - destruct post as [| c post]; simpl in *; [reflexivity | now rewrite Hp].
  - apply andb_prop in Hd as [Hc Hd]. rewrite Hc, (IH Hd). reflexivity.
Qed.

Lemma span_digits_spec s :
  s = fst (span_digits s) ++ snd (span_digits s) /\
  forallb is_digit (fst (span_digits s)) = true /\
  starts_with_digit (snd (span_digits s)) = false.
Proof.
  induction s as [| c s (IH1 & IH2 & IH3)]; simpl; [auto |].
  destruct (is_digit c) eqn:Hc; simpl.
  - destruct (span_digits s) as [ds r]; simpl in *.
    rewrite Hc. repeat split; [congruence | assumption | assumption].
  - rewrite Hc. auto.
Qed.

Lemma span_digits_nil s :
  starts_with_digit s = false -> fst (span_digits s) = [].
Proof. destruct s as [| c s]; simpl; [reflexivity |]. now intros ->. Qed.

Lemma span_digits_cons s :
  starts_with_digit s = true -> fst (span_digits s) <> [].
Proof.
  destruct s as [| c s]; simpl; [discriminate |]. intros ->.
  now destruct (span_digits s).
Qed.

(** When the rest of the pattern accepts any text, greedy [\d+] keeps the
    whole run of digits. *)
Lemma digits_then_total k s :
  (forall t, is_Some (k t)) ->
  digits_then k s =
    match fst (span_digits s) with [] => None | ds => Some ds end.
Proof.
  intros Hk. induction s as [| c s IH]; simpl; [reflexivity |].
  destruct (is_digit c) eqn:Hc; [| reflexivity].
  rewrite IH. destruct (span_digits s) as [ds r] eqn:E; simpl.
  destruct ds; [| reflexivity].
  now destruct (Hk s) as [g ->].
Qed.

(** When the rest of the pattern cannot start with a digit, [\d+] again
    keeps the whole run: giving digits back never helps. *)
Lemma digits_then_sep k s :
  (forall t, starts_with_digit t = true -> k t = None) ->
  digits_then k s =
    match span_digits s with
    | ([], _) => None
    | (ds, r) => match k r with Some _ => Some ds | None => None end
    end.
Proof.
  intros Hk. induction s as [| c s IH]; simpl; [reflexivity |].
  destruct (is_digit c) eqn:Hc; [| reflexivity].
  rewrite IH. destruct (span_digits s) as [ds r] eqn:E.
  destruct ds as [| d ds].
  - assert (Hr : r = s).
    { destruct s as [| c' s]; simpl in E; [congruence |].
      destruct (is_digit c'); [destruct (span_digits s) |]; congruence. }
    subst r. reflexivity.
  - destruct (k r); [reflexivity |].
    rewrite Hk; [reflexivity |].
    destruct s as [| c' s]; simpl in E; [congruence |].
    simpl. destruct (is_digit c'); [reflexivity | congruence].
Qed.

Lemma match_here_chars kw p s :
  match_here (map Chr kw ++ p) s =
    match strip_prefix kw s with
    | Some r => match_here p r
    | None => None
    end.
Proof.
  revert s. induction kw as [| a kw IH]; intros s; simpl; [reflexivity |].
  destruct s as [| b s]; [reflexivity |].
  destruct (Ascii.eqb a b); [apply IH | reflexivity].
Qed.

Lemma strip_prefix_app kw s : strip_prefix kw (kw ++ s) = Some s.
Proof.
  induction kw as [| a kw IH]; simpl; [reflexivity |].
  now rewrite Ascii.eqb_refl.
Qed.

Lemma strip_prefix_Some kw s r : strip_prefix kw s = Some r -> s = kw ++ r.
Proof.
  revert s. induction kw as [| a kw IH]; intros s H; simpl in *; [congruence |].
  destruct s as [| b s]; [discriminate |].
  destruct (Ascii.eqb a b) eqn:E; [| discriminate].
  apply Ascii.eqb_eq in E. subst b. f_equal. now apply IH.
Qed.

(** The pattern [kw(\d+)] anchored at the start of [s]. *)
Lemma match_here_marker kw s :
  match_here (map Chr kw ++ [Digits]) s =
    match strip_prefix kw s with
    | Some r => match fst (span_digits r) with [] => None | ds => Some ds end
    | None => None
    end.
Proof.
  rewrite match_here_chars. destruct (strip_prefix kw s) as [r |]; [| reflexivity].
  simpl. apply digits_then_total. intros t. now exists [].
Qed.

Lemma match_here_no_marker kw s :
  marker_here kw s = false -> match_here (map Chr kw ++ [Digits]) s = None.
Proof.
  unfold marker_here. rewrite match_here_marker.
  destruct (strip_prefix kw s) as [r |]; [| reflexivity].
  intros H. now rewrite (span_digits_nil _ H).
Qed.

(** The search returns the number of the first marker. *)
Lemma search_first_marker kw pre ds post :
  ds <> [] -> forallb is_digit ds = true -> starts_with_digit post = false ->
  no_marker_before kw (length pre) (pre ++ kw ++ ds ++ post) = true ->
  re_search (map Chr kw ++ [Digits]) (pre ++ kw ++ ds ++ post) = Some ds.
Proof.
  intros Hne Hd Hp. induction pre as [| c pre IH]; intros Hno.
  - simpl app. 
    assert (Hm : match_here (map Chr kw ++ [Digits]) (kw ++ ds ++ post) = Some ds).
    { rewrite match_here_marker, strip_prefix_app, span_digits_app by assumption.
      simpl. destruct ds; congruence. }
    destruct (kw ++ ds ++ post); simpl; now rewrite Hm.
  - simpl in Hno. apply andb_prop in Hno as [Hm Hno].
    apply negb_true_iff in Hm. apply match_here_no_marker in Hm.
    change ((c :: pre) ++ kw ++ ds ++ post) with (c :: (pre ++ kw ++ ds ++ post)) in *.
    cbn [re_search]. rewrite Hm. apply IH, Hno.
Qed.

(** Without a marker the search finds nothing. *)
Lemma search_no_marker kw s :
  has_marker kw s = false -> re_search (map Chr kw ++ [Digits]) s = None.
Proof.
  induction s as [| c s IH]; simpl; intros H;
    apply orb_false_iff in H as [Hm H];
    apply match_here_no_marker in Hm.
  - simpl in Hm. now rewrite Hm.
  - rewrite Hm. auto.
Qed.

(** ** The tracking-info parser *)

Lemma digits_then_group k s g :
  digits_then k s = Some g -> g <> [] /\ forallb is_digit g = true.
Proof.
  revert g. induction s as [| c s IH]; intros g; simpl; [discriminate |].
  destruct (is_digit c) eqn:Hc; [| discriminate].
  destruct (digits_then k s) as [ds |].
  - intros [= <-]. destruct (IH ds eq_refl) as [_ Hd].
    split; [discriminate | simpl; now rewrite Hc].
  - destruct (k s); [| discriminate]. intros [= <-].
    split; [discriminate | simpl; now rewrite Hc].
Qed.

(** Group 1 of a match is a non-empty string of digits. *)
Lemma match_here_group p s g :
  has_group p = true -> match_here p s = Some g ->
  g <> [] /\ forallb is_digit g = true.
Proof.
  revert s. induction p as [| i p IH]; intros s Hg; [discriminate |].
  destruct i as [c | c |]; simpl in *.
  - destruct s as [| c' s]; [discriminate |].
    destruct (Ascii.eqb c c'); [apply IH, Hg | discriminate].
  - destruct s as [| c' s]; [apply IH, Hg |].
    destruct (Ascii.eqb c c'); [| apply IH, Hg].
    destruct (match_here p s) eqn:E; [| apply IH, Hg].
    intros [= <-]. exact (IH s Hg E).
  - apply digits_then_group.
Qed.

Lemma re_search_group p s g :
  has_group p = true -> re_search p s = Some g ->
  g <> [] /\ forallb is_digit g = true.
Proof.
  intros Hg. induction s as [| c s IH]; simpl.
  - destruct (match_here p []) eqn:E; [| discriminate].
    intros [= <-]. exact (match_here_group p [] _ Hg E).
  - destruct (match_here p (c :: s)) eqn:E; [| exact IH].
    intros [= <-]. exact (match_here_group p _ _ Hg E).
Qed.

(** *** The length of a group *)

Lemma len_cons (c : ascii) (s : str) : len (c :: s) = 1 + len s.
Proof. unfold len. cbn [length]. lia. Qed.

Lemma longest_run_nonneg s : 0 <= longest_run s.
Proof. induction s as [| c s IH]; cbn [longest_run]; lia. Qed.

Lemma span_digits_longest s : len (fst (span_digits s)) <= longest_run s.
Proof. destruct s as [| c s]; [reflexivity |]. cbn [longest_run]. lia. Qed.

Lemma longest_run_tail c s : longest_run s <= longest_run (c :: s).
Proof. cbn [longest_run]. lia. Qed.

Lemma digits_then_len k s g :
  digits_then k s = Some g -> len g <= len (fst (span_digits s)).
Proof.
  revert g. induction s as [| c s IH]; intros g; simpl; [discriminate |].
  destruct (is_digit c) eqn:Hc; [| discriminate].
  destruct (span_digits s) as [ds r] eqn:Es. cbn [fst] in *.
  destruct (digits_then k s) as [ds' |].
  - intros [= <-]. specialize (IH ds' eq_refl). rewrite !len_cons. lia.
  - destruct (k s); [| discriminate]. intros [= <-].
    rewrite !len_cons. unfold len. cbn [length]. lia.
Qed.

(** Group 1 of a match is no longer than the longest run of digits of the
    text. *)
Lemma match_here_len p :
  forall s g, match_here p s = Some g -> len g <= longest_run s.
Proof.
  induction p as [| i p IH]; intros s g.
  - intros [= <-]. apply longest_run_nonneg.
  - destruct i as [c | c |]; cbn [match_here].
    + destruct s as [| c' s]; [discriminate |].
      destruct (Ascii.eqb c c'); [| discriminate].
      intros H. pose proof (IH _ _ H). pose proof (longest_run_tail c' s). lia.
    + destruct s as [| c' s]; [apply IH |].
      destruct (Ascii.eqb c c'); [| apply IH].
      destruct (match_here p s) as [g' |] eqn:E; [| apply IH].
      intros [= <-]. pose proof (IH _ _ E).
      pose proof (longest_run_tail c' s). lia.
    + intros H. pose proof (digits_then_len _ _ _ H).
      pose proof (span_digits_longest s). lia.
Qed.

Lemma re_search_len p s g : re_search p s = Some g -> len g <= longest_run s.
Proof.
  induction s as [| c s IH]; cbn [re_search].
  - destruct (match_here p []) eqn:E; [| discriminate].
    intros [= <-]. exact (match_here_len p [] _ E).
  - destruct (match_here p (c :: s)) eqn:E.
    + intros [= <-]. exact (match_here_len p _ _ E).
    + intros H. pose proof (IH H). pose proof (longest_run_tail c s). lia.
Qed.

(** [int(m.group(1))]: a field is the value of the digits matched, or the
    default when there is no match; [int] raises when the digits matched
    are more than it converts. *)
Lemma search_int_cases p s dflt :
  has_group p = true ->
  search_int p s dflt =
    match re_search p s with
    | Some g => if len g >? int_max_str_digits then None
                else Some (digits_value g)
    | None => Some dflt
    end.
Proof.
  intros Hg. unfold search_int. destruct (re_search p s) as [g |] eqn:E; [| reflexivity].
  destruct (re_search_group p s g Hg E). now apply py_int_digits_cases.
Qed.

(** It does not raise on a text whose runs of digits are all within the
    limit. *)
Lemma search_int_value p s dflt :
  has_group p = true -> longest_run s <= int_max_str_digits ->
  search_int p s dflt =
    Some (match re_search p s with Some g => digits_value g | None => dflt end).
Proof.
  intros Hg Hlen. rewrite (search_int_cases p s dflt Hg).
  destruct (re_search p s) as [g |] eqn:E; [| reflexivity].
  pose proof (re_search_len p s g E).
  destruct (Z.gtb_spec (len g) int_max_str_digits); [lia | reflexivity].
Qed.

(** What it returns, when it returns. *)
Lemma search_int_Some p s dflt v :
  has_group p = true -> search_int p s dflt = Some v ->
  v = match re_search p s with Some g => digits_value g | None => dflt end.
Proof.
  intros Hg. rewrite (search_int_cases p s dflt Hg).
  destruct (re_search p s) as [g |]; [| now intros [= <-]].
  destruct (len g >? int_max_str_digits); [discriminate | now intros [= <-]].
Qed.

Lemma search_int_marker kw pre n post dflt :
  len (decimal n) <= int_max_str_digits ->
  starts_with_digit post = false ->
  no_marker_before kw (length pre) (pre ++ kw ++ decimal n ++ post) = true ->
  search_int (map Chr kw ++ [Digits]) (pre ++ kw ++ decimal n ++ post) dflt
  = Some (Z.of_N n).
Proof.
  intros Hlen Hp Hno. unfold search_int.
  rewrite search_first_marker;
    [now apply py_int_decimal | apply decimal_nonempty | apply decimal_digits
    | exact Hp | exact Hno].
Qed.


Lemma search_int_no_marker kw s dflt :
  has_marker kw s = false ->
  search_int (map Chr kw ++ [Digits]) s dflt = Some dflt.
Proof. intros H. unfold search_int. now rewrite search_no_marker. Qed.

Lemma parse_tracking_info_eq track_info :
  longest_run track_info <= int_max_str_digits ->
  parse_tracking_info track_info =
    Some (match re_search ahead_re track_info with
          | Some g => digits_value g | None => 0 end,
          match re_search behind_re track_info with
          | Some g => digits_value g | None => 0 end).
Proof.
  intros Hlen. unfold parse_tracking_info.
  destruct track_info as [| c s]; [reflexivity |].
  cbn [falsy]. rewrite !search_int_value by (reflexivity || exact Hlen).
  reflexivity.
Qed.

(** What the parser returns, when it returns. *)
Lemma parse_tracking_info_Some track_info ahead behind :
  parse_tracking_info track_info = Some (ahead, behind) ->
  ahead = match re_search ahead_re track_info with
          | Some g => digits_value g | None => 0 end /\
  behind = match re_search behind_re track_info with
           | Some g => digits_value g | None => 0 end.
Proof.
  unfold parse_tracking_info. destruct track_info as [| c s].
  - intros [= <- <-]. split; reflexivity.
  - cbn [falsy].
    destruct (search_int ahead_re (c :: s) 0) as [a |] eqn:Ea; [| discriminate].
    destruct (search_int behind_re (c :: s) 0) as [b |] eqn:Eb; [| discriminate].
    intros H. change (Some (a, b) = Some (ahead, behind)) in H.
    injection H as <- <-.
    split; now apply search_int_Some.
Qed.




(** *** The shapes git prints, for all numbers *)

Lemma no_marker_before_other k kw pre rest :
  forallb (fun c => negb (Ascii.eqb k c)) pre = true ->
  no_marker_before (k :: kw) (length pre) (pre ++ rest) = true.
Proof.
  induction pre as [| c pre IH]; simpl; [reflexivity |]. intros H.
  apply andb_prop in H as [Hc H]. apply negb_true_iff in Hc.
  unfold marker_here. simpl. rewrite Hc. simpl. auto.
Qed.

Lemma digits_other k ds :
  is_digit k = false -> forallb is_digit ds = true ->
  forallb (fun c => negb (Ascii.eqb k c)) ds = true.
Proof.
  intros Hk. induction ds as [| c ds IH]; simpl; [reflexivity |]. intros H.
  apply andb_prop in H as [Hc H]. rewrite (IH H), andb_true_r.
  destruct (Ascii.eqb_spec k c) as [-> | _]; [congruence | reflexivity].
Qed.

Ltac other_chars :=
  rewrite !forallb_app;
  repeat match goal with
         | |- context [forallb (fun c => negb (Ascii.eqb ?k c)) (decimal ?n)] =>
             rewrite (digits_other k (decimal n))
               by (reflexivity || apply decimal_digits)
         end;
  reflexivity.

Lemma has_marker_other k kw s :
  forallb (fun c => negb (Ascii.eqb k c)) s = true ->
  has_marker (k :: kw) s = false.
Proof.
  induction s as [| c s IH]; simpl; [reflexivity |]. intros H.
  apply andb_prop in H as [Hc H]. apply negb_true_iff in Hc.
  unfold marker_here at 1. simpl. rewrite Hc. simpl. auto.
Qed.

Lemma parse_tracking_info_nonempty c s :
  parse_tracking_info (c :: s)
  = (ahead ← search_int ahead_re (c :: s) 0;
     behind ← search_int behind_re (c :: s) 0;
     Some (ahead, behind)).
Proof. reflexivity. Qed.

Lemma parse_tracking_info_ahead_behind n m :
  len (decimal n) <= int_max_str_digits ->
  len (decimal m) <= int_max_str_digits ->
  parse_tracking_info
    (lit "[ahead " ++ decimal n ++ lit ", behind " ++ decimal m ++ lit "]")
  = Some (Z.of_N n, Z.of_N m).
Proof.
  intros Hn Hm.
  change (lit "[ahead " ++ decimal n ++ lit ", behind " ++ decimal m ++ lit "]")
    with ("["%char :: lit "ahead " ++ decimal n ++ lit ", behind "
            ++ decimal m ++ lit "]").
  rewrite parse_tracking_info_nonempty.
  change ahead_re with (map Chr (lit "ahead ") ++ [Digits]).
  change behind_re with (map Chr (lit "behind ") ++ [Digits]).
  set (s := "["%char :: _).
  assert (Ha : s = lit "[" ++ lit "ahead " ++ decimal n
                   ++ (lit ", behind " ++ decimal m ++ lit "]")) by reflexivity.
  assert (Hb : s = (lit "[ahead " ++ decimal n ++ lit ", ") ++ lit "behind "
                   ++ decimal m ++ lit "]").
  { subst s. now rewrite <- !app_assoc. }
  rewrite Ha at 1. rewrite search_int_marker by (exact Hn || reflexivity).
  rewrite Hb. rewrite search_int_marker; [reflexivity | exact Hm | reflexivity |].
  apply no_marker_before_other.
  other_chars.
Qed.

Lemma parse_tracking_info_behind_ahead n m :
  len (decimal n) <= int_max_str_digits ->
  len (decimal m) <= int_max_str_digits ->
  parse_tracking_info
    (lit "[behind " ++ decimal m ++ lit ", ahead " ++ decimal n ++ lit "]")
  = Some (Z.of_N n, Z.of_N m).
Proof.
  intros Hn Hm.
  change (lit "[behind " ++ decimal m ++ lit ", ahead " ++ decimal n ++ lit "]")
    with ("["%char :: lit "behind " ++ decimal m ++ lit ", ahead "
            ++ decimal n ++ lit "]").
  rewrite parse_tracking_info_nonempty.
  change ahead_re with (map Chr (lit "ahead ") ++ [Digits]).
  change behind_re with (map Chr (lit "behind ") ++ [Digits]).
  set (s := "["%char :: _).
  assert (Hb : s = lit "[" ++ lit "behind " ++ decimal m
                   ++ (lit ", ahead " ++ decimal n ++ lit "]")) by reflexivity.
  assert (Ha : s = (lit "[behind " ++ decimal m ++ lit ", ") ++ lit "ahead "
                   ++ decimal n ++ lit "]").
  { subst s. now rewrite <- !app_assoc. }
  rewrite Ha at 1. rewrite search_int_marker; [| exact Hn | reflexivity |].
  - rewrite Hb. now rewrite search_int_marker by (exact Hm || reflexivity).
  - apply no_marker_before_other.
    other_chars.
Qed.

Lemma parse_tracking_info_ahead_only n :
  len (decimal n) <= int_max_str_digits ->
  parse_tracking_info (lit "[ahead " ++ decimal n ++ lit "]")
  = Some (Z.of_N n, 0).
Proof.
  intros Hn.
  change (lit "[ahead " ++ decimal n ++ lit "]")
    with ("["%char :: lit "ahead " ++ decimal n ++ lit "]").
  rewrite parse_tracking_info_nonempty.
  change ahead_re with (map Chr (lit "ahead ") ++ [Digits]).
  change behind_re with (map Chr (lit "behind ") ++ [Digits]).
  rewrite (search_int_no_marker (lit "behind ")).
  - change ("["%char :: lit "ahead " ++ decimal n ++ lit "]")
      with (lit "[" ++ lit "ahead " ++ decimal n ++ lit "]").
    now rewrite search_int_marker by (exact Hn || reflexivity).
  - apply has_marker_other.
    change ("["%char :: lit "ahead " ++ decimal n ++ lit "]")
      with (lit "[ahead " ++ decimal n ++ lit "]").
    other_chars.
Qed.

Lemma parse_tracking_info_behind_only m :
  len (decimal m) <= int_max_str_digits ->
  parse_tracking_info (lit "[behind " ++ decimal m ++ lit "]")
  = Some (0, Z.of_N m).
Proof.
  intros Hm.
  change (lit "[behind " ++ decimal m ++ lit "]")
    with ("["%char :: lit "behind " ++ decimal m ++ lit "]").
  rewrite parse_tracking_info_nonempty.
  change ahead_re with (map Chr (lit "ahead ") ++ [Digits]).
  change behind_re with (map Chr (lit "behind ") ++ [Digits]).
  rewrite (search_int_no_marker (lit "ahead ")).
  - change ("["%char :: lit "behind " ++ decimal m ++ lit "]")
      with (lit "[" ++ lit "behind " ++ decimal m ++ lit "]").
    now rewrite search_int_marker by (exact Hm || reflexivity).
  - apply has_marker_other.
    change ("["%char :: lit "behind " ++ decimal m ++ lit "]")
      with (lit "[behind " ++ decimal m ++ lit "]").
    other_chars.
Qed.

(** ** Running the monad *)

Lemma bind_Ret_inv {A B} (m : M A) (f : A -> M B) s b s' :
  bind m f s = (Ret b, s') ->
  exists a s1, m s = (Ret a, s1) /\ f a s1 = (Ret b, s').
Proof.
  unfold bind. destruct (m s) as [[a | c | e] s1]; intros H;
    [eauto | discriminate | discriminate].
Qed.

Lemma ret_inv {A} (a b : A) s s' : ret a s = (Ret b, s') -> a = b /\ s = s'.
Proof. unfold ret. now intros [= -> ->]. Qed.

Lemma or_value_error_inv {A} (o : option A) s a s' :
  or_value_error o s = (Ret a, s') -> o = Some a /\ s' = s.
Proof.
  destruct o; simpl; unfold ret, raise; intros [= ]; subst; auto.
Qed.

Lemma as_int_inv v s n s' :
  as_int v s = (Ret n, s') -> v = VInt n /\ s' = s.
Proof.
  destruct v; simpl; unfold ret, raise; intros [= ]; subst; auto.
Qed.

(** [run_git] with [check] set returns [True] exactly with the output of a
    git that ended with exit code 0, and leaves the state as it was. *)
Lemma run_git_check_inv w args s success output s' :
  run_git w args true s = (Ret (success, output), s') ->
  s' = s /\ (success = true -> git_output w args = Some output)
         /\ (success = false -> git_output w args = None).
Proof.
  unfold run_git, git_output.
  destruct (git w args) as [result |].
  - destruct (returncode result =? 0); simpl; unfold ret;
      intros [= <- <- <-]; repeat split; congruence.
  - unfold bind, print, emit, exit. discriminate.
Qed.

(** Without [check], [run_git] reports success whatever the exit code. *)
Lemma run_git_nocheck_inv w args s success output s' :
  run_git w args false s = (Ret (success, output), s') ->
  s' = s /\ success = true /\
  exists result, git w args = Some result /\ output = strip (stdout result).
Proof.
  unfold run_git. destruct (git w args) as [result |].
  - simpl. unfold ret. intros [= <- <- <-]. eauto.
  - unfold bind, print, emit, exit. discriminate.
Qed.

(** ** The diff collector *)

Lemma collect_branch_inv w branch upstream config s info s' :
  collect_branch w branch upstream config s = (Ret (Some info), s') ->
  exists diff_stat diff_content max_diff_chars,
    git_output w [lit "diff"; lit "--stat"; upstream ++ lit ".." ++ branch]
      = Some diff_stat /\
    git_output w [lit "diff"; upstream ++ lit ".." ++ branch]
      = Some diff_content /\
    Config.max_diff_chars config = VInt max_diff_chars /\
    BranchInfo.name info = branch /\
    BranchInfo.upstream info = Some upstream /\
    BranchInfo.diff_stat info = diff_stat /\
    BranchInfo.diff_content info = truncate_diff diff_content max_diff_chars /\
    parse_stats diff_stat
      = Some (BranchInfo.files_changed info, BranchInfo.insertions info,
              BranchInfo.deletions info).
Proof.
  unfold collect_branch. intros H.
  apply bind_Ret_inv in H as ([ok1 diff_stat] & s1 & H1 & H).
  apply run_git_check_inv in H1 as (-> & Hs1 & _).
  destruct ok1; [| apply ret_inv in H as [[=] _]]. simpl in H.
  apply bind_Ret_inv in H as ([ok2 diff_content] & s2 & H2 & H).
  apply run_git_check_inv in H2 as (-> & Hs2 & _).
  destruct ok2; [| apply ret_inv in H as [[=] _]]. simpl in H.
  apply bind_Ret_inv in H as (cap & s3 & H3 & H).
  apply as_int_inv in H3 as (Hcap & ->).
  apply bind_Ret_inv in H as ([ok4 commit_log] & s4 & _ & H).
  apply bind_Ret_inv in H as ([[f i] d] & s5 & H5 & H).
  apply or_value_error_inv in H5 as (Hstats & ->).
  apply bind_Ret_inv in H as ([ok6 track] & s6 & _ & H).
  apply bind_Ret_inv in H as ([a b] & s7 & _ & H).
  apply ret_inv in H as [[= <-] _]. simpl.
  exists diff_stat, diff_content, cap. repeat split; auto.
Qed.

Lemma get_branch_diff_inv w branch upstream config s info s' :
  get_branch_diff w branch upstream config s = (Ret (Some info), s') ->
  exists resolved s1,
    collect_branch w branch resolved config s1 = (Ret (Some info), s').
Proof.
  unfold get_branch_diff. intros H.
  destruct upstream as [[| c u] |]; eauto.
  - apply bind_Ret_inv in H as ([ok d] & s1 & _ & H).
    apply bind_Ret_inv in H as (up & s2 & _ & H).
    destruct up as [[| c u] |]; eauto;
      apply bind_Ret_inv in H as (? & ? & _ & H);
      apply ret_inv in H as [[=] _].
  - apply bind_Ret_inv in H as ([ok d] & s1 & _ & H).
    apply bind_Ret_inv in H as (up & s2 & _ & H).
    destruct up as [[| c u] |]; eauto;
      apply bind_Ret_inv in H as (? & ? & _ & H);
      apply ret_inv in H as [[=] _].
Qed.

Lemma get_staged_changes_inv w config s info s' :
  get_staged_changes w config s = (Ret (Some info), s') ->
  exists diff_stat diff_content max_diff_chars,
    git_output w [lit "diff"; lit "--cached"; lit "--stat"] = Some diff_stat /\
    git_output w [lit "diff"; lit "--cached"] = Some diff_content /\
    Config.max_diff_chars config = VInt max_diff_chars /\
    BranchInfo.upstream info = None /\
    BranchInfo.ahead info = 0 /\ BranchInfo.behind info = 0 /\
    BranchInfo.diff_stat info = diff_stat /\
    BranchInfo.diff_content info = truncate_diff diff_content max_diff_chars /\
    parse_stats diff_stat
      = Some (BranchInfo.files_changed info, BranchInfo.insertions info,
              BranchInfo.deletions info).
Proof.
  unfold get_staged_changes. intros H.
  apply bind_Ret_inv in H as ([ok0 status] & s0 & H0 & H).
  apply run_git_check_inv in H0 as (-> & _ & _).
  destruct (negb ok0 || falsy status); [apply ret_inv in H as [[=] _] |].
  apply bind_Ret_inv in H as ([ok1 diff_stat] & s1 & H1 & H).
  apply run_git_check_inv in H1 as (-> & Hs1 & _).
  destruct ok1; [| apply ret_inv in H as [[=] _]]. simpl in H.
  apply bind_Ret_inv in H as ([ok2 diff_content] & s2 & H2 & H).
  apply run_git_check_inv in H2 as (-> & Hs2 & _).
  destruct ok2; [| apply ret_inv in H as [[=] _]]. simpl in H.
  apply bind_Ret_inv in H as (cap & s3 & H3 & H).
  apply as_int_inv in H3 as (Hcap & ->).
  apply bind_Ret_inv in H as ([ok4 current] & s4 & _ & H).
  apply bind_Ret_inv in H as ([[f i] d] & s5 & H5 & H).
  apply or_value_error_inv in H5 as (Hstats & ->).
  apply ret_inv in H as [[= <-] _]. simpl.
  exists diff_stat, diff_content, cap. repeat split; auto.
Qed.

(** ** Truncation of the full diff *)

Lemma len_app (a b : str) : len (a ++ b) = len a + len b.
Proof. unfold len. rewrite length_app. lia. Qed.

Lemma len_nonneg (s : str) : 0 <= len s.
Proof. unfold len. lia. Qed.

Lemma slice_to_nonneg s n : 0 <= n -> slice_to s n = take (Z.to_nat n) s.
Proof.
  intros H. unfold slice_to. destruct (Z.ltb_spec n 0); [lia | reflexivity].
Qed.

Lemma truncate_diff_long text cap :
  len text > cap -> 0 <= cap ->
  truncate_diff text cap = take (Z.to_nat cap) text ++ annotation cap (len text).
Proof.
  intros Hlong Hcap. unfold truncate_diff.
  destruct (Z.gtb_spec (len text) cap); [| lia].
  now rewrite slice_to_nonneg.
Qed.

Lemma truncate_diff_short text cap :
  len text <= cap -> truncate_diff text cap = text.
Proof.
  intros Hshort. unfold truncate_diff.
  destruct (Z.gtb_spec (len text) cap); [lia | reflexivity].
Qed.

Lemma len_take_cap (text : str) cap :
  0 <= cap -> len text > cap -> len (take (Z.to_nat cap) text) = cap.
Proof. intros H1 H2. unfold len in *. rewrite length_take. lia. Qed.

Lemma annotation_truncated cap size :
  contains (lit "Truncated") (annotation cap size).
Proof.
  exists ([nl; nl] ++ lit "... ["),
    (lit ": showing first " ++ py_str cap ++ lit " of " ++ py_str size
     ++ lit " characters]").
  reflexivity.
Qed.

Lemma annotation_size cap size : contains (py_str size) (annotation cap size).
Proof.
  exists ([nl; nl] ++ lit "... [Truncated: showing first " ++ py_str cap
          ++ lit " of "), (lit " characters]").
  unfold annotation. now rewrite <- !app_assoc.
Qed.

Lemma len_annotation cap size : 0 < len (annotation cap size).
Proof.
  unfold annotation. rewrite len_app.
  pose proof (len_nonneg (lit "... [Truncated: showing first " ++ py_str cap
                          ++ lit " of " ++ py_str size ++ lit " characters]")).
  change (len [nl; nl]) with 2. lia.
Qed.

(** For a negative bound Python's slice counts from the end: the text kept
    is all but the last [-cap] characters. *)
Lemma truncate_diff_negative text cap :
  cap < 0 ->
  truncate_diff text cap
  = take (Z.to_nat (len text + cap)) text ++ annotation cap (len text).
Proof.
  intros Hneg. unfold truncate_diff. pose proof (len_nonneg text).
  destruct (Z.gtb_spec (len text) cap); [| lia].
  unfold slice_to. destruct (Z.ltb_spec cap 0); [| lia].
  do 2 f_equal. lia.
Qed.

(** C1. With a cap [cap >= 0] and a diff text longer than the cap, the
    diff content collected, in branch mode and in staged mode alike, is the
    first [cap] characters of the text followed by the annotation; the
    annotation contains the word Truncated and the length of the whole text
    in decimal, and since it is not counted against the cap the content is
    longer than the cap. *)
Theorem truncation_spec (w : world) (config : Config.t) (cap : Z) (text : str) :
  Config.max_diff_chars config = VInt cap ->
  0 <= cap ->
  len text > cap ->
  let kept := take (Z.to_nat cap) text in
  let note := annotation cap (len text) in
  (len kept = cap /\
   contains (lit "Truncated") note /\
   contains (py_str (len text)) note /\
   len (kept ++ note) > cap) /\
  (forall branch upstream s info s' resolved,
      get_branch_diff w branch upstream config s = (Ret (Some info), s') ->
      BranchInfo.upstream info = Some resolved ->
      git_output w [lit "diff"; resolved ++ lit ".." ++ branch] = Some text ->
      BranchInfo.diff_content info = kept ++ note) /\
  (forall s info s',
      get_staged_changes w config s = (Ret (Some info), s') ->
      git_output w [lit "diff"; lit "--cached"] = Some text ->
      BranchInfo.diff_content info = kept ++ note).
Proof.
  intros Hcfg Hcap Hlong kept note. split; [| split].
  - repeat split.
    + now apply len_take_cap.
    + apply annotation_truncated.
    + apply annotation_size.
    + rewrite len_app. subst kept. rewrite len_take_cap by assumption.
      pose proof (len_annotation cap (len text)). subst note. lia.
  - intros branch upstream s info s' resolved Hrun Hup Hgit.
    apply get_branch_diff_inv in Hrun as (u & s1 & Hrun).
    apply collect_branch_inv in Hrun
      as (stat & diff & n & _ & Hdiff & Hn & _ & Hu & _ & Hcontent & _).
    assert (u = resolved) by congruence. subst u.
    assert (diff = text) by congruence. subst diff.
    assert (n = cap) by congruence. subst n.
    rewrite Hcontent. now apply truncate_diff_long.
  - intros s info s' Hrun Hgit.
    apply get_staged_changes_inv in Hrun
      as (stat & diff & n & _ & Hdiff & Hn & _ & _ & _ & _ & Hcontent & _).
    assert (diff = text) by congruence. subst diff.
    assert (n = cap) by congruence. subst n.
    rewrite Hcontent. now apply truncate_diff_long.
Qed.

(** The theorem in the small world, cap 3: both modes collect [abc] and the
    annotation. *)
Lemma truncation_spec_witness :
  exists branch_info staged_info s1 s2,
    get_branch_diff demo_world (lit "feature") (Some (lit "origin/main"))
      (demo_config 3) (init_state demo_world) = (Ret (Some branch_info), s1) /\
    get_staged_changes demo_world (demo_config 3) (init_state demo_world)
      = (Ret (Some staged_info), s2) /\
    BranchInfo.diff_content branch_info
      = lit "abc" ++ [nl; nl]
        ++ lit "... [Truncated: showing first 3 of 6 characters]" /\
    BranchInfo.diff_content staged_info
      = lit "abc" ++ [nl; nl]
        ++ lit "... [Truncated: showing first 3 of 6 characters]".
Proof.
  destruct (get_branch_diff demo_world (lit "feature") (Some (lit "origin/main"))
              (demo_config 3) (init_state demo_world)) as [r1 s1] eqn:E1.
  destruct (get_staged_changes demo_world (demo_config 3) (init_state demo_world))
    as [r2 s2] eqn:E2.
  destruct r1 as [[i1 |] | |]; try (vm_compute in E1; discriminate E1).
  destruct r2 as [[i2 |] | |]; try (vm_compute in E2; discriminate E2).
  exists i1, i2, s1, s2. split; [reflexivity |]. split; [reflexivity |].
  destruct (truncation_spec demo_world (demo_config 3) 3 (lit "abcdef")
              eq_refl ltac:(lia) eq_refl) as (_ & Hbranch & Hstaged).
  split.
  - apply (Hbranch _ _ _ _ _ (lit "origin/main") E1); [| reflexivity].
    pose proof E1 as E. vm_compute in E. injection E as <- _. reflexivity.
  - apply (Hstaged _ _ _ E2). reflexivity.
Defined.

(** C9. With a diff text no longer than the cap, the diff content
    collected, in branch mode and in staged mode alike, is the text itself,
    with nothing appended. *)
Theorem no_truncation_spec (w : world) (config : Config.t) (cap : Z) (text : str) :
  Config.max_diff_chars config = VInt cap ->
  len text <= cap ->
  (forall branch upstream s info s' resolved,
      get_branch_diff w branch upstream config s = (Ret (Some info), s') ->
      BranchInfo.upstream info = Some resolved ->
      git_output w [lit "diff"; resolved ++ lit ".." ++ branch] = Some text ->
      BranchInfo.diff_content info = text) /\
  (forall s info s',
      get_staged_changes w config s = (Ret (Some info), s') ->
      git_output w [lit "diff"; lit "--cached"] = Some text ->
      BranchInfo.diff_content info = text).
Proof.
  intros Hcfg Hshort. split.
  - intros branch upstream s info s' resolved Hrun Hup Hgit.
    apply get_branch_diff_inv in Hrun as (u & s1 & Hrun).
    apply collect_branch_inv in Hrun
      as (stat & diff & n & _ & Hdiff & Hn & _ & Hu & _ & Hcontent & _).
    assert (u = resolved) by congruence. subst u.
    assert (diff = text) by congruence. subst diff.
    assert (n = cap) by congruence. subst n.
    rewrite Hcontent. now apply truncate_diff_short.
  - intros s info s' Hrun Hgit.
    apply get_staged_changes_inv in Hrun
      as (stat & diff & n & _ & Hdiff & Hn & _ & _ & _ & _ & Hcontent & _).
    assert (diff = text) by congruence. subst diff.
    assert (n = cap) by congruence. subst n.
    rewrite Hcontent. now apply truncate_diff_short.
Qed.

(** The theorem in the small world, cap 6 (the length of the text) and the
    default cap. *)
Lemma no_truncation_spec_witness :
  exists branch_info staged_info s1 s2,
    get_branch_diff demo_world (lit "feature") (Some (lit "origin/main"))
      (demo_config 6) (init_state demo_world) = (Ret (Some branch_info), s1) /\
    get_staged_changes demo_world (demo_config 6) (init_state demo_world)
      = (Ret (Some staged_info), s2) /\
    BranchInfo.diff_content branch_info = lit "abcdef" /\
    BranchInfo.diff_content staged_info = lit "abcdef".
Proof.
  destruct (get_branch_diff demo_world (lit "feature") (Some (lit "origin/main"))
              (demo_config 6) (init_state demo_world)) as [r1 s1] eqn:E1.
  destruct (get_staged_changes demo_world (demo_config 6) (init_state demo_world))
    as [r2 s2] eqn:E2.
  destruct r1 as [[i1 |] | |]; try (vm_compute in E1; discriminate E1).
  destruct r2 as [[i2 |] | |]; try (vm_compute in E2; discriminate E2).
  exists i1, i2, s1, s2. split; [reflexivity |]. split; [reflexivity |].
  destruct (no_truncation_spec demo_world (demo_config 6) 6 (lit "abcdef")
              eq_refl ltac:(vm_compute; discriminate)) as (Hbranch & Hstaged).
  split.
  - apply (Hbranch _ _ _ _ _ (lit "origin/main") E1); [| reflexivity].
    pose proof E1 as E. vm_compute in E. injection E as <- _. reflexivity.
  - apply (Hstaged _ _ _ E2). reflexivity.
Defined.

(** ** File statistics *)



Example parse_stats_tests :
  parse_stats (lit "3 files changed, 42 insertions(+), 15 deletions(-)")
    = Some (3, 42, 15) /\
  parse_stats (lit "1 file changed, 5 insertions(+)") = Some (1, 5, 0) /\
  parse_stats (lit "2 files changed, 20 insertions(+)") = Some (2, 20, 0) /\
  parse_stats (lit "1 file changed, 1 deletion(-)") = Some (1, 0, 1) /\
  parse_stats (lit "no summary here") = Some (0, 0, 0).
Proof. repeat split; reflexivity. Qed.




(** ** Configuration *)

Lemma writes_at_bind {A B} d (m : M A) (f : A -> M B) :
  writes_at d m -> (forall a, writes_at d (f a)) -> writes_at d (bind m f).
Proof.
  intros Hm Hf s r s' l H Hl. unfold bind in H.
  destruct (m s) as [[a | c | e] s1] eqn:E.
  - rewrite (Hf a _ _ _ l H Hl). exact (Hm _ _ _ l E Hl).
  - injection H as <- <-. exact (Hm _ _ _ l E Hl).
  - injection H as <- <-. exact (Hm _ _ _ l E Hl).
Qed.

Lemma writes_at_ret {A} d (a : A) : writes_at d (ret a).
Proof. intros s r s' l [= <- <-] _. reflexivity. Qed.

Lemma writes_at_raise {A} d e : writes_at d (raise (A := A) e).
Proof. intros s r s' l [= <- <-] _. reflexivity. Qed.

Lemma writes_at_exit {A} d c : writes_at d (exit (A := A) c).
Proof. intros s r s' l [= <- <-] _. reflexivity. Qed.

Lemma writes_at_emit d e : writes_at d (emit e).
Proof. intros s r s' l [= <- <-] _. reflexivity. Qed.

Lemma writes_at_read_dict d l0 : writes_at d (read_dict l0).
Proof.
  intros s r s' l H _. unfold read_dict in H.
  destruct (heap s !! l0) as [[entries | items] |]; injection H as <- <-;
    reflexivity.
Qed.

Lemma writes_at_dict_set d k v : writes_at d (dict_set d k v).
Proof.
  apply writes_at_bind; [apply writes_at_read_dict |].
  intros entries s r s' l [= <- <-] Hl. simpl. now apply lookup_insert_ne.
Qed.

Lemma writes_at_dict_store_all d items : writes_at d (dict_store_all d items).
Proof.
  induction items as [| [k v] items IH]; simpl; [apply writes_at_ret |].
  apply writes_at_bind; [apply writes_at_dict_set | intros _; exact IH].
Qed.

Lemma writes_at_run_git w d args check : writes_at d (run_git w args check).
Proof.
  unfold run_git. destruct (git w args) as [result |].
  - destruct (check && negb (returncode result =? 0)); [destruct check |];
      apply writes_at_ret.
  - apply writes_at_bind; [apply writes_at_emit | intros _; apply writes_at_exit].
Qed.

Lemma writes_at_get_repo_root w d : writes_at d (get_repo_root w).
Proof.
  apply writes_at_bind; [apply writes_at_run_git |].
  intros [success output]. apply writes_at_ret.
Qed.

Lemma writes_at_new_Config d l0 : writes_at d (new_Config l0).
Proof.
  apply writes_at_bind; [apply writes_at_read_dict |]. intros entries.
  destruct (forallb _ _); [| apply writes_at_raise].
  repeat match goal with
         | |- context [match ?o with Some _ => _ | None => _ end] => destruct o
         end; apply writes_at_ret || apply writes_at_raise.
Qed.

Lemma writes_at_load_first w d config_paths :
  writes_at d (load_first w d config_paths).
Proof.
  induction config_paths as [| path rest IH]; simpl; [apply writes_at_ret |].
  destruct (settings w path) as [[| [| items | stored]] |]; try exact IH.
  - apply writes_at_bind; [apply writes_at_emit | intros _; exact IH].
  - apply writes_at_bind; [apply writes_at_dict_store_all |].
    intros _. apply writes_at_emit.
  - apply writes_at_bind; [apply writes_at_dict_store_all |]. intros _.
    apply writes_at_bind; [apply writes_at_emit | intros _; exact IH].
Qed.

(** What [load_config] does once the copy is made. *)
Lemma writes_at_load_rest w d :
  writes_at d
    (if negb (YAML_AVAILABLE w) then new_Config d
     else bind (get_repo_root w) (fun repo_root =>
            bind (load_first w d
                    ((if falsy_opt repo_root then [] else [default [] repo_root])
                     ++ [home w]))
                 (fun _ => new_Config d))).
Proof.
  destruct (negb (YAML_AVAILABLE w)); [apply writes_at_new_Config |].
  apply writes_at_bind; [apply writes_at_get_repo_root |]. intros repo_root.
  apply writes_at_bind; [apply writes_at_load_first |]. intros _.
  apply writes_at_new_Config.
Qed.

Lemma read_dict_inv l s r s0 :
  read_dict l s = (r, s0) ->
  s0 = s /\ (r = Raise TypeError \/
             exists entries, r = Ret entries /\ heap s !! l = Some (ODict entries)).
Proof.
  unfold read_dict.
  destruct (heap s !! l) as [[entries | items] |]; intros [= <- <-]; eauto.
Qed.

(** [load_config] leaves every object that exists before it as it is: all
    its stores go to the copy, a new object. *)
Lemma load_config_frame w s r s' l :
  load_config w s = (r, s') -> is_Some (heap s !! l) ->
  heap s' !! l = heap s !! l.
Proof.
  intros H Hl. unfold load_config in H. unfold bind at 1 in H.
  unfold dict_copy in H. unfold bind at 1 in H.
  destruct (read_dict DEFAULT_CONFIG s) as [r0 s0] eqn:Hread.
  apply read_dict_inv in Hread as (-> & [-> | (entries & -> & _)]).
  - now injection H as <- <-.
  - unfold alloc in H. set (l0 := fresh (dom (heap s))) in *.
    assert (Hne : l <> l0).
    { intros ->. apply elem_of_dom in Hl. exact (is_fresh _ Hl). }
    rewrite (writes_at_load_rest w l0 _ _ _ l H Hne). simpl.
    now apply lookup_insert_ne.
Qed.

Lemma loads_frame worlds s l :
  is_Some (heap s !! l) -> heap (loads worlds s) !! l = heap s !! l.
Proof.
  revert s. induction worlds as [| w worlds IH]; intros s Hl; [reflexivity |].
  unfold loads. simpl. fold (loads worlds (snd (load_config w s))).
  destruct (load_config w s) as [r s'] eqn:E. simpl.
  pose proof (load_config_frame w s r s' l E Hl) as Hs'.
  rewrite IH; [exact Hs' | now rewrite Hs'].
Qed.

Lemma load_first_absent w d config_paths s :
  (forall dir, settings w dir = None) ->
  load_first w d config_paths s = (Ret tt, s).
Proof.
  intros Hno. induction config_paths as [| path rest IH]; simpl; [reflexivity |].
  now rewrite Hno.
Qed.

Lemma new_Config_defaults d s :
  heap s !! d = Some (ODict default_entries) ->
  new_Config d s = (Ret default_config, s).
Proof.
  intros H. unfold new_Config, bind, read_dict. rewrite H.
  reflexivity.
Qed.

Lemma load_config_defaults w s :
  (forall dir, settings w dir = None) ->
  heap s !! DEFAULT_CONFIG = Some (ODict default_entries) ->
  YAML_AVAILABLE w = false \/
    is_Some (git w [lit "rev-parse"; lit "--show-toplevel"]) ->
  exists s', load_config w s = (Ret default_config, s') /\ out s' = out s.
Proof.
  intros Hno Hd Hgit. unfold load_config, dict_copy.
  unfold bind at 1. unfold bind at 1. unfold read_dict. rewrite Hd.
  unfold alloc. set (l0 := fresh (dom (heap s))).
  set (s1 := {| heap := _ |}).
  assert (H1 : heap s1 !! l0 = Some (ODict default_entries))
    by apply lookup_insert_eq.
  destruct (YAML_AVAILABLE w) eqn:Hy; simpl.
  - destruct Hgit as [[=] | [result Hres]].
    unfold bind at 1. unfold get_repo_root, bind at 1, run_git.
    rewrite Hres. simpl. unfold bind at 1.
    rewrite load_first_absent by assumption.
    exists s1. split; [now apply new_Config_defaults | reflexivity].
  - exists s1. split; [now apply new_Config_defaults | reflexivity].
Qed.

Lemma new_Config_module_state :
  new_Config DEFAULT_CONFIG module_state = (Ret default_config, module_state).
Proof. now apply new_Config_defaults. Qed.

Lemma default_commit_types_read :
  as_str_list (Config.commit_types default_config) module_state
  = (Ret ten_tags, module_state).
Proof. reflexivity. Qed.

(** C4, as the specification states it, fails: the commit types of the
    [Config] built from the default mapping are not the set of nine tags,
    for [build] is among them. *)
Lemma default_config_nine_tags_counterexample :
  ~ (exists config s types,
        new_Config DEFAULT_CONFIG module_state = (Ret config, s) /\
        Config.max_diff_chars config = VInt 50000 /\
        Config.max_retries config = VInt 3 /\
        as_str_list (Config.commit_types config) s = (Ret types, s) /\
        (forall tag, In tag types <-> In tag nine_tags)).
Proof.
  intros (config & s & types & Hnew & _ & _ & Htypes & Hset).
  rewrite new_Config_module_state in Hnew. injection Hnew as <- <-.
  rewrite default_commit_types_read in Htypes. injection Htypes as <-.
  assert (Hbuild : In (lit "build") nine_tags).
  { apply Hset. unfold ten_tags. apply in_or_app. right. now left. }
  simpl in Hbuild.
  repeat (destruct Hbuild as [Hbuild | Hbuild]; [discriminate Hbuild |]).
  exact Hbuild.
Qed.

(** C4, amended.  The [Config] built from the default mapping holds, field
    by field, the values of the mapping: the diff cap 50000, the model
    name, the temperature 0.7, 3 retries, and as commit types the list of
    the mapping itself, which reads as the ten tags feat, fix, docs, style,
    refactor, test, chore, perf, ci, build.  Building it changes nothing. *)
#[warnings="-inexact-float"]
Theorem default_config_roundtrip :
  exists config,
    new_Config DEFAULT_CONFIG module_state = (Ret config, module_state) /\
    Config.max_diff_chars config = VInt 50000 /\
    Config.model config = VStr (lit "claude-sonnet-4-5-20250929") /\
    Config.temperature config = VFloat 0.7%float /\
    Config.max_retries config = VInt 3 /\
    as_str_list (Config.commit_types config) module_state
      = (Ret (map lit ["feat"; "fix"; "docs"; "style"; "refactor"; "test";
                       "chore"; "perf"; "ci"; "build"]%string), module_state) /\
    default_entries !! "max_diff_chars"%string = Some (Config.max_diff_chars config) /\
    default_entries !! "model"%string = Some (Config.model config) /\
    default_entries !! "temperature"%string = Some (Config.temperature config) /\
    default_entries !! "max_retries"%string = Some (Config.max_retries config) /\
    default_entries !! "commit_types"%string = Some (Config.commit_types config).
Proof.
  exists default_config. split; [exact new_Config_module_state |].
  repeat split.
Qed.

(** C10.  [load_config] works on a copy of the default mapping: whatever
    the world (settings files or none, accepted or rejected, YAML available
    or not, git present or not) and whatever the outcome, every object that
    exists before the call is the same after it.  So after any sequence of
    loads the default mapping and its list of commit types hold their
    original values.  And when no settings file exists (and git can be run,
    or YAML is unavailable), the result is the [Config] of the defaults and
    nothing is printed. *)
Theorem load_config_keeps_defaults :
  (forall w s r s' l,
      load_config w s = (r, s') -> is_Some (heap s !! l) ->
      heap s' !! l = heap s !! l) /\
  (forall worlds,
      heap (loads worlds module_state) !! DEFAULT_CONFIG
        = Some (ODict default_entries) /\
      heap (loads worlds module_state) !! commit_types_loc
        = Some (OList default_commit_types)) /\
  (forall w s,
      (forall dir, settings w dir = None) ->
      heap s !! DEFAULT_CONFIG = Some (ODict default_entries) ->
      YAML_AVAILABLE w = false \/
        is_Some (git w [lit "rev-parse"; lit "--show-toplevel"]) ->
      exists s', load_config w s = (Ret default_config, s') /\ out s' = out s).
Proof.
  split; [exact load_config_frame |]. split.
  - intros worlds. split; rewrite loads_frame; try reflexivity; now eexists.
  - exact load_config_defaults.
Qed.

(** The theorem at work: a load with an override applied, then a load
    without any settings file.  The first gives the overridden cap, the
    second the defaults, and the default mapping is the same after both. *)
Lemma load_config_keeps_defaults_witness :
  exists s1 config s2,
    load_config override_world module_state = (Ret config, s1) /\
    Config.max_diff_chars config = VInt 10 /\
    heap s1 !! DEFAULT_CONFIG = Some (ODict default_entries) /\
    load_config demo_world s1 = (Ret default_config, s2) /\
    heap s2 !! DEFAULT_CONFIG = Some (ODict default_entries).
Proof.
  destruct load_config_keeps_defaults as (Hframe & _ & Hdefaults).
  destruct (load_config override_world module_state) as [r1 s1] eqn:E1.
  assert (H1 : heap s1 !! DEFAULT_CONFIG = Some (ODict default_entries)).
  { rewrite (Hframe _ _ _ _ DEFAULT_CONFIG E1); [reflexivity | now eexists]. }
  destruct (Hdefaults demo_world s1 (fun _ => eq_refl) H1
              (or_intror (ex_intro _ _ eq_refl))) as (s2 & E2 & _).
  destruct r1 as [config | |]; try (vm_compute in E1; discriminate E1).
  exists s1, config, s2. split; [reflexivity |]. split.
  { vm_compute in E1. injection E1 as <- _. reflexivity. }
  split; [exact H1 |]. split; [exact E2 |].
  rewrite (Hframe _ _ _ _ DEFAULT_CONFIG E2); [exact H1 | eexists; exact H1].
Defined.

(** ** The message generator *)

Lemma print_run m s :
  print m s = (Ret tt, {| heap := heap s; out := out s ++ [Print m];
                          api_calls := api_calls s; pending := pending s |}).
Proof. reflexivity. Qed.

(** C7.  When the credential is absent from the environment (or empty),
    [generate_commit_message] returns no message; it calls the service not
    at all, and what it prints is the message of the missing credential,
    not that of an API error. *)
Theorem missing_credential_spec (w : world) (branch_info : BranchInfo.t)
    (config : Config.t) (s : state) :
  falsy_opt (environ w "ANTHROPIC_API_KEY") = true ->
  exists s',
    generate_commit_message w branch_info config s = (Ret None, s') /\
    out s' = out s ++ [Print ApiKeyNotSet] /\
    calls (out s') = calls (out s) /\
    api_calls s' = api_calls s /\
    ~ In (Print ApiErrorMsg) [Print ApiKeyNotSet].
Proof.
  intros Hkey. unfold generate_commit_message.
  eexists. split; [| split; [| split; [| split]]].
  - destruct (environ w "ANTHROPIC_API_KEY") as [[| c key] |];
      [reflexivity | discriminate Hkey | reflexivity].
  - reflexivity.
  - simpl. unfold calls. rewrite flat_map_app, length_app. simpl. lia.
  - reflexivity.
  - simpl. intros [[=] | []].
Qed.

(** The theorem in the small world, where the credential is not set. *)
Lemma missing_credential_spec_witness :
  exists s',
    generate_commit_message demo_world
      (BranchInfo.mk (lit "feature") None 0 0 [] [] [] 0 0 0)
      default_config (init_state demo_world) = (Ret None, s') /\
    out s' = [Print ApiKeyNotSet] /\ api_calls s' = 0%nat.
Proof.
  destruct (missing_credential_spec demo_world
              (BranchInfo.mk (lit "feature") None 0 0 [] [] [] 0 0 0)
              default_config (init_state demo_world) eq_refl)
    as (s' & Hrun & Hout & _ & Hcalls & _).
  exists s'. split; [exact Hrun |]. split; [exact Hout | exact Hcalls].
Defined.

(** *** The retry loop *)










(** ** Main, in [--branch] mode *)

Lemma run_git_check_output w args s output :
  git_output w args = Some output ->
  run_git w args true s = (Ret (true, output), s).
Proof.
  unfold git_output, run_git. destruct (git w args) as [result |]; [| discriminate].
  destruct (returncode result =? 0); [| discriminate].
  now intros [= <-].
Qed.

Lemma run_git_check_failed w args s :
  git_output w args = None ->
  (exists error, run_git w args true s = (Ret (false, error), s)) \/
  (exists s', run_git w args true s = (Exit 1, s')).
Proof.
  unfold git_output, run_git. destruct (git w args) as [result |].
  - destruct (returncode result =? 0); [discriminate |]. intros _. left.
    simpl. now eexists.
  - intros _. right. now eexists.
Qed.

Lemma unless_run b m s :
  unless b (print m) s
  = (Ret tt, {| heap := heap s;
                out := out s ++ (if b then [] else [Print m]);
                api_calls := api_calls s; pending := pending s |}).
Proof.
  destruct b; simpl; [| reflexivity].
  unfold ret. rewrite app_nil_r. now destruct s.
Qed.

(** The guard as written: when the query fails, the branch is reported as
    not found and the exit code is 1. *)
Lemma main_branch_query_fails w args branch config s :
  git_output w (branch_query branch) = None ->
  exists s', main_branch w args branch config s = (Exit 1, s').
Proof.
  intros Hq. unfold main_branch. unfold bind at 1. rewrite unless_run.
  unfold bind at 1. fold (branch_query branch).
  destruct (run_git_check_failed w (branch_query branch)
              {| heap := heap s;
                 out := out s ++ (if Args.json args then []
                                  else [Print (AnalyzingBranch branch)]);
                 api_calls := api_calls s; pending := pending s |} Hq)
    as [[error ->] | [s' ->]]; simpl; now eexists.
Qed.

(** No commits ahead: the notice is printed and the exit code is 0. *)
Lemma main_branch_zero_ahead w args branch config s output behind :
  git_output w (branch_query branch) = Some output ->
  parse_tracking_info (track_part output) = Some (0, behind) ->
  exists s',
    main_branch w args branch config s = (Exit 0, s') /\
    out s' = out s
             ++ (if Args.json args then [] else [Print (AnalyzingBranch branch)])
             ++ [Print (NoUnpushedCommits branch)].
Proof.
  intros Hq Hparse. unfold main_branch. unfold bind at 1. rewrite unless_run.
  unfold bind at 1. fold (branch_query branch).
  rewrite (run_git_check_output _ _ _ _ Hq). cbn [negb].
  unfold bind at 1. fold (track_part output). rewrite Hparse. simpl.
  eexists. split; [reflexivity |]. simpl. now rewrite <- app_assoc.
Qed.

(** From the start of [main] to the block of [--branch] mode. *)
Lemma main_reaches_branch w args c b config s1 :
  Args.staged args = false ->
  Args.branch args = Some (c :: b) ->
  is_Some (git w [lit "rev-parse"; lit "--git-dir"]) ->
  load_config w (init_state w) = (Ret config, s1) ->
  main w args (init_state w) = main_branch w args (c :: b) config s1.
Proof.
  intros Hstaged Hbranch [result Hgit] Hload.
  unfold main. unfold bind at 1. unfold is_git_repo, bind at 1, run_git.
  rewrite Hgit. simpl. unfold bind at 1. rewrite Hload.
  now rewrite Hstaged, Hbranch.
Qed.

Lemma branch_mode_query_fails_exit_1 w args c b config s1 :
  Args.staged args = false ->
  Args.branch args = Some (c :: b) ->
  is_Some (git w [lit "rev-parse"; lit "--git-dir"]) ->
  load_config w (init_state w) = (Ret config, s1) ->
  git_output w (branch_query (c :: b)) = None ->
  exists s', main w args (init_state w) = (Exit 1, s').
Proof.
  intros Hstaged Hbranch Hgit Hload Hq.
  rewrite (main_reaches_branch w args c b config s1) by assumption.
  now apply main_branch_query_fails.
Qed.

Lemma branch_mode_zero_ahead_exit_0 w args c b config s1 output behind :
  Args.staged args = false ->
  Args.branch args = Some (c :: b) ->
  is_Some (git w [lit "rev-parse"; lit "--git-dir"]) ->
  load_config w (init_state w) = (Ret config, s1) ->
  git_output w (branch_query (c :: b)) = Some output ->
  parse_tracking_info (track_part output) = Some (0, behind) ->
  exists s',
    main w args (init_state w) = (Exit 0, s') /\
    out s' = out s1
             ++ (if Args.json args then [] else [Print (AnalyzingBranch (c :: b))])
             ++ [Print (NoUnpushedCommits (c :: b))].
Proof.
  intros Hstaged Hbranch Hgit Hload Hq Hparse.
  rewrite (main_reaches_branch w args c b config s1) by assumption.
  now apply (main_branch_zero_ahead w args (c :: b) config s1 output behind).
Qed.

(** C6.  What [--branch] mode does when git lists nothing for the branch
    named, which is what [git for-each-ref] does (with exit code 0) when no
    such branch exists: the query counts as a success, the empty line gives
    no upstream and 0 commits ahead, and the program prints that the branch
    has no unpushed commits and ends with exit code 0.  It does not report
    the branch as not found.  (The exit with code 1 is taken only when git
    itself fails, [branch_mode_query_fails_exit_1]; a branch with 0 commits
    ahead ends with exit code 0, [branch_mode_zero_ahead_exit_0].) *)
Theorem branch_mode_unmatched_exits_zero (w : world) (args : Args.t)
    (c : ascii) (b : str) (config : Config.t) (s1 : state) :
  Args.staged args = false ->
  Args.branch args = Some (c :: b) ->
  is_Some (git w [lit "rev-parse"; lit "--git-dir"]) ->
  load_config w (init_state w) = (Ret config, s1) ->
  git_output w (branch_query (c :: b)) = Some [] ->
  exists s',
    main w args (init_state w) = (Exit 0, s') /\
    out s' = out s1
             ++ (if Args.json args then [] else [Print (AnalyzingBranch (c :: b))])
             ++ [Print (NoUnpushedCommits (c :: b))].
Proof.
  intros Hstaged Hbranch Hgit Hload Hq.
  exact (branch_mode_zero_ahead_exit_0 w args c b config s1 [] 0
           Hstaged Hbranch Hgit Hload Hq eq_refl).
Qed.

(** The theorem in the small world, for a branch [nosuch] that does not
    exist: exit code 0, and the two lines printed.  Outside a repository,
    where git fails, the same command ends with exit code 1. *)
Lemma branch_mode_unmatched_exits_zero_witness :
  (exists s',
      main demo_world (Args.mk false (Some (lit "nosuch")) false false)
        (init_state demo_world) = (Exit 0, s') /\
      out s' = [Print (AnalyzingBranch (lit "nosuch"));
                Print (NoUnpushedCommits (lit "nosuch"))]) /\
  (exists s',
      main outside_world (Args.mk false (Some (lit "nosuch")) false false)
        (init_state outside_world) = (Exit 1, s') /\
      out s' = [Print (AnalyzingBranch (lit "nosuch"));
                Print (BranchNotFound (lit "nosuch"))]).
Proof.
  split.
  - destruct (load_config demo_world (init_state demo_world)) as [r s1] eqn:E.
    destruct r as [config | |]; try (vm_compute in E; discriminate E).
    destruct (branch_mode_unmatched_exits_zero demo_world
                (Args.mk false (Some (lit "nosuch")) false false)
                "n"%char (lit "osuch") config s1
                eq_refl eq_refl (ex_intro _ _ eq_refl) E eq_refl)
      as (s' & Hrun & Hout).
    exists s'. split; [exact Hrun |]. rewrite Hout.
    vm_compute in E. injection E as _ <-. reflexivity.
  - eexists. split; [vm_compute; reflexivity | reflexivity].
Defined.

(** ** The search for an upstream *)

(** The symbolic reference is asked for without [check], so [success] is
    [True] whatever git answers, and the upstream is what git printed, with
    [refs/remotes/] deleted.  The loop over the candidates is never
    entered. *)
Lemma get_branch_diff_no_upstream w branch upstream config s result :
  falsy_opt upstream = true ->
  git w [lit "symbolic-ref"; lit "refs/remotes/origin/HEAD"] = Some result ->
  get_branch_diff w branch upstream config s
  = match delete_all (lit "refs/remotes/") (strip (stdout result)) with
    | c :: u => collect_branch w branch (c :: u) config s
    | [] => (Ret None, {| heap := heap s;
                          out := out s ++ [Print (NoUpstreamWarning branch)];
                          api_calls := api_calls s; pending := pending s |})
    end.
Proof.
  intros Hup Hgit. unfold get_branch_diff.
  destruct upstream as [[| c u] |]; try discriminate Hup;
    unfold bind at 1, run_git; rewrite Hgit; simpl;
    unfold bind at 1; simpl;
    destruct (delete_all _ _); reflexivity.
Qed.

(** C8.  When no upstream is given and [git symbolic-ref] prints nothing,
    as it does when the remote has no default-branch reference, the branch
    is skipped with the warning: [get_branch_diff] returns no result,
    whether or not one of the candidates [origin/main], [origin/master],
    [main], [master] resolves. *)
Theorem upstream_fallback_skipped (w : world) (branch : str)
    (upstream : option str) (config : Config.t) (s : state) (result : proc) :
  falsy_opt upstream = true ->
  git w [lit "symbolic-ref"; lit "refs/remotes/origin/HEAD"] = Some result ->
  strip (stdout result) = [] ->
  exists s',
    get_branch_diff w branch upstream config s = (Ret None, s') /\
    out s' = out s ++ [Print (NoUpstreamWarning branch)].
Proof.
  intros Hup Hgit Hempty.
  rewrite (get_branch_diff_no_upstream w branch upstream config s result)
    by assumption.
  rewrite Hempty. simpl. now eexists.
Qed.

(** The theorem in the small world: the symbolic reference does not
    resolve (exit code 128), the candidate [origin/main] does, and the
    branch is skipped all the same. *)
Lemma upstream_fallback_skipped_witness :
  git_output demo_world [lit "symbolic-ref"; lit "refs/remotes/origin/HEAD"]
    = None /\
  git_output demo_world [lit "rev-parse"; lit "--verify"; lit "origin/main"]
    = Some (lit "1f2e3d4c") /\
  exists s',
    get_branch_diff demo_world (lit "feature") None (demo_config 50000)
      (init_state demo_world) = (Ret None, s') /\
    out s' = [Print (NoUpstreamWarning (lit "feature"))].
Proof.
  split; [reflexivity |]. split; [reflexivity |].
  exact (upstream_fallback_skipped demo_world (lit "feature") None
           (demo_config 50000) (init_state demo_world)
           {| returncode := 128; stdout := []; stderr := lit "fatal: bad revision" |}
           eq_refl eq_refl eq_refl).
Defined.

(** With an upstream given, or a symbolic reference that resolves, the
    diff is taken against it. *)
Example get_branch_diff_given :
  exists info s',
    get_branch_diff demo_world (lit "feature") (Some (lit "origin/main"))
      (demo_config 50000) (init_state demo_world) = (Ret (Some info), s') /\
    BranchInfo.upstream info = Some (lit "origin/main").
Proof. eexists _, _. split; [vm_compute; reflexivity | reflexivity]. Qed.

(** ** What a run adds to the trace *)

Lemma emits_weaken {A} (P Q : event -> Prop) (m : M A) :
  (forall e, P e -> Q e) -> emits P m -> emits Q m.
Proof.
  intros HPQ Hm s r s' Hrun. destruct (Hm s r s' Hrun) as (evs & -> & Hevs).
  exists evs. split; [reflexivity |]. eapply Forall_impl; eauto.
Qed.

Lemma emits_ret {A} P (a : A) : emits P (ret a).
Proof. intros s r s' [= <- <-]. exists []. now rewrite app_nil_r. Qed.

Lemma emits_exit {A} P c : emits P (exit (A := A) c).
Proof. intros s r s' [= <- <-]. exists []. now rewrite app_nil_r. Qed.

Lemma emits_raise {A} P e : emits P (raise (A := A) e).
Proof. intros s r s' [= <- <-]. exists []. now rewrite app_nil_r. Qed.

Lemma emits_emit (P : event -> Prop) e : P e -> emits P (emit e).
Proof. intros He s r s' [= <- <-]. exists [e]. split; [reflexivity | auto]. Qed.

Lemma emits_print (P : event -> Prop) m : P (Print m) -> emits P (print m).
Proof. apply emits_emit. Qed.

Lemma emits_bind {A B} P (m : M A) (f : A -> M B) :
  emits P m -> (forall a, emits P (f a)) -> emits P (bind m f).
Proof.
  intros Hm Hf s r s' Hrun. unfold bind in Hrun.
  destruct (m s) as [[a | c | e] s1] eqn:E;
    destruct (Hm _ _ _ E) as (evs1 & Hout1 & Hevs1).
  - destruct (Hf a _ _ _ Hrun) as (evs2 & Hout2 & Hevs2).
    exists (evs1 ++ evs2). rewrite Hout2, Hout1, app_assoc.
    split; [reflexivity | now apply Forall_app].
  - injection Hrun as <- <-. eauto.
  - injection Hrun as <- <-. eauto.
Qed.

Lemma emits_try_except {A} P (m : M A) h :
  emits P m -> (forall e k, h e = Some k -> emits P k) ->
  emits P (try_except m h).
Proof.
  intros Hm Hh s r s' Hrun. unfold try_except in Hrun.
  destruct (m s) as [[a | c | e] s1] eqn:E;
    destruct (Hm _ _ _ E) as (evs1 & Hout1 & Hevs1).
  - injection Hrun as <- <-. eauto.
  - injection Hrun as <- <-. eauto.
  - destruct (h e) as [k |] eqn:Ek.
    + destruct (Hh e k Ek _ _ _ Hrun) as (evs2 & Hout2 & Hevs2).
      exists (evs1 ++ evs2). rewrite Hout2, Hout1, app_assoc.
      split; [reflexivity | now apply Forall_app].
    + injection Hrun as <- <-. eauto.
Qed.

Lemma emits_try_finally {A} P (m : M A) cleanup :
  emits P m -> emits P cleanup -> emits P (try_finally m cleanup).
Proof.
  intros Hm Hc s r s' Hrun. unfold try_finally in Hrun.
  destruct (m s) as [r1 s1] eqn:E.
  destruct (Hm _ _ _ E) as (evs1 & Hout1 & Hevs1).
  destruct (cleanup s1) as [r2 s2] eqn:E2.
  destruct (Hc _ _ _ E2) as (evs2 & Hout2 & Hevs2).
  exists (evs1 ++ evs2).
  split; [| now apply Forall_app].
  destruct r2; injection Hrun as <- <-; now rewrite Hout2, Hout1, app_assoc.
Qed.

Lemma emits_silent {A} P (m : M A) :
  (forall s r s', m s = (r, s') -> out s' = out s) -> emits P m.
Proof.
  intros H s r s' Hrun. exists []. rewrite app_nil_r.
  split; [exact (H _ _ _ Hrun) | constructor].
Qed.

Lemma emits_or_value_error {A} P (o : option A) : emits P (or_value_error o).
Proof. destruct o; [apply emits_ret | apply emits_raise]. Qed.

Lemma emits_as_int P v : emits P (as_int v).
Proof. destruct v; first [apply emits_ret | apply emits_raise]. Qed.

Lemma emits_as_str_list P v : emits P (as_str_list v).
Proof.
  apply emits_silent. intros s r s'. unfold as_str_list.
  destruct (_ ≫= mapM as_str); now intros [= <- <-].
Qed.

Lemma emits_read_dict P l : emits P (read_dict l).
Proof.
  apply emits_silent. intros s r s'. unfold read_dict.
  destruct (heap s !! l) as [[? | ?] |]; now intros [= <- <-].
Qed.

Lemma emits_alloc P o : emits P (alloc o).
Proof. apply emits_silent. now intros s r s' [= <- <-]. Qed.

Lemma emits_store P l o : emits P (store l o).
Proof. apply emits_silent. now intros s r s' [= <- <-]. Qed.

Lemma emits_dict_store_all P d items : emits P (dict_store_all d items).
Proof.
  induction items as [| [k v] items IH]; simpl; [apply emits_ret |].
  apply emits_bind; [| intros _; exact IH].
  apply emits_bind; [apply emits_read_dict | intros; apply emits_store].
Qed.

Lemma emits_unless (P : event -> Prop) b m :
  P (Print m) -> emits P (unless b (print m)).
Proof. intros H. destruct b; [apply emits_ret | now apply emits_print]. Qed.

(** A tactic for the straight-line parts: binds, prints, tests.  The
    steps are chosen by the shape of the program. *)
Ltac emits_step :=
  lazymatch goal with
  | |- emits _ (ret _) => apply emits_ret
  | |- emits _ (exit _) => apply emits_exit
  | |- emits _ (raise _) => apply emits_raise
  | |- emits _ (or_value_error _) => apply emits_or_value_error
  | |- emits _ (as_int _) => apply emits_as_int
  | |- emits _ (as_str_list _) => apply emits_as_str_list
  | |- emits _ (read_dict _) => apply emits_read_dict
  | |- emits _ (alloc _) => apply emits_alloc
  | |- emits _ (store _ _) => apply emits_store
  | |- emits _ (dict_store_all _ _) => apply emits_dict_store_all
  | |- emits _ (unless _ (print _)) => apply emits_unless
  | |- emits _ (print _) => apply emits_print
  | |- emits _ (emit _) => apply emits_emit
  | |- emits _ (bind _ _) => apply emits_bind; [| intros ? ]
  | |- emits _ (try_finally _ _) => apply emits_try_finally
  | |- emits _ (if true then _ else _) => cbv iota
  | |- emits _ (if false then _ else _) => cbv iota
  | |- emits _ (if negb true then _ else _) => cbn [negb]
  | |- emits _ (if negb false then _ else _) => cbn [negb]
  | |- emits _ (match ?x with _ => _ end) => destruct x
  | |- emits _ (if ?b then _ else _) => destruct b
  | |- emits _ (let (_, _) := ?x in _) => destruct x
  | |- emits _ (let _ := _ in _) => cbv zeta
  end.

Ltac emits_auto tac := repeat first [ emits_step | tac ].

Section Ordinary.

Context (w : world) (P : event -> Prop).
Hypothesis HP : forall e, ordinary e -> P e.

Ltac ordinary_event := apply HP; exact I.
Ltac emits_ordinary := emits_auto ordinary_event.

Lemma emits_run_git args check : emits P (run_git w args check).
Proof. unfold run_git. emits_ordinary. Qed.

Lemma emits_is_git_repo : emits P (is_git_repo w).
Proof. unfold is_git_repo. emits_auto ltac:(apply emits_run_git). Qed.

Lemma emits_get_repo_root : emits P (get_repo_root w).
Proof. unfold get_repo_root. emits_auto ltac:(apply emits_run_git). Qed.

Lemma emits_collect_branches lines branches :
  emits P (collect_branches lines branches).
Proof.
  revert branches. induction lines as [| line rest IH]; intros branches; simpl.
  - apply emits_ret.
  - emits_auto ltac:(apply IH).
Qed.

Lemma emits_get_all_branches_with_status :
  emits P (get_all_branches_with_status w).
Proof.
  unfold get_all_branches_with_status.
  emits_auto ltac:(first [apply emits_run_git | apply emits_collect_branches]).
Qed.

Lemma emits_first_candidate upstream candidates :
  emits P (first_candidate w upstream candidates).
Proof.
  induction candidates as [| candidate rest IH]; simpl.
  - apply emits_ret.
  - emits_auto ltac:(first [apply emits_run_git | apply IH]).
Qed.

Lemma emits_collect_branch branch upstream config :
  emits P (collect_branch w branch upstream config).
Proof. unfold collect_branch. emits_auto ltac:(apply emits_run_git). Qed.

Lemma emits_get_branch_diff branch upstream config :
  emits P (get_branch_diff w branch upstream config).
Proof.
  unfold get_branch_diff.
  emits_auto ltac:(first [apply emits_run_git | apply emits_first_candidate
                         | apply emits_collect_branch | ordinary_event]).
Qed.

Lemma emits_get_staged_changes config : emits P (get_staged_changes w config).
Proof. unfold get_staged_changes. emits_auto ltac:(apply emits_run_git). Qed.

Lemma emits_new_Config d : emits P (new_Config d).
Proof. unfold new_Config. emits_ordinary. Qed.

Lemma emits_load_first d config_paths : emits P (load_first w d config_paths).
Proof.
  induction config_paths as [| path rest IH]; simpl.
  - apply emits_ret.
  - emits_auto ltac:(first [apply IH | ordinary_event]).
Qed.

Lemma emits_load_config : emits P (load_config w).
Proof.
  unfold load_config, dict_copy.
  emits_auto ltac:(first [apply emits_get_repo_root | apply emits_load_first
                         | apply emits_new_Config]).
Qed.

(** The menu, when [P] also holds of the prompts. *)
Hypothesis HPrompt : forall text, P (Prompt text).

Lemma emits_input prompt : emits P (input prompt).
Proof.
  intros s r s' Hrun. exists [Prompt prompt]. unfold input in Hrun.
  split; [| repeat constructor; apply HPrompt].
  destruct (pending s) as [| [l |] rest]; now injection Hrun as <- <-.
Qed.

Lemma emits_select_once branches : emits P (select_once branches).
Proof.
  unfold select_once. apply emits_try_except.
  - emits_auto ltac:(first [apply emits_input | ordinary_event]).
  - intros e k Hk. destruct e; try discriminate Hk; injection Hk as <-;
      emits_ordinary.
Qed.

Lemma emits_select_loop fuel branches : emits P (select_loop fuel branches).
Proof.
  induction fuel as [| fuel IH]; simpl.
  - apply emits_raise.
  - emits_auto ltac:(first [apply emits_select_once | apply IH]).
Qed.

Lemma emits_interactive_select_branch branches :
  emits P (interactive_select_branch branches).
Proof.
  unfold interactive_select_branch. destruct branches as [| row rest].
  - apply emits_ret.
  - apply emits_bind; [apply emits_print; ordinary_event |]. intros _.
    intros s r s' Hrun. exact (emits_select_loop _ _ _ _ _ Hrun).
Qed.

(** The generator, when [P] also holds of the calls to the service. *)
Lemma emits_attempts config max_retries todo :
  (forall model temperature, P (ApiCall model temperature)) ->
  emits P (attempts w config max_retries todo).
Proof.
  intros Hcall. induction todo as [| attempt rest IH]; simpl.
  - apply emits_ret.
  - apply emits_bind.
    + intros s r s' [= <- <-]. eexists. split; [reflexivity |].
      repeat constructor. apply Hcall.
    + intros message. emits_auto ltac:(first [apply IH | ordinary_event]).
Qed.

Lemma emits_generate_commit_message branch_info config :
  (forall model temperature, P (ApiCall model temperature)) ->
  emits P (generate_commit_message w branch_info config).
Proof.
  intros Hcall. unfold generate_commit_message.
  emits_auto ltac:(first [apply emits_attempts; exact Hcall | ordinary_event]).
Qed.

(** Without the credential the generator only prints. *)
Lemma emits_generate_no_key branch_info config :
  falsy_opt (environ w "ANTHROPIC_API_KEY") = true ->
  emits P (generate_commit_message w branch_info config).
Proof.
  intros Hkey. unfold generate_commit_message.
  destruct (environ w "ANTHROPIC_API_KEY") as [[| c key] |];
    try discriminate Hkey; emits_ordinary.
Qed.

End Ordinary.

(** [is_git_repo] asks git without [check]: it returns [True] whenever the
    git binary can be run, whatever git answers, and otherwise the program
    ends in [run_git]. *)
Lemma is_git_repo_inv w s r s' :
  is_git_repo w s = (r, s') ->
  (r = Ret true /\ s' = s /\ is_Some (git w [lit "rev-parse"; lit "--git-dir"]))
  \/ (r = Exit 1 /\ out s' = out s ++ [Print GitNotFound] /\
      git w [lit "rev-parse"; lit "--git-dir"] = None).
Proof.
  unfold is_git_repo, bind, run_git.
  destruct (git w [lit "rev-parse"; lit "--git-dir"]) as [result |]; simpl.
  - intros [= <- <-]. left. eauto.
  - intros [= <- <-]. right. auto.
Qed.

Section Whole.

Context (w : world) (P : event -> Prop).
Hypothesis HP : forall e, ordinary e -> P e.
Hypothesis HPrompt : forall text, P (Prompt text).
Hypothesis Hgen :
  forall branch_info config,
    emits P (generate_commit_message w branch_info config).
Hypothesis Hcreate : P TempCreate.
Hypothesis Hwrite : forall text, P (TempWrite text).
Hypothesis Hunlink : P TempUnlink.

Ltac ordinary_event := apply HP; exact I.

(** Creating the file for the commit message and writing the message to
    it, with the ways in which that fails. *)
Lemma emits_write_temp commit_message :
  emits P (write_temp w commit_message).
Proof.
  unfold write_temp.
  emits_auto ltac:(first [apply Hcreate | apply Hwrite]).
Qed.

Ltac program_step :=
  first [ apply Hgen | apply emits_write_temp | apply Hunlink
        | apply emits_run_git; exact HP
        | apply emits_get_staged_changes; exact HP
        | apply emits_get_branch_diff; exact HP
        | apply emits_get_all_branches_with_status; exact HP
        | apply emits_interactive_select_branch; assumption
        | apply emits_input; exact HPrompt
        | apply emits_load_config; exact HP
        | ordinary_event ].

Lemma emits_main_staged args config : emits P (main_staged w args config).
Proof.
  unfold main_staged.
  emits_auto program_step.
Qed.

Lemma emits_main_branch args branch config :
  emits P (main_branch w args branch config).
Proof.
  unfold main_branch, print_branch_info. emits_auto program_step.
Qed.

Lemma emits_scan_all config branches results :
  emits P (scan_all w config branches results).
Proof.
  revert results.
  induction branches as [| [[[branch_name upstream] ahead] behind] rest IH];
    intros results; simpl.
  - apply emits_ret.
  - emits_auto ltac:(first [apply IH | program_step]).
Qed.

Lemma emits_main_scan args config : emits P (main_scan w args config).
Proof.
  unfold main_scan, print_branch_info.
  emits_auto ltac:(first [apply emits_scan_all | program_step]).
Qed.

(** The test [if not is_git_repo()] never fails, so the notice of a missing
    repository is not among the events of [main]. *)
Lemma emits_main args : emits P (main w args).
Proof.
  intros s r s' Hrun. unfold main in Hrun. unfold bind at 1 in Hrun.
  destruct (is_git_repo w s) as [r0 s0] eqn:Erepo.
  apply is_git_repo_inv in Erepo as [(-> & -> & _) | (-> & Hout & _)].
  - cbn [negb] in Hrun. revert s r s' Hrun.
    change (emits P (bind (load_config w) (fun config =>
              if Args.staged args then main_staged w args config
              else match Args.branch args with
                   | Some (c :: b) => main_branch w args (c :: b) config
                   | _ => main_scan w args config
                   end))).
    emits_auto ltac:(first [apply emits_main_staged | apply emits_main_branch
                           | apply emits_main_scan | program_step]).
  - injection Hrun as <- <-. exists [Print GitNotFound].
    split; [exact Hout | repeat constructor; ordinary_event].
Qed.

End Whole.

(** ** Properties of whole runs *)

Lemma ordinary_not_repository e : ordinary e -> e <> Print NotARepository.
Proof. intros H ->. exact H. Qed.

Lemma ordinary_not_api_call e : ordinary e -> ~ is_api_call e.
Proof. destruct e; simpl; tauto. Qed.

Lemma calls_no_api_call evs :
  Forall (fun e => ~ is_api_call e) evs -> calls evs = 0%nat.
Proof.
  unfold calls. induction 1 as [| e evs He _ IH]; [reflexivity |].
  simpl. rewrite length_app, IH. destruct e; simpl in *; tauto || reflexivity.
Qed.

(** X1.  The repository check cannot fail.  [is_git_repo] never returns
    [False]: [run_git] is called without [check], so it reports success
    whatever git answers.  Hence no run of [main], in any mode and in any
    directory, prints the notice that the directory is not a repository;
    the only way the check ends the program is a missing git binary. *)
Theorem repository_check_never_fails (w : world) :
  (forall s b s', is_git_repo w s = (Ret b, s') -> b = true /\ s' = s) /\
  (forall args s r s',
      main w args s = (r, s') ->
      exists evs, out s' = out s ++ evs /\ ~ In (Print NotARepository) evs).
Proof.
  split.
  - intros s b s' H.
    apply is_git_repo_inv in H as [([= <-] & -> & _) | ([=] & _)]. auto.
  - intros args s r s' Hrun.
    destruct (emits_main w (fun e => e <> Print NotARepository)
                ordinary_not_repository (fun _ => ltac:(discriminate))
                (fun info config =>
                   emits_generate_commit_message w _ ordinary_not_repository
                     info config (fun _ _ => ltac:(discriminate)))
                ltac:(discriminate) (fun _ => ltac:(discriminate))
                ltac:(discriminate)
                args s r s' Hrun) as (evs & Hout & Hevs).
    exists evs. split; [exact Hout |].
    intros Hin. rewrite List.Forall_forall in Hevs. exact (Hevs _ Hin eq_refl).
Qed.

(** The theorem outside any repository, where [git rev-parse --git-dir]
    ends with exit code 128: the check succeeds and the program goes on to
    look for the branch. *)
Lemma repository_check_never_fails_witness :
  is_git_repo outside_world (init_state outside_world)
    = (Ret true, init_state outside_world) /\
  exists r s' evs,
    main outside_world (Args.mk false (Some (lit "nosuch")) false false)
      (init_state outside_world) = (r, s') /\
    out s' = evs /\ ~ In (Print NotARepository) evs.
Proof.
  destruct (repository_check_never_fails outside_world) as [Hrepo Hmain].
  split.
  - destruct (is_git_repo outside_world (init_state outside_world))
      as [r s1] eqn:E.
    destruct r as [b | |]; try (vm_compute in E; discriminate E).
    destruct (Hrepo _ _ _ E) as [-> ->]. reflexivity.
  - destruct (main outside_world (Args.mk false (Some (lit "nosuch")) false false)
                (init_state outside_world)) as [r s'] eqn:E.
    destruct (Hmain _ _ _ _ E) as (evs & Hout & Hevs).
    exists r, s', evs. split; [reflexivity |]. split; [exact Hout | exact Hevs].
Defined.

(** X2.  Without the credential no run of [main] calls the service: in
    every mode, for every repository and every number of branches, the
    trace of the run has no call. *)
Theorem no_credential_no_call (w : world) (args : Args.t) (s : state)
    (r : res unit) (s' : state) :
  falsy_opt (environ w "ANTHROPIC_API_KEY") = true ->
  main w args s = (r, s') ->
  exists evs,
    out s' = out s ++ evs /\
    Forall (fun e => ~ is_api_call e) evs /\
    calls evs = 0%nat.
Proof.
  intros Hkey Hrun.
  destruct (emits_main w (fun e => ~ is_api_call e) ordinary_not_api_call
              (fun _ H => H)
              (fun info config =>
                 emits_generate_no_key w _ ordinary_not_api_call info config Hkey)
              (fun H => H) (fun _ H => H) (fun H => H) args s r s' Hrun)
    as (evs & Hout & Hevs).
  exists evs. split; [exact Hout |]. split; [exact Hevs |].
  now apply calls_no_api_call.
Qed.

(** The theorem in the small world, where the credential is not set, on the
    staged changes: the run ends with exit code 1 and without a call. *)
Lemma no_credential_no_call_witness :
  exists s',
    main demo_world (Args.mk true None false false) (init_state demo_world)
      = (Exit 1, s') /\
    calls (out s') = 0%nat.
Proof.
  destruct (main demo_world (Args.mk true None false false)
              (init_state demo_world)) as [r s'] eqn:E.
  destruct (no_credential_no_call demo_world _ _ _ _ eq_refl E)
    as (evs & Hout & _ & Hcalls).
  exists s'. split.
  - vm_compute in E. injection E as <- _. reflexivity.
  - rewrite Hout. exact Hcalls.
Defined.

(** ** The branch listing *)

Lemma split_on_nonempty sep s : split_on sep s <> [].
Proof.
  destruct s as [| c s]; simpl; [discriminate |].
  destruct (Ascii.eqb c sep); [discriminate |].
  destruct (split_on sep s); discriminate.
Qed.

(** *** Runs of digits in the parts of a text *)

Lemma span_digits_prefix s rest :
  len (fst (span_digits s)) <= len (fst (span_digits (s ++ rest))).
Proof.
  induction s as [| c s IH]; cbn [app span_digits].
  - unfold len at 1. cbn [fst length]. apply Nat2Z.is_nonneg.
  - destruct (is_digit c); [| cbn [fst]; lia].
    destruct (span_digits s) as [ds r], (span_digits (s ++ rest)) as [ds' r'].
    cbn [fst] in *. rewrite !len_cons. lia.
Qed.

Lemma split_on_head sep s p ps :
  split_on sep s = p :: ps -> exists rest, s = p ++ rest.
Proof.
  revert p ps. induction s as [| c s IH]; intros p ps; cbn [split_on].
  - intros [= <- <-]. now exists [].
  - destruct (Ascii.eqb c sep).
    + intros [= <- <-]. now exists (c :: s).
    + destruct (split_on sep s) as [| p' ps'] eqn:E.
      * intros [= <- <-]. exfalso. exact (split_on_nonempty _ _ E).
      * intros [= <- <-]. destruct (IH _ _ eq_refl) as [rest ->].
        now exists rest.
Qed.

(** No part of a text has a longer run of digits than the text. *)
Lemma longest_run_split sep s :
  Forall (fun p => longest_run p <= longest_run s) (split_on sep s).
Proof.
  induction s as [| c s IH]; cbn [split_on].
  - constructor; [reflexivity | constructor].
  - pose proof (longest_run_tail c s) as Htail.
    assert (IH' : Forall (fun p => longest_run p <= longest_run (c :: s))
                    (split_on sep s)).
    { eapply List.Forall_impl; [| exact IH]. cbn beta. intros p Hp. lia. }
    destruct (Ascii.eqb c sep).
    + constructor; [| exact IH'].
      cbn [longest_run]. pose proof (longest_run_nonneg s). lia.
    + destruct (split_on sep s) as [| p ps] eqn:E.
      * exfalso. exact (split_on_nonempty _ _ E).
      * destruct (split_on_head _ _ _ _ E) as [rest Hrest].
        apply List.Forall_cons_iff in IH as [Hp _].
        apply List.Forall_cons_iff in IH' as [_ Hps].
        constructor; [| exact Hps].
        pose proof (span_digits_prefix (c :: p) rest) as Hspan.
        cbn [app] in Hspan. rewrite <- Hrest in Hspan.
        cbn [longest_run]. cbn [longest_run] in Htail. lia.
Qed.

Lemma longest_run_part sep s p :
  In p (split_on sep s) -> longest_run p <= longest_run s.
Proof.
  intros Hin. pose proof (longest_run_split sep s) as H.
  rewrite List.Forall_forall in H. exact (H _ Hin).
Qed.

(** *** The loop over the lines *)

Lemma collect_branches_cons line rest branches s :
  collect_branches (line :: rest) branches s
  = match row_of_line line with
    | Some row =>
        collect_branches rest
          (branches ++ match row with Some r => [r] | None => [] end) s
    | None => (Raise ValueError, s)
    end.
Proof.
  cbn [collect_branches]. unfold row_of_line.
  destruct (falsy line); [now rewrite app_nil_r |].
  pose proof (split_on_nonempty "|"%char line) as Hne.
  destruct (split_on "|"%char line) as [| branch_name parts]; [congruence |].
  cbn [nth].
  replace (match branch_name :: parts with
           | _ :: _ :: p2 :: _ => p2
           | _ => []
           end) with (match parts with _ :: p2 :: _ => p2 | _ => [] end)
    by (destruct parts as [| ? [| ? ?]]; reflexivity).
  replace (match branch_name :: parts with
           | _ :: p1 :: _ => if falsy p1 then None else Some p1
           | _ => None
           end) with (match parts with
                      | p1 :: _ => if falsy p1 then None else Some p1
                      | [] => None
                      end)
    by (destruct parts; reflexivity).
  destruct (parse_tracking_info _) as [[ahead behind] |]; [| reflexivity].
  unfold bind. simpl or_value_error. unfold ret at 1. cbn iota beta.
  destruct (_ >? 0); [reflexivity | now rewrite app_nil_r].
Qed.

(** The loop appends, in the order of the lines, what each line gives, and
    ends in [ValueError] when [int] refuses a number of some line. *)
Lemma collect_branches_run lines branches s :
  collect_branches lines branches s
  = (match rows_of_lines lines with
     | Some rows => Ret (branches ++ rows)
     | None => Raise ValueError
     end, s).
Proof.
  revert branches s.
  induction lines as [| line rest IH]; intros branches s.
  - simpl. unfold ret. now rewrite app_nil_r.
  - rewrite collect_branches_cons. cbn [rows_of_lines].
    destruct (row_of_line line) as [row |]; [| reflexivity].
    rewrite IH. destruct (rows_of_lines rest) as [rows |]; [| reflexivity].
    destruct row; [now rewrite <- app_assoc | now rewrite app_nil_r].
Qed.

Lemma row_of_line_ahead line row :
  row_of_line line = Some (Some row) -> 0 < row_ahead row.
Proof.
  unfold row_of_line. destruct (falsy line); [discriminate |].
  destruct (split_on "|"%char line) as [| branch_name rest]; [discriminate |].
  destruct (parse_tracking_info _) as [[ahead behind] |]; [| discriminate].
  destruct (Z.gtb_spec ahead 0); [| discriminate].
  intros [= <-]. unfold row_ahead. simpl. lia.
Qed.

Lemma rows_of_lines_ahead lines rows :
  rows_of_lines lines = Some rows ->
  Forall (fun row => 0 < row_ahead row) rows.
Proof.
  revert rows. induction lines as [| line rest IH]; intros rows;
    cbn [rows_of_lines].
  - intros [= <-]. constructor.
  - destruct (row_of_line line) as [row |] eqn:E; [| discriminate].
    destruct (rows_of_lines rest) as [rows' |]; [| discriminate].
    intros [= <-]. specialize (IH _ eq_refl).
    destruct row as [r |]; [| exact IH].
    constructor; [exact (row_of_line_ahead _ _ E) | exact IH].
Qed.

(** A line without a run of more than 4300 digits is converted. *)
Lemma row_of_line_short line :
  longest_run line <= int_max_str_digits -> is_Some (row_of_line line).
Proof.
  intros Hlen. unfold row_of_line. destruct (falsy line); [eauto |].
  destruct (split_on "|"%char line) as [| branch_name rest] eqn:E; [eauto |].
  assert (Htrack : longest_run (match rest with _ :: p2 :: _ => p2 | _ => [] end)
                   <= int_max_str_digits).
  { destruct rest as [| p1 [| p2 rest]]; try (cbn; unfold int_max_str_digits; lia).
    pose proof (longest_run_part "|"%char line p2) as Hp.
    rewrite E in Hp. specialize (Hp ltac:(right; right; now left)). lia. }
  rewrite parse_tracking_info_eq by exact Htrack. eauto.
Qed.

Lemma rows_of_lines_short lines :
  Forall (fun line => longest_run line <= int_max_str_digits) lines ->
  is_Some (rows_of_lines lines).
Proof.
  induction 1 as [| line rest Hline _ IH]; cbn [rows_of_lines]; [eauto |].
  destruct (row_of_line_short line Hline) as [row ->].
  destruct IH as [rows ->]. eauto.
Qed.

(** X3.  When git can be run, [get_all_branches_with_status] leaves the
    state as it is and either returns a list or ends in the [ValueError] of
    [int].  The list holds, in the order of the lines git printed, the
    branch of every line that is not empty and has commits ahead, so every
    branch in it is ahead by at least one commit; it is empty when git
    fails or prints nothing.  The [ValueError] needs a number of more than
    4300 digits in what git printed: when no run of digits of the output is
    longer than that, a list is returned. *)
Theorem listed_branches_are_ahead (w : world) (s : state) :
  is_Some (git w listing_query) ->
  get_all_branches_with_status w s
  = (match listing w with
     | Some branches => Ret branches
     | None => Raise ValueError
     end, s) /\
  (forall branches,
      listing w = Some branches ->
      Forall (fun row => 0 < row_ahead row) branches) /\
  (git_output w listing_query = None -> listing w = Some []) /\
  (forall output,
      git_output w listing_query = Some output ->
      longest_run output <= int_max_str_digits ->
      is_Some (listing w)).
Proof.
  intros [result Hgit]. split; [| split; [| split]].
  - unfold get_all_branches_with_status, listing.
    fold listing_query. unfold bind, run_git, git_output. rewrite Hgit.
    destruct (returncode result =? 0); simpl; [| reflexivity].
    destruct (strip (stdout result)) as [| c output] eqn:Eout; simpl;
      [reflexivity |].
    rewrite collect_branches_run. reflexivity.
  - unfold listing. intros branches.
    destruct (git_output w listing_query) as [[| c output] |].
    + intros [= <-]. constructor.
    + apply rows_of_lines_ahead.
    + intros [= <-]. constructor.
  - unfold listing. now intros ->.
  - unfold listing. intros output -> Hlen.
    destruct output as [| c output]; [eauto |].
    apply rows_of_lines_short. rewrite List.Forall_forall.
    intros line Hin. pose proof (longest_run_part _ _ _ Hin). lia.
Qed.

(** The theorem on a listing of four branches: the two that are ahead are
    returned, in the order of the listing. *)
Lemma listed_branches_are_ahead_witness :
  get_all_branches_with_status listing_world (init_state listing_world)
  = (Ret [(lit "feature", Some (lit "origin/main"), 2, 0);
          (lit "old", Some (lit "origin/old"), 1, 3)],
     init_state listing_world).
Proof.
  destruct (listed_branches_are_ahead listing_world (init_state listing_world)
              (ex_intro _ _ eq_refl)) as (Hrun & _).
  rewrite Hrun. reflexivity.
Defined.

(** ** The results of the collectors *)

(** X4.  [get_staged_changes].  When git lists no staged file, the result
    is [None] and nothing is printed.  A result that is returned carries no
    upstream, 0 commits ahead and behind and an empty commit log; its name
    is what [git branch --show-current] printed, empty for a detached
    head, and [HEAD] only when that command failed; some file is staged;
    and the state is left as it was. *)
Theorem staged_changes_spec (w : world) (config : Config.t) (s : state) :
  (forall r s',
      get_staged_changes w config s = (r, s') ->
      git_output w [lit "diff"; lit "--cached"; lit "--name-only"] = Some [] ->
      r = Ret None /\ s' = s) /\
  (forall info s',
      get_staged_changes w config s = (Ret (Some info), s') ->
      s' = s /\
      BranchInfo.upstream info = None /\
      BranchInfo.ahead info = 0 /\
      BranchInfo.behind info = 0 /\
      BranchInfo.commit_log info = [] /\
      BranchInfo.name info
        = default (lit "HEAD") (git_output w [lit "branch"; lit "--show-current"]) /\
      exists c status,
        git_output w [lit "diff"; lit "--cached"; lit "--name-only"]
          = Some (c :: status)).
Proof.
  split.
  - intros r s' Hrun Hnone. unfold get_staged_changes in Hrun.
    unfold bind at 1 in Hrun.
    rewrite (run_git_check_output _ _ _ _ Hnone) in Hrun.
    simpl in Hrun. now injection Hrun as <- <-.
  - intros info s' H. unfold get_staged_changes in H.
    apply bind_Ret_inv in H as ([ok0 status] & s0 & H0 & H).
    apply run_git_check_inv in H0 as (-> & Hs0 & _).
    destruct ok0; [| apply ret_inv in H as [[=] _]].
    destruct status as [| c status]; [apply ret_inv in H as [[=] _] |].
    simpl in H.
    apply bind_Ret_inv in H as ([ok1 diff_stat] & s1 & H1 & H).
    apply run_git_check_inv in H1 as (-> & _ & _).
    destruct ok1; [| apply ret_inv in H as [[=] _]]. simpl in H.
    apply bind_Ret_inv in H as ([ok2 diff_content] & s2 & H2 & H).
    apply run_git_check_inv in H2 as (-> & _ & _).
    destruct ok2; [| apply ret_inv in H as [[=] _]]. simpl in H.
    apply bind_Ret_inv in H as (cap & s3 & H3 & H).
    apply as_int_inv in H3 as (_ & ->).
    apply bind_Ret_inv in H as ([ok4 current] & s4 & H4 & H).
    apply run_git_check_inv in H4 as (-> & Hyes & Hno).
    apply bind_Ret_inv in H as ([[f i] d] & s5 & H5 & H).
    apply or_value_error_inv in H5 as (_ & ->).
    apply ret_inv in H as [[= <-] <-]. simpl.
    repeat split; try reflexivity.
    + destruct ok4; [now rewrite Hyes | now rewrite Hno].
    + exists c, status. now apply Hs0.
Qed.

(** The theorem in the small world: changes are staged, and git reports no
    current branch. *)
Lemma staged_changes_spec_witness :
  exists info,
    get_staged_changes demo_world (demo_config 50000) (init_state demo_world)
      = (Ret (Some info), init_state demo_world) /\
    BranchInfo.upstream info = None /\
    BranchInfo.name info = lit "HEAD".
Proof.
  destruct (get_staged_changes demo_world (demo_config 50000)
              (init_state demo_world)) as [r s'] eqn:E.
  destruct r as [[info |] | |]; try (vm_compute in E; discriminate E).
  destruct (staged_changes_spec demo_world (demo_config 50000)
              (init_state demo_world)) as [_ Hsome].
  destruct (Hsome info s' E) as (-> & Hup & _ & _ & _ & Hname & _).
  exists info. split; [reflexivity |]. split; [exact Hup |].
  rewrite Hname. reflexivity.
Defined.

(** X5.  [get_branch_diff].  A result that is returned has the name of the
    branch asked for and an upstream that is not empty, the one given when
    one is given; its commit log is what [git log --oneline] printed, empty
    when that command failed; its counts ahead and behind are those parsed
    from the tracking text of the branch, 0 and 0 when that query failed;
    and nothing was printed. *)
Theorem branch_diff_fields (w : world) (branch : str) (upstream : option str)
    (config : Config.t) (s : state) (info : BranchInfo.t) (s' : state) :
  get_branch_diff w branch upstream config s = (Ret (Some info), s') ->
  s' = s /\
  BranchInfo.name info = branch /\
  exists c u,
    BranchInfo.upstream info = Some (c :: u) /\
    (falsy_opt upstream = false -> upstream = Some (c :: u)) /\
    BranchInfo.commit_log info
      = default [] (git_output w [lit "log"; lit "--oneline";
                                  (c :: u) ++ lit ".." ++ branch]) /\
    parse_tracking_info
      (default [] (git_output w [lit "for-each-ref";
                                 lit "--format=%(upstream:track)";
                                 lit "refs/heads/" ++ branch]))
      = Some (BranchInfo.ahead info, BranchInfo.behind info).
Proof.
  intros H.
  assert (Hcollect :
    forall resolved s0,
      collect_branch w branch resolved config s0 = (Ret (Some info), s') ->
      s' = s0 /\ BranchInfo.name info = branch /\
      BranchInfo.upstream info = Some resolved /\
      BranchInfo.commit_log info
        = default [] (git_output w [lit "log"; lit "--oneline";
                                    resolved ++ lit ".." ++ branch]) /\
      parse_tracking_info
        (default [] (git_output w [lit "for-each-ref";
                                   lit "--format=%(upstream:track)";
                                   lit "refs/heads/" ++ branch]))
        = Some (BranchInfo.ahead info, BranchInfo.behind info)).
  { clear H. intros resolved s0 H. unfold collect_branch in H.
    apply bind_Ret_inv in H as ([ok1 diff_stat] & s1 & H1 & H).
    apply run_git_check_inv in H1 as (-> & _ & _).
    destruct ok1; [| apply ret_inv in H as [[=] _]]. simpl in H.
    apply bind_Ret_inv in H as ([ok2 diff_content] & s2 & H2 & H).
    apply run_git_check_inv in H2 as (-> & _ & _).
    destruct ok2; [| apply ret_inv in H as [[=] _]]. simpl in H.
    apply bind_Ret_inv in H as (cap & s3 & H3 & H).
    apply as_int_inv in H3 as (_ & ->).
    apply bind_Ret_inv in H as ([ok4 commit_log] & s4 & H4 & H).
    apply run_git_check_inv in H4 as (-> & Hlog & Hnolog).
    apply bind_Ret_inv in H as ([[f i] d] & s5 & H5 & H).
    apply or_value_error_inv in H5 as (_ & ->).
    apply bind_Ret_inv in H as ([ok6 track] & s6 & H6 & H).
    apply run_git_check_inv in H6 as (-> & Htrack & Hnotrack).
    apply bind_Ret_inv in H as ([a b] & s7 & H7 & H).
    apply or_value_error_inv in H7 as (Hparse & ->).
    apply ret_inv in H as [[= <-] <-]. simpl.
    repeat split; try reflexivity.
    - destruct ok4; [now rewrite Hlog | now rewrite Hnolog].
    - destruct ok6; [now rewrite Htrack | now rewrite Hnotrack]. }
  unfold get_branch_diff in H.
  assert (Hsearch :
    bind (run_git w [lit "symbolic-ref"; lit "refs/remotes/origin/HEAD"] false)
      (fun x => let '(success, default_branch) := x in
         bind (if success
               then ret (Some (delete_all (lit "refs/remotes/") default_branch))
               else first_candidate w upstream
                      [lit "origin/main"; lit "origin/master"; lit "main";
                       lit "master"])
           (fun upstream0 =>
              match upstream0 with
              | Some (c :: u) => collect_branch w branch (c :: u) config
              | _ => bind (print (NoUpstreamWarning branch)) (fun _ => ret None)
              end)) s = (Ret (Some info), s') ->
    falsy_opt upstream = true ->
    s' = s /\ BranchInfo.name info = branch /\
    exists c u,
      BranchInfo.upstream info = Some (c :: u) /\
      (falsy_opt upstream = false -> upstream = Some (c :: u)) /\
      BranchInfo.commit_log info
        = default [] (git_output w [lit "log"; lit "--oneline";
                                    (c :: u) ++ lit ".." ++ branch]) /\
      parse_tracking_info
        (default [] (git_output w [lit "for-each-ref";
                                   lit "--format=%(upstream:track)";
                                   lit "refs/heads/" ++ branch]))
        = Some (BranchInfo.ahead info, BranchInfo.behind info)).
  { clear H. intros H Hfalsy.
    apply bind_Ret_inv in H as ([ok d] & s1 & H1 & H).
    apply run_git_nocheck_inv in H1 as (-> & -> & _).
    apply bind_Ret_inv in H as (up & s2 & H2 & H).
    apply ret_inv in H2 as [<- <-].
    destruct (delete_all (lit "refs/remotes/") d) as [| c u].
    - apply bind_Ret_inv in H as (? & ? & _ & H). apply ret_inv in H as [[=] _].
    - destruct (Hcollect _ _ H) as (-> & Hname & Hup & Hlog & Htrack).
      split; [reflexivity |]. split; [exact Hname |].
      exists c, u. rewrite Hfalsy. repeat split; auto. discriminate. }
  destruct upstream as [[| c u] |]; [now apply Hsearch | | now apply Hsearch].
  destruct (Hcollect _ _ H) as (-> & Hname & Hup & Hlog & Htrack).
  split; [reflexivity |]. split; [exact Hname |].
  exists c, u. repeat split; auto.
Qed.

(** The theorem in the small world, for the branch [feature] against
    [origin/main]. *)
Lemma branch_diff_fields_witness :
  exists info,
    get_branch_diff demo_world (lit "feature") (Some (lit "origin/main"))
      (demo_config 50000) (init_state demo_world)
      = (Ret (Some info), init_state demo_world) /\
    BranchInfo.name info = lit "feature" /\
    BranchInfo.upstream info = Some (lit "origin/main") /\
    BranchInfo.commit_log info = [].
Proof.
  destruct (get_branch_diff demo_world (lit "feature") (Some (lit "origin/main"))
              (demo_config 50000) (init_state demo_world)) as [r s'] eqn:E.
  destruct r as [[info |] | |]; try (vm_compute in E; discriminate E).
  destruct (branch_diff_fields _ _ _ _ _ _ _ E)
    as (-> & Hname & c & u & Hup & Hgiven & Hlog & _).
  exists info. split; [reflexivity |]. split; [exact Hname |].
  rewrite Hup in *. specialize (Hgiven eq_refl).
  injection Hgiven as <- <-.
  split; [reflexivity |]. rewrite Hlog. reflexivity.
Defined.

(** ** Answers of the service *)

(** The loop goes past the answers without content at once, and returns the
    text of the first answer that has one. *)
Lemma attempts_answer w config max_retries empties text blocks :
  forall todo s,
    (empties < length todo)%nat ->
    (forall i, (i < empties)%nat -> api w (api_calls s + i) = Content []) ->
    api w (api_calls s + empties) = Content (Some text :: blocks) ->
    exists s',
      attempts w config max_retries todo s = (Ret (Some (strip text)), s') /\
      out s' = out s ++ repeat (call_of config) (S empties) /\
      api_calls s' = (api_calls s + S empties)%nat /\
      heap s' = heap s /\ pending s' = pending s.
Proof.
  induction empties as [| empties IH]; intros todo s Hlen Hempty Htext;
    (destruct todo as [| attempt rest]; [simpl in Hlen; lia |]);
    cbn [attempts]; unfold bind at 1; unfold messages_create.
  - rewrite Nat.add_0_r in Htext. rewrite Htext.
    eexists. split; [reflexivity |]. simpl. repeat split; try reflexivity. lia.
  - pose proof (Hempty 0%nat ltac:(lia)) as H0. rewrite Nat.add_0_r in H0.
    rewrite H0. set (s1 := {| heap := _ |}).
    destruct (IH rest s1) as (s' & Hrun & Hout & Hcalls & Hheap & Hpend).
    + simpl in Hlen. lia.
    + intros i Hi. subst s1. simpl. rewrite <- Nat.add_succ_r.
      apply Hempty. lia.
    + subst s1. simpl. rewrite <- Nat.add_succ_r. exact Htext.
    + exists s'. split; [exact Hrun |].
      rewrite Hout, Hcalls, Hheap, Hpend. subst s1. simpl.
      rewrite <- app_assoc. repeat split; try reflexivity. lia.
Qed.

(** When no answer has content, the loop uses up its attempts and returns
    nothing, without printing. *)
Lemma attempts_empty w config max_retries :
  forall todo s,
    (forall i, (i < length todo)%nat -> api w (api_calls s + i) = Content []) ->
    exists s',
      attempts w config max_retries todo s = (Ret None, s') /\
      out s' = out s ++ repeat (call_of config) (length todo) /\
      api_calls s' = (api_calls s + length todo)%nat.
Proof.
  induction todo as [| attempt rest IH]; intros s Hempty.
  - exists s. simpl. rewrite app_nil_r. repeat split; try reflexivity. lia.
  - cbn [attempts]. unfold bind at 1. unfold messages_create.
    pose proof (Hempty 0%nat ltac:(simpl; lia)) as H0.
    rewrite Nat.add_0_r in H0. rewrite H0. set (s1 := {| heap := _ |}).
    destruct (IH s1) as (s' & Hrun & Hout & Hcalls).
    + intros i Hi. subst s1. simpl. rewrite <- Nat.add_succ_r.
      apply Hempty. simpl. lia.
    + exists s'. split; [exact Hrun |]. rewrite Hout, Hcalls. subst s1. simpl.
      rewrite <- app_assoc. split; [reflexivity | lia].
Qed.

Lemma generate_is_attempts w branch_info config max_retries tags s :
  falsy_opt (environ w "ANTHROPIC_API_KEY") = false ->
  Config.max_retries config = VInt max_retries ->
  as_str_list (Config.commit_types config) s = (Ret tags, s) ->
  generate_commit_message w branch_info config s
  = attempts w config max_retries (seq 0 (Z.to_nat max_retries)) s.
Proof.
  intros Hkey Hmax Htags. unfold generate_commit_message.
  destruct (environ w "ANTHROPIC_API_KEY") as [[| c key] |];
    try discriminate Hkey.
  unfold bind at 1. rewrite Htags. unfold bind at 1. now rewrite Hmax.
Qed.

(** X6.  With the credential set, the generator returns the text of the
    first content block of the first answer that has content, with the
    white space around it removed.  The answers without content before it
    are passed over at once: each costs one call, none is followed by a
    sleep or a message. *)
Theorem first_answer_is_returned (w : world) (branch_info : BranchInfo.t)
    (config : Config.t) (max_retries : Z) (tags : list str) (s : state)
    (empties : nat) (text : str) (blocks : list (option str)) :
  falsy_opt (environ w "ANTHROPIC_API_KEY") = false ->
  Config.max_retries config = VInt max_retries ->
  as_str_list (Config.commit_types config) s = (Ret tags, s) ->
  Z.of_nat empties < max_retries ->
  (forall i, (i < empties)%nat -> api w (api_calls s + i) = Content []) ->
  api w (api_calls s + empties) = Content (Some text :: blocks) ->
  exists s',
    generate_commit_message w branch_info config s
      = (Ret (Some (strip text)), s') /\
    out s' = out s ++ repeat (call_of config) (S empties) /\
    api_calls s' = (api_calls s + S empties)%nat.
Proof.
  intros Hkey Hmax Htags Hlt Hempty Htext.
  rewrite (generate_is_attempts _ _ _ _ _ _ Hkey Hmax Htags).
  destruct (attempts_answer w config max_retries empties text blocks
              (seq 0 (Z.to_nat max_retries)) s)
    as (s' & Hrun & Hout & Hcalls & _); try assumption.
  - rewrite length_seq. lia.
  - exists s'. auto.
Qed.

(** The theorem in a small world: the first answer is empty, the second is
    a message between two line ends. *)
Lemma first_answer_is_returned_witness :
  exists s',
    generate_commit_message answering_world demo_info (demo_config 50000)
      (init_state answering_world)
      = (Ret (Some (lit "fix(cli): handle empty input")), s') /\
    out s' = [call_of (demo_config 50000); call_of (demo_config 50000)].
Proof.
  destruct (first_answer_is_returned answering_world demo_info
              (demo_config 50000) 3 [lit "feat"; lit "fix"]
              (init_state answering_world) 1
              ([nl] ++ lit "fix(cli): handle empty input" ++ [nl]) [])
    as (s' & Hrun & Hout & _).
  - reflexivity.
  - reflexivity.
  - reflexivity.
  - lia.
  - intros [| i] Hi; [reflexivity | lia].
  - reflexivity.
  - exists s'. split; [exact Hrun | exact Hout].
Defined.

(** X7.  With the credential set, when none of the answers has content the
    generator makes [max_retries] calls, one after the other, and returns
    no message without printing anything.  With [max_retries] zero or
    negative it makes no call at all. *)
Theorem empty_answers_give_up_silently (w : world) (branch_info : BranchInfo.t)
    (config : Config.t) (max_retries : Z) (tags : list str) (s : state) :
  falsy_opt (environ w "ANTHROPIC_API_KEY") = false ->
  Config.max_retries config = VInt max_retries ->
  as_str_list (Config.commit_types config) s = (Ret tags, s) ->
  (forall i, (i < Z.to_nat max_retries)%nat ->
             api w (api_calls s + i) = Content []) ->
  exists s',
    generate_commit_message w branch_info config s = (Ret None, s') /\
    out s' = out s ++ repeat (call_of config) (Z.to_nat max_retries) /\
    api_calls s' = (api_calls s + Z.to_nat max_retries)%nat /\
    (max_retries <= 0 -> out s' = out s /\ api_calls s' = api_calls s).
Proof.
  intros Hkey Hmax Htags Hempty.
  rewrite (generate_is_attempts _ _ _ _ _ _ Hkey Hmax Htags).
  destruct (attempts_empty w config max_retries
              (seq 0 (Z.to_nat max_retries)) s) as (s' & Hrun & Hout & Hcalls).
  - now rewrite length_seq.
  - rewrite length_seq in Hout, Hcalls.
    exists s'. split; [exact Hrun |]. split; [exact Hout |].
    split; [exact Hcalls |]. intros Hle.
    rewrite Hout, Hcalls. replace (Z.to_nat max_retries) with 0%nat by lia.
    simpl. rewrite app_nil_r. split; [reflexivity | lia].
Qed.

(** The theorem in a small world whose service never has content, with
    three attempts. *)
Lemma empty_answers_give_up_silently_witness :
  exists s',
    generate_commit_message silent_world demo_info (demo_config 50000)
      (init_state silent_world) = (Ret None, s') /\
    out s' = repeat (call_of (demo_config 50000)) 3.
Proof.
  destruct (empty_answers_give_up_silently silent_world demo_info
              (demo_config 50000) 3 [lit "feat"; lit "fix"]
              (init_state silent_world) eq_refl eq_refl eq_refl
              (fun _ _ => eq_refl)) as (s' & Hrun & Hout & _).
  exists s'. split; [exact Hrun | exact Hout].
Defined.

(** ** The menu *)

(** One round of the menu on a line of input. *)
Lemma select_once_line branches line rest s :
  pending s = Line line :: rest ->
  select_once branches s
  = match py_int (strip line) with
    | None =>
        (Ret None, reads s [Prompt select_prompt; Print EnterNumber] rest)
    | Some n =>
        if n =? 0 then (Ret (Some None), reads s [Prompt select_prompt] rest)
        else if (1 <=? n) && (n <=? Z.of_nat (length branches)) then
          (Ret (Some (Some (row_name
                   (nth (Z.to_nat (n - 1)) branches ([], None, 0, 0))))),
           reads s [Prompt select_prompt] rest)
        else
          (Ret None, reads s [Prompt select_prompt; Print InvalidSelection] rest)
    end.
Proof.
  intros Hp. unfold select_once, try_except, bind at 1, input. rewrite Hp.
  cbn [List.tail]. unfold bind at 1.
  destruct (py_int (strip line)) as [n |]; simpl.
  - destruct (n =? 0); [reflexivity |].
    destruct ((1 <=? n) && (n <=? Z.of_nat (length branches))).
    + destruct (nth (Z.to_nat (n - 1)) branches ([], None, 0, 0))
        as [[[branch up] a] b]. reflexivity.
    + unfold bind, print, emit, ret, reads. simpl.
      now rewrite <- app_assoc.
  - unfold bind, print, emit, ret, reads. simpl. now rewrite <- app_assoc.
Qed.

Lemma select_once_interrupt branches rest s :
  pending s = Interrupt :: rest ->
  select_once branches s
  = (Ret (Some None), reads s [Prompt select_prompt; Print Cancelled] rest).
Proof.
  intros Hp. unfold select_once, try_except, bind at 1, input. rewrite Hp.
  unfold bind, print, emit, ret, reads. simpl. now rewrite <- app_assoc.
Qed.

Lemma select_once_eof branches s :
  pending s = [] ->
  select_once branches s = (Raise EOFError, reads s [Prompt select_prompt] []).
Proof.
  intros Hp. unfold select_once, try_except, bind at 1, input. rewrite Hp.
  reflexivity.
Qed.

Lemma select_once_nothing branches line rest s :
  pending s = Line line :: rest -> selects_nothing branches line ->
  select_once branches s
  = (Ret None, reads s [Prompt select_prompt; Print (complaint line)] rest).
Proof.
  intros Hp Hbad. rewrite (select_once_line _ _ _ _ Hp).
  unfold selects_nothing, complaint in *.
  destruct (py_int (strip line)) as [n |]; [| reflexivity].
  destruct (Z.eqb_spec n 0); [lia |].
  destruct (Z.leb_spec 1 n), (Z.leb_spec n (Z.of_nat (length branches)));
    simpl; try reflexivity; lia.
Qed.

Lemma reads_nil s : reads s [] (pending s) = s.
Proof. destruct s. unfold reads. simpl. now rewrite app_nil_r. Qed.

Lemma reads_reads s evs1 tail1 evs2 tail2 :
  reads (reads s evs1 tail1) evs2 tail2 = reads s (evs1 ++ evs2) tail2.
Proof. unfold reads. simpl. now rewrite app_assoc. Qed.

(** The loop passes over the lines that select nothing, with a complaint
    for each. *)
Lemma select_loop_skip branches bad :
  forall fuel s rest,
    pending s = map Line bad ++ rest ->
    Forall (selects_nothing branches) bad ->
    select_loop (length bad + fuel) branches s
    = select_loop fuel branches (reads s (asks_again bad) rest).
Proof.
  induction bad as [| line bad IH]; intros fuel s rest Hp Hbad.
  - simpl in *. subst rest. now rewrite reads_nil.
  - inversion Hbad as [| ? ? Hline Hrest]; subst.
    cbn [length Nat.add select_loop]. unfold bind at 1.
    rewrite (select_once_nothing _ _ _ _ Hp Hline).
    rewrite (IH fuel _ rest); [| reflexivity | exact Hrest].
    now rewrite reads_reads.
Qed.

Lemma interactive_select_branch_run branches bad rest s :
  branches <> [] ->
  pending s = map Line bad ++ rest ->
  Forall (selects_nothing branches) bad ->
  interactive_select_branch branches s
  = select_loop (S (length rest)) branches
      (reads s (Print (Menu branches) :: asks_again bad) rest).
Proof.
  intros Hne Hp Hbad. unfold interactive_select_branch.
  destruct branches as [| row branches]; [congruence |].
  unfold bind at 1. rewrite print_run. set (s1 := {| heap := _ |}).
  assert (Hp1 : pending s1 = map Line bad ++ rest) by exact Hp.
  change (pending s1) with (pending s). rewrite Hp.
  rewrite length_app, length_map, <- Nat.add_succ_r.
  rewrite (select_loop_skip _ _ _ _ _ Hp1 Hbad).
  subst s1. unfold reads. simpl. now rewrite <- app_assoc.
Qed.

(** X8.  The menu selects by number.  After any lines that are no number
    or a number without a branch, each answered with a complaint and a new
    prompt, a line holding the number [n] of a branch (white space around
    it is ignored) makes the menu return the name of the [n]-th branch of
    the list; the input after that line is left unread. *)
Theorem menu_selects_by_number (branches : list branch_row) (s : state)
    (bad : list str) (good : str) (n : Z) (rest : list input_event) :
  pending s = map Line bad ++ Line good :: rest ->
  Forall (selects_nothing branches) bad ->
  py_int (strip good) = Some n ->
  1 <= n <= Z.of_nat (length branches) ->
  exists row,
    nth_error branches (Z.to_nat (n - 1)) = Some row /\
    interactive_select_branch branches s
    = (Ret (Some (row_name row)),
       reads s (Print (Menu branches) :: asks_again bad
                ++ [Prompt select_prompt]) rest).
Proof.
  intros Hp Hbad Hgood Hn.
  assert (Hlt : (Z.to_nat (n - 1) < length branches)%nat) by lia.
  destruct (nth_error branches (Z.to_nat (n - 1))) as [row |] eqn:Hrow;
    [| apply nth_error_None in Hrow; lia].
  exists row. split; [reflexivity |].
  rewrite (interactive_select_branch_run branches bad (Line good :: rest) s);
    [| intros ->; simpl in Hn; lia | exact Hp | exact Hbad].
  cbn [select_loop]. unfold bind at 1.
  rewrite (select_once_line branches good rest) by reflexivity.
  rewrite Hgood.
  destruct (Z.eqb_spec n 0); [lia |].
  destruct (Z.leb_spec 1 n); [| lia].
  destruct (Z.leb_spec n (Z.of_nat (length branches))); [| lia].
  simpl. unfold ret. rewrite reads_reads.
  rewrite (nth_error_nth _ _ _ Hrow).
  now rewrite <- app_comm_cons.
Qed.

(** The theorem on the two branches that are ahead, with the input [x], a
    numeral of 4301 digits, [7] and then [2] between blanks: three
    complaints, and the second branch is selected. *)
Lemma menu_selects_by_number_witness :
  exists s',
    interactive_select_branch listed
      (reads (init_state listing_world) []
         [Line (lit "x"); Line long_number; Line (lit "7"); Line (lit " 2 ")])
      = (Ret (Some (lit "old")), s') /\
    pending s' = [] /\
    out s' = [Print (Menu listed);
              Prompt select_prompt; Print EnterNumber;
              Prompt select_prompt; Print EnterNumber;
              Prompt select_prompt; Print InvalidSelection;
              Prompt select_prompt].
Proof.
  destruct (menu_selects_by_number listed
              (reads (init_state listing_world) []
                 [Line (lit "x"); Line long_number; Line (lit "7");
                  Line (lit " 2 ")])
              [lit "x"; long_number; lit "7"] (lit " 2 ") 2 [])
    as (row & Hrow & Hrun).
  - reflexivity.
  - constructor; [exact I |].
    constructor; [vm_compute; exact I |].
    constructor; [vm_compute; right; reflexivity | constructor].
  - reflexivity.
  - simpl. lia.
  - injection Hrow as <-. eexists. split; [exact Hrun |].
    split; [reflexivity | vm_compute; reflexivity].
Defined.

(** X9.  The menu ends without a selection in three ways.  After any lines
    that select nothing: the number 0 makes it return no branch; an
    interrupt at the prompt makes it print that the selection is cancelled
    and return no branch; and the end of the input raises [EOFError], which
    nothing catches.  An empty list of branches returns no branch at once,
    without a menu or a prompt. *)
Theorem menu_ends_without_selection (branches : list branch_row) (s : state)
    (bad : list str) :
  Forall (selects_nothing branches) bad ->
  branches <> [] ->
  (forall zero rest,
      pending s = map Line bad ++ Line zero :: rest ->
      py_int (strip zero) = Some 0 ->
      interactive_select_branch branches s
      = (Ret None,
         reads s (Print (Menu branches) :: asks_again bad
                  ++ [Prompt select_prompt]) rest)) /\
  (forall rest,
      pending s = map Line bad ++ Interrupt :: rest ->
      interactive_select_branch branches s
      = (Ret None,
         reads s (Print (Menu branches) :: asks_again bad
                  ++ [Prompt select_prompt; Print Cancelled]) rest)) /\
  (pending s = map Line bad ->
   interactive_select_branch branches s
   = (Raise EOFError,
      reads s (Print (Menu branches) :: asks_again bad
               ++ [Prompt select_prompt]) [])) /\
  interactive_select_branch [] s = (Ret None, s).
Proof.
  intros Hbad Hne. repeat split.
  - intros zero rest Hp Hzero.
    rewrite (interactive_select_branch_run branches bad (Line zero :: rest) s)
      by assumption.
    cbn [select_loop]. unfold bind at 1.
    rewrite (select_once_line branches zero rest) by reflexivity.
    rewrite Hzero. simpl. unfold ret. rewrite reads_reads.
    now rewrite <- app_comm_cons.
  - intros rest Hp.
    rewrite (interactive_select_branch_run branches bad (Interrupt :: rest) s)
      by assumption.
    cbn [select_loop]. unfold bind at 1.
    rewrite (select_once_interrupt branches rest) by reflexivity.
    unfold ret. rewrite reads_reads. now rewrite <- app_comm_cons.
  - intros Hp.
    rewrite (interactive_select_branch_run branches bad [] s);
      [| assumption | now rewrite app_nil_r | assumption].
    cbn [select_loop length]. unfold bind at 1.
    rewrite (select_once_eof branches) by reflexivity.
    rewrite reads_reads. now rewrite <- app_comm_cons.
Qed.

(** The theorem on the two branches that are ahead: after the line [x],
    an interrupt cancels, and the end of the input raises. *)
Lemma menu_ends_without_selection_witness :
  (exists s',
      interactive_select_branch listed
        (reads (init_state listing_world) [] [Line (lit "x"); Interrupt])
        = (Ret None, s') /\
      out s' = [Print (Menu listed); Prompt select_prompt; Print EnterNumber;
                Prompt select_prompt; Print Cancelled]) /\
  (exists s',
      interactive_select_branch listed
        (reads (init_state listing_world) [] [Line (lit "x")])
        = (Raise EOFError, s')).
Proof.
  split.
  - destruct (menu_ends_without_selection listed
                (reads (init_state listing_world) [] [Line (lit "x"); Interrupt])
                [lit "x"]) as (_ & Hint & _).
    + constructor; [exact I | constructor].
    + discriminate.
    + eexists. split; [exact (Hint [] eq_refl) | reflexivity].
  - destruct (menu_ends_without_selection listed
                (reads (init_state listing_world) [] [Line (lit "x")])
                [lit "x"]) as (_ & _ & Heof & _).
    + constructor; [exact I | constructor].
    + discriminate.
    + eexists. exact (Heof eq_refl).
Defined.

(** What the loop returns is the name of a branch of the list. *)
Lemma select_loop_listed branches fuel :
  forall s b s',
    select_loop fuel branches s = (Ret (Some b), s') ->
    exists row, In row branches /\ row_name row = b.
Proof.
  induction fuel as [| fuel IH]; intros s b s' H; [discriminate H |].
  cbn [select_loop] in H.
  apply bind_Ret_inv in H as (r & s1 & Honce & H).
  destruct r as [result |]; [| exact (IH _ _ _ H)].
  apply ret_inv in H as [-> ->].
  unfold select_once, try_except in Honce.
  match type of Honce with
  | context [bind ?m ?f s] => destruct (bind m f s) as [[a | c | e] s2] eqn:E
  end.
  - injection Honce as -> ->.
    apply bind_Ret_inv in E as (choice & s3 & _ & E).
    apply bind_Ret_inv in E as (n & s4 & _ & E).
    destruct (n =? 0); [apply ret_inv in E as [[=] _] |].
    destruct ((1 <=? n) && (n <=? Z.of_nat (length branches))) eqn:Hrange.
    + apply andb_prop in Hrange as [H1 H2].
      apply Z.leb_le in H1. apply Z.leb_le in H2.
      destruct (nth (Z.to_nat (n - 1)) branches ([], None, 0, 0))
        as [[[branch up] a0] b0] eqn:Hnth.
      apply ret_inv in E as [[= ->] _].
      exists (b, up, a0, b0). split; [| reflexivity].
      rewrite <- Hnth. apply nth_In. lia.
    + apply bind_Ret_inv in E as (? & ? & _ & E).
      apply ret_inv in E as [[=] _].
  - discriminate Honce.
  - destruct e; discriminate Honce.
Qed.

(** X10.  Whatever is typed, a branch that the menu returns is the name of
    one of the branches it was given. *)
Theorem menu_returns_listed_branch (branches : list branch_row) (s : state)
    (b : str) (s' : state) :
  interactive_select_branch branches s = (Ret (Some b), s') ->
  exists row, In row branches /\ row_name row = b.
Proof.
  unfold interactive_select_branch. intros H.
  destruct branches as [| row branches]; [apply ret_inv in H as [[=] _] |].
  apply bind_Ret_inv in H as (? & s1 & _ & H).
  exact (select_loop_listed _ _ _ _ _ H).
Qed.

Lemma menu_returns_listed_branch_witness :
  exists b s' row,
    interactive_select_branch listed (init_state listing_world)
      = (Ret (Some b), s') /\
    In row listed /\ row_name row = b.
Proof.
  destruct (interactive_select_branch listed (init_state listing_world))
    as [r s'] eqn:E.
  destruct r as [[b |] | |]; try (vm_compute in E; discriminate E).
  destruct (menu_returns_listed_branch _ _ _ _ E) as (row & Hin & Hname).
  exists b, s', row. split; [reflexivity |]. split; [exact Hin | exact Hname].
Defined.

(** ** Settings files *)

Lemma store_pairs_lookup k items :
  forall entries,
    store_pairs items entries !! k
    = match last_value k items with
      | Some v => Some v
      | None => entries !! k
      end.
Proof.
  induction items as [| [k' v] items IH]; intros entries; [reflexivity |].
  unfold store_pairs in *. cbn [fold_left last_value fst snd].
  rewrite IH. destruct (last_value k items); [reflexivity |].
  destruct (String.eqb_spec k' k) as [-> | Hne].
  - apply lookup_insert_eq.
  - now apply lookup_insert_ne.
Qed.

Lemma last_value_In k items v :
  last_value k items = Some v -> In (k, v) items.
Proof.
  induction items as [| [k' v'] items IH]; [discriminate |].
  cbn [last_value]. destruct (last_value k items).
  - intros [= ->]. right. now apply IH.
  - destruct (String.eqb_spec k' k) as [-> | _]; [| discriminate].
    intros [= ->]. now left.
Qed.

Lemma In_last_value k v items :
  In (k, v) items -> is_Some (last_value k items).
Proof.
  induction items as [| [k' v'] items IH]; [intros [] |].
  intros [[= -> ->] | Hin]; cbn [last_value].
  - destruct (last_value k items); [eauto |].
    rewrite String.eqb_refl. eauto.
  - destruct (IH Hin) as [v0 ->]. eauto.
Qed.

Lemma default_entries_fields k :
  is_Some (default_entries !! k) -> In k Config_fields.
Proof.
  intros [v H]. unfold default_entries in H. cbn [list_to_map foldr] in H.
  repeat (apply lookup_insert_Some in H as [[<- _] | [_ H]];
          [simpl; tauto |]).
  now rewrite lookup_empty in H.
Qed.

(** The stores of [update] on a dict. *)
Lemma dict_store_all_run d items :
  forall entries s,
    heap s !! d = Some (ODict entries) ->
    exists s',
      dict_store_all d items s = (Ret tt, s') /\
      heap s' = <[d := ODict (store_pairs items entries)]> (heap s) /\
      out s' = out s /\ api_calls s' = api_calls s /\ pending s' = pending s.
Proof.
  induction items as [| [k v] items IH]; intros entries s Hd.
  - exists s. repeat split. simpl. symmetry. now apply insert_id.
  - cbn [dict_store_all]. unfold bind at 1. unfold dict_set, bind at 1.
    unfold read_dict. rewrite Hd. unfold store.
    set (s1 := {| heap := _ |}).
    destruct (IH (<[k := v]> entries) s1) as (s' & Hrun & Hheap & Hout & Hc & Hp).
    { apply lookup_insert_eq. }
    exists s'. split; [exact Hrun |]. rewrite Hheap, Hout, Hc, Hp.
    subst s1. simpl. rewrite insert_insert_eq. repeat split.
Qed.

Lemma fields_check (entries : gmap string val) :
  (forall k, is_Some (entries !! k) -> In k Config_fields) ->
  forallb (fun k => existsb (String.eqb k) Config_fields)
    (map fst (map_to_list entries)) = true.
Proof.
  intros Hkeys. apply forallb_forall. intros k Hin.
  apply in_map_iff in Hin as ([k' v] & <- & Hin).
  apply list_elem_of_In, elem_of_map_to_list in Hin. cbn [fst].
  apply existsb_exists. exists k'. split; [| apply String.eqb_refl].
  apply Hkeys. eauto.
Qed.

Lemma fields_check_unknown (entries : gmap string val) (k : string) :
  is_Some (entries !! k) -> ~ In k Config_fields ->
  forallb (fun k => existsb (String.eqb k) Config_fields)
    (map fst (map_to_list entries)) = false.
Proof.
  intros [v Hk] Hun.
  destruct (forallb _ _) eqn:E; [| reflexivity]. exfalso.
  rewrite forallb_forall in E.
  assert (Hin : In k (map fst (map_to_list entries))).
  { apply in_map_iff. exists (k, v). split; [reflexivity |].
    now apply list_elem_of_In, elem_of_map_to_list. }
  apply E, existsb_exists in Hin as (k' & Hin & Heq).
  apply String.eqb_eq in Heq as ->. exact (Hun Hin).
Qed.

(** The [Config] built from a dict that holds the defaults with pairs
    stored over them. *)
Lemma new_Config_overlaid d items s :
  heap s !! d = Some (ODict (store_pairs items default_entries)) ->
  known_keys items ->
  new_Config d s = (Ret (overlaid items), s).
Proof.
  intros Hd Hknown. unfold new_Config, bind, read_dict. rewrite Hd.
  rewrite fields_check.
  - rewrite !store_pairs_lookup. unfold overlaid.
    destruct (last_value "max_diff_chars" items),
             (last_value "model" items),
             (last_value "temperature" items),
             (last_value "max_retries" items),
             (last_value "commit_types" items); reflexivity.
  - intros k Hk. rewrite store_pairs_lookup in Hk.
    destruct (last_value k items) as [v |] eqn:Hlast.
    + apply last_value_In in Hlast. unfold known_keys in Hknown.
      rewrite List.Forall_forall in Hknown. exact (Hknown _ Hlast).
    + now apply default_entries_fields.
Qed.

Lemma new_Config_unknown d items s k v :
  heap s !! d = Some (ODict (store_pairs items default_entries)) ->
  In (k, v) items -> ~ In k Config_fields ->
  new_Config d s = (Raise TypeError, s).
Proof.
  intros Hd Hin Hun. unfold new_Config, bind, read_dict. rewrite Hd.
  rewrite (fields_check_unknown _ k); [reflexivity | | exact Hun].
  rewrite store_pairs_lookup.
  destruct (In_last_value _ _ _ Hin) as [v0 ->]. eauto.
Qed.

(** [load_config] once the defaults are copied and the repository is
    asked for. *)
Lemma load_config_paths w s root :
  heap s !! DEFAULT_CONFIG = Some (ODict default_entries) ->
  YAML_AVAILABLE w = true ->
  repo_root_of w = Some root ->
  load_config w s
  = bind (load_first w (fresh (dom (heap s)))
            ((if falsy root then [] else [root]) ++ [home w]))
         (fun _ => new_Config (fresh (dom (heap s))))
      {| heap := <[fresh (dom (heap s)) := ODict default_entries]> (heap s);
         out := out s; api_calls := api_calls s; pending := pending s |}.
Proof.
  intros Hd Hy Hroot. unfold load_config, dict_copy.
  unfold bind at 1. unfold bind at 1. unfold read_dict. rewrite Hd.
  unfold alloc. rewrite Hy. cbn [negb].
  unfold bind at 1. unfold get_repo_root, bind at 1, run_git.
  unfold repo_root_of in Hroot.
  destruct (git w [lit "rev-parse"; lit "--show-toplevel"]) as [result |];
    [| discriminate Hroot].
  injection Hroot as <-. reflexivity.
Qed.

(** The loop on a file that is accepted. *)
Lemma load_first_accepted w d dir rest items entries s :
  settings w dir = Some (Loaded (Accepted items)) ->
  heap s !! d = Some (ODict entries) ->
  exists s',
    load_first w d (dir :: rest) s = (Ret tt, s') /\
    heap s' !! d = Some (ODict (store_pairs items entries)) /\
    out s' = out s ++ [Print (LoadedConfig dir)].
Proof.
  intros Hset Hd. cbn [load_first]. rewrite Hset.
  destruct (dict_store_all_run d items entries s Hd)
    as (s1 & Hrun & Hheap & Hout & _).
  unfold bind at 1. rewrite Hrun. rewrite print_run.
  eexists. split; [reflexivity |]. simpl. rewrite Hheap, Hout.
  split; [apply lookup_insert_eq | reflexivity].
Qed.

(** The loop on a file that is passed over. *)
Lemma load_first_passed_over w d dir rest notices s :
  passed_over w dir = Some notices ->
  load_first w d (dir :: rest) s
  = load_first w d rest
      {| heap := heap s; out := out s ++ notices; api_calls := api_calls s;
         pending := pending s |}.
Proof.
  unfold passed_over. intros H. cbn [load_first].
  destruct (settings w dir) as [[| [| items | stored]] |];
    try discriminate H; injection H as <-.
  - unfold bind at 1. now rewrite print_run.
  - destruct s. simpl. now rewrite app_nil_r.
  - destruct s. simpl. now rewrite app_nil_r.
Qed.

(** X11.  A settings file at the root of the repository overrides the
    defaults key by key.  When YAML is available and the file holds a
    mapping whose keys are all fields of [Config], the configuration has
    the value of the file for each key the file gives and the default for
    every other; the program prints that it loaded the file, and a settings
    file in the home directory is not looked at. *)
Theorem repository_settings_override (w : world) (s : state) (c : ascii)
    (root : str) (items : list (string * val)) :
  heap s !! DEFAULT_CONFIG = Some (ODict default_entries) ->
  YAML_AVAILABLE w = true ->
  repo_root_of w = Some (c :: root) ->
  settings w (c :: root) = Some (Loaded (Accepted items)) ->
  known_keys items ->
  exists s',
    load_config w s = (Ret (overlaid items), s') /\
    out s' = out s ++ [Print (LoadedConfig (c :: root))].
Proof.
  intros Hd Hy Hroot Hset Hknown.
  rewrite (load_config_paths _ _ _ Hd Hy Hroot). cbn [falsy app].
  set (d := fresh (dom (heap s))). set (s1 := {| heap := _ |}).
  destruct (load_first_accepted w d (c :: root) [home w] items default_entries s1
              Hset) as (s2 & Hrun & Hheap & Hout).
  { apply lookup_insert_eq. }
  unfold bind. rewrite Hrun.
  exists s2. split; [now apply new_Config_overlaid | exact Hout].
Qed.

(** The theorem in a small world whose repository overrides the diff cap
    and the commit types: the other three fields keep their defaults. *)
Lemma repository_settings_override_witness :
  exists s',
    load_config override_world module_state
      = (Ret (Config.mk (VInt 10) (Config.model default_config)
                (Config.temperature default_config)
                (Config.max_retries default_config)
                (VList [VStr (lit "feat"); VStr (lit "fix")])), s') /\
    out s' = [Print (LoadedConfig (lit "/repo"))].
Proof.
  destruct (repository_settings_override override_world module_state
              "/"%char (lit "repo")
              [("max_diff_chars"%string, VInt 10);
               ("commit_types"%string, VList [VStr (lit "feat"); VStr (lit "fix")])])
    as (s' & Hrun & Hout).
  - reflexivity.
  - reflexivity.
  - reflexivity.
  - reflexivity.
  - repeat constructor; simpl; tauto.
  - exists s'. split; [exact Hrun | exact Hout].
Defined.

(** X12.  The settings file of the home directory is used when the one of
    the repository is passed over: when there is no repository root, or no
    file there, or the file holds a value that is false, nothing is said
    about it; when it cannot be read or parsed, a warning is printed.  The
    configuration then has the values of the home file over the
    defaults. *)
Theorem home_settings_are_the_fallback (w : world) (s : state) (root : str)
    (notices : list event) (items : list (string * val)) :
  heap s !! DEFAULT_CONFIG = Some (ODict default_entries) ->
  YAML_AVAILABLE w = true ->
  repo_root_of w = Some root ->
  (root = [] /\ notices = []) \/ (root <> [] /\ passed_over w root = Some notices) ->
  settings w (home w) = Some (Loaded (Accepted items)) ->
  known_keys items ->
  exists s',
    load_config w s = (Ret (overlaid items), s') /\
    out s' = out s ++ notices ++ [Print (LoadedConfig (home w))].
Proof.
  intros Hd Hy Hroot Hpass Hset Hknown.
  rewrite (load_config_paths _ _ _ Hd Hy Hroot).
  set (d := fresh (dom (heap s))). set (s1 := {| heap := _ |}).
  assert (Hfirst :
    exists s2,
      load_first w d ((if falsy root then [] else [root]) ++ [home w]) s1
        = (Ret tt, s2) /\
      heap s2 !! d = Some (ODict (store_pairs items default_entries)) /\
      out s2 = out s ++ notices ++ [Print (LoadedConfig (home w))]).
  { destruct Hpass as [[-> ->] | [Hne Hpass]].
    - cbn [falsy app].
      destruct (load_first_accepted w d (home w) [] items default_entries s1 Hset)
        as (s2 & Hrun & Hheap & Hout); [apply lookup_insert_eq |].
      exists s2. auto.
    - destruct root as [| c root]; [congruence |]. cbn [falsy app].
      rewrite (load_first_passed_over _ _ _ _ _ _ Hpass).
      set (s1' := {| heap := heap s1 |}).
      destruct (load_first_accepted w d (home w) [] items default_entries s1' Hset)
        as (s2 & Hrun & Hheap & Hout); [apply lookup_insert_eq |].
      exists s2. split; [exact Hrun |]. split; [exact Hheap |].
      rewrite Hout. subst s1' s1. simpl. now rewrite <- app_assoc. }
  destruct Hfirst as (s2 & Hrun & Hheap & Hout).
  unfold bind. rewrite Hrun.
  exists s2. split; [now apply new_Config_overlaid | exact Hout].
Qed.

(** The theorem in a small world whose repository file cannot be parsed
    and whose home file sets the model. *)
Lemma home_settings_are_the_fallback_witness :
  exists s',
    load_config home_world module_state
      = (Ret (Config.mk (Config.max_diff_chars default_config)
                (VStr (lit "other-model"))
                (Config.temperature default_config)
                (Config.max_retries default_config)
                (Config.commit_types default_config)), s') /\
    out s' = [Print (ConfigWarning (lit "/repo"));
              Print (LoadedConfig (lit "/home/dev"))].
Proof.
  destruct (home_settings_are_the_fallback home_world module_state
              (lit "/repo") [Print (ConfigWarning (lit "/repo"))]
              [("model"%string, VStr (lit "other-model"))])
    as (s' & Hrun & Hout).
  - reflexivity.
  - reflexivity.
  - reflexivity.
  - right. split; [discriminate | reflexivity].
  - reflexivity.
  - repeat constructor; simpl; tauto.
  - exists s'. split; [exact Hrun | exact Hout].
Defined.

(** X13.  A key that is not a field of [Config] makes [load_config] fail.
    When the settings file of the repository holds a mapping with such a
    key, the program prints that it loaded the file and then raises
    [TypeError], whatever the other keys are; no configuration is
    returned. *)
Theorem unknown_settings_key_raises (w : world) (s : state) (c : ascii)
    (root : str) (items : list (string * val)) (k : string) (v : val) :
  heap s !! DEFAULT_CONFIG = Some (ODict default_entries) ->
  YAML_AVAILABLE w = true ->
  repo_root_of w = Some (c :: root) ->
  settings w (c :: root) = Some (Loaded (Accepted items)) ->
  In (k, v) items ->
  ~ In k Config_fields ->
  exists s',
    load_config w s = (Raise TypeError, s') /\
    out s' = out s ++ [Print (LoadedConfig (c :: root))].
Proof.
  intros Hd Hy Hroot Hset Hin Hun.
  rewrite (load_config_paths _ _ _ Hd Hy Hroot). cbn [falsy app].
  set (d := fresh (dom (heap s))). set (s1 := {| heap := _ |}).
  destruct (load_first_accepted w d (c :: root) [home w] items default_entries s1
              Hset) as (s2 & Hrun & Hheap & Hout).
  { apply lookup_insert_eq. }
  unfold bind. rewrite Hrun.
  exists s2. split; [exact (new_Config_unknown _ _ _ _ _ Hheap Hin Hun) | exact Hout].
Qed.

(** The theorem in a small world whose settings file misspells
    [max_diff_chars]. *)
Lemma unknown_settings_key_raises_witness :
  exists s',
    load_config typo_world module_state = (Raise TypeError, s') /\
    out s' = [Print (LoadedConfig (lit "/repo"))].
Proof.
  destruct (unknown_settings_key_raises typo_world module_state
              "/"%char (lit "repo")
              [("max_retries"%string, VInt 5); ("max_diff_char"%string, VInt 10)]
              "max_diff_char"%string (VInt 10))
    as (s' & Hrun & Hout).
  - reflexivity.
  - reflexivity.
  - reflexivity.
  - reflexivity.
  - right. left. reflexivity.
  - simpl. intros [H | [H | [H | [H | [H | []]]]]]; discriminate H.
  - exists s'. split; [exact Hrun | exact Hout].
Defined.

(** X14.  Without the YAML library the settings files are ignored: the
    configuration is that of the defaults whatever the settings files
    hold, nothing is printed, and git is not asked for the repository, so
    that this holds without a git binary too. *)
Theorem settings_ignored_without_yaml (w : world) (s : state) :
  heap s !! DEFAULT_CONFIG = Some (ODict default_entries) ->
  YAML_AVAILABLE w = false ->
  exists s',
    load_config w s = (Ret default_config, s') /\
    out s' = out s /\ pending s' = pending s.
Proof.
  intros Hd Hy. unfold load_config, dict_copy.
  unfold bind at 1. unfold bind at 1. unfold read_dict. rewrite Hd.
  unfold alloc. rewrite Hy. cbn [negb].
  eexists. split; [apply new_Config_defaults; apply lookup_insert_eq |].
  split; reflexivity.
Qed.

Lemma settings_ignored_without_yaml_witness :
  exists s',
    load_config no_yaml_world module_state = (Ret default_config, s') /\
    out s' = [].
Proof.
  destruct (settings_ignored_without_yaml no_yaml_world module_state
              eq_refl eq_refl) as (s' & Hrun & Hout & _).
  exists s'. split; [exact Hrun | exact Hout].
Defined.

(** ** Runs that find nothing to do *)

Lemma get_staged_changes_none w config s :
  is_Some (git w staged_query) ->
  git_output w staged_query = None \/ git_output w staged_query = Some [] ->
  get_staged_changes w config s = (Ret None, s).
Proof.
  intros [result Hgit] Hout. unfold get_staged_changes. fold staged_query.
  unfold bind at 1. unfold run_git. unfold git_output in Hout.
  rewrite Hgit in *. cbn [andb].
  destruct (returncode result =? 0); cbn [negb].
  - destruct Hout as [[=] | [= ->]]. reflexivity.
  - reflexivity.
Qed.

Lemma get_all_branches_run w s :
  is_Some (git w listing_query) ->
  get_all_branches_with_status w s
  = (match listing w with
     | Some branches => Ret branches
     | None => Raise ValueError
     end, s).
Proof.
  intros [result Hgit]. unfold get_all_branches_with_status, listing.
  fold listing_query. unfold bind, run_git, git_output. rewrite Hgit.
  destruct (returncode result =? 0); simpl; [| reflexivity].
  destruct (strip (stdout result)) as [| c output] eqn:Eout; simpl;
    [reflexivity |].
  now rewrite collect_branches_run.
Qed.

Lemma main_staged_none w args config s :
  is_Some (git w staged_query) ->
  git_output w staged_query = None \/ git_output w staged_query = Some [] ->
  main_staged w args config s
  = (Exit 0,
     reads s (opening args AnalyzingStaged ++ [Print NoStagedChanges])
       (pending s)).
Proof.
  intros Hgit Hout. unfold main_staged. unfold bind at 1. rewrite unless_run.
  unfold bind at 1. rewrite (get_staged_changes_none _ _ _ Hgit Hout).
  unfold bind, print, emit, exit, reads, opening. simpl.
  now rewrite <- app_assoc.
Qed.

Lemma main_scan_none w args config s :
  is_Some (git w listing_query) ->
  listing w = Some [] ->
  main_scan w args config s
  = (Exit 0,
     reads s (opening args Scanning ++ [Print NoBranches]) (pending s)).
Proof.
  intros Hgit Hnone. unfold main_scan. unfold bind at 1. rewrite unless_run.
  unfold bind at 1. rewrite (get_all_branches_run _ _ Hgit). rewrite Hnone.
  unfold bind, print, emit, exit, reads, opening. simpl.
  now rewrite <- app_assoc.
Qed.

(** X15.  In [--staged] mode a git that fails is not told apart from an
    empty index: when [git diff --cached --name-only] ends with an error,
    or prints nothing, the program prints that there are no staged changes
    and ends with exit code 0, in JSON mode too; it calls the service not
    at all and reads no input. *)
Theorem staged_mode_without_changes (w : world) (args : Args.t)
    (config : Config.t) (s : state) :
  is_Some (git w staged_query) ->
  git_output w staged_query = None \/ git_output w staged_query = Some [] ->
  exists s',
    main_staged w args config s = (Exit 0, s') /\
    out s' = out s ++ opening args AnalyzingStaged ++ [Print NoStagedChanges] /\
    api_calls s' = api_calls s /\ pending s' = pending s.
Proof.
  intros Hgit Hout. rewrite (main_staged_none _ _ _ _ Hgit Hout).
  eexists. split; [reflexivity |]. repeat split.
Qed.

(** The theorem outside any repository, where git fails, in JSON mode. *)
Lemma staged_mode_without_changes_witness :
  exists s',
    main_staged outside_world (Args.mk true None false true)
      (demo_config 50000) (init_state outside_world) = (Exit 0, s') /\
    out s' = [Print NoStagedChanges].
Proof.
  destruct (staged_mode_without_changes outside_world
              (Args.mk true None false true) (demo_config 50000)
              (init_state outside_world) (ex_intro _ _ eq_refl)
              (or_introl eq_refl)) as (s' & Hrun & Hout & _).
  exists s'. split; [exact Hrun | exact Hout].
Defined.

(** X16.  In the scan of all branches, when no branch is ahead of its
    upstream (or the listing fails, or is empty) the program prints that
    there are no branches with unpushed commits and ends with exit code 0.
    In JSON mode it prints this notice too, not a JSON document; it shows
    no menu and reads no input. *)
Theorem scan_mode_without_branches (w : world) (args : Args.t)
    (config : Config.t) (s : state) :
  is_Some (git w listing_query) ->
  listing w = Some [] ->
  exists s',
    main_scan w args config s = (Exit 0, s') /\
    out s' = out s ++ opening args Scanning ++ [Print NoBranches] /\
    api_calls s' = api_calls s /\ pending s' = pending s.
Proof.
  intros Hgit Hnone. rewrite (main_scan_none _ _ _ _ Hgit Hnone).
  eexists. split; [reflexivity |]. repeat split.
Qed.

(** The theorem in the small world, whose listing is empty, in JSON
    mode. *)
Lemma scan_mode_without_branches_witness :
  exists s',
    main_scan demo_world (Args.mk false None false true)
      (demo_config 50000) (init_state demo_world) = (Exit 0, s') /\
    out s' = [Print NoBranches].
Proof.
  destruct (scan_mode_without_branches demo_world
              (Args.mk false None false true) (demo_config 50000)
              (init_state demo_world) (ex_intro _ _ eq_refl) eq_refl)
    as (s' & Hrun & Hout & _).
  exists s'. split; [exact Hrun | exact Hout].
Defined.

(** X17.  Outside a repository the program does not say so.  When every
    git command fails (and there is no settings file), [main] in
    [--staged] mode prints that there are no staged changes, and in the
    scan of all branches that there are no branches with unpushed commits;
    both end with exit code 0. *)
Theorem outside_repository_exits_zero (w : world) (args : Args.t) (s : state) :
  (forall q, exists result, git w q = Some result /\ returncode result <> 0) ->
  (forall dir, settings w dir = None) ->
  heap s !! DEFAULT_CONFIG = Some (ODict default_entries) ->
  falsy_opt (Args.branch args) = true ->
  exists s',
    main w args s = (Exit 0, s') /\
    out s' = out s
             ++ (if Args.staged args
                 then opening args AnalyzingStaged ++ [Print NoStagedChanges]
                 else opening args Scanning ++ [Print NoBranches]).
Proof.
  intros Hgit Hno Hd Hbranch.
  assert (Hsome : forall q, is_Some (git w q)).
  { intros q. destruct (Hgit q) as (result & -> & _). eauto. }
  assert (Hfail : forall q, git_output w q = None).
  { intros q. unfold git_output. destruct (Hgit q) as (result & -> & Hne).
    destruct (Z.eqb_spec (returncode result) 0); [contradiction | reflexivity]. }
  unfold main. unfold bind at 1.
  destruct (is_git_repo w s) as [r0 s0] eqn:Erepo.
  apply is_git_repo_inv in Erepo as [(-> & -> & _) | (_ & _ & Hnone)];
    [| destruct (Hsome [lit "rev-parse"; lit "--git-dir"]) as [? H];
       rewrite H in Hnone; discriminate Hnone].
  cbn [negb]. unfold bind at 1.
  destruct (load_config_defaults w s Hno Hd (or_intror (Hsome _)))
    as (s1 & -> & Hout1).
  destruct (Args.staged args).
  - rewrite (main_staged_none _ _ _ _ (Hsome _) (or_introl (Hfail _))).
    eexists. split; [reflexivity |]. simpl. now rewrite Hout1.
  - assert (Hlist : listing w = Some []) by (unfold listing; now rewrite Hfail).
    destruct (Args.branch args) as [[| c b] |]; try discriminate Hbranch;
      rewrite (main_scan_none _ _ _ _ (Hsome _) Hlist);
      (eexists; split; [reflexivity |]; simpl; now rewrite Hout1).
Qed.

(** The theorem in a directory that is not a repository, for the scan. *)
Lemma outside_repository_exits_zero_witness :
  exists s',
    main outside_world (Args.mk false None false false)
      (init_state outside_world) = (Exit 0, s') /\
    out s' = [Print Scanning; Print NoBranches].
Proof.
  destruct (outside_repository_exits_zero outside_world
              (Args.mk false None false false) (init_state outside_world))
    as (s' & Hrun & Hout).
  - intros q. eexists. split; [reflexivity | discriminate].
  - reflexivity.
  - reflexivity.
  - reflexivity.
  - exists s'. split; [exact Hrun | exact Hout].
Defined.

(** ** How runs end *)

Lemma stops_weaken {A} (X X' : Z -> Prop) (E E' : exn -> Prop) (m : M A) :
  (forall c, X c -> X' c) -> (forall e, E e -> E' e) ->
  stops X E m -> stops X' E' m.
Proof.
  intros HX HE Hm s r s' Hrun. specialize (Hm s r s' Hrun).
  destruct r; auto.
Qed.

Lemma stops_ret {A} X E (a : A) : stops X E (ret a).
Proof. intros s r s' [= <- <-]. exact I. Qed.

Lemma stops_exit {A} (X : Z -> Prop) E c : X c -> stops X E (exit (A := A) c).
Proof. intros Hc s r s' [= <- <-]. exact Hc. Qed.

Lemma stops_raise {A} X (E : exn -> Prop) e :
  E e -> stops X E (raise (A := A) e).
Proof. intros He s r s' [= <- <-]. exact He. Qed.

Lemma stops_emit X E e : stops X E (emit e).
Proof. intros s r s' [= <- <-]. exact I. Qed.

Lemma stops_print X E m : stops X E (print m).
Proof. apply stops_emit. Qed.

Lemma stops_bind {A B} X E (m : M A) (f : A -> M B) :
  stops X E m -> (forall a, stops X E (f a)) -> stops X E (bind m f).
Proof.
  intros Hm Hf s r s' Hrun. unfold bind in Hrun.
  destruct (m s) as [[a | c | e] s1] eqn:Em.
  - exact (Hf a _ _ _ Hrun).
  - injection Hrun as <- <-. exact (Hm _ _ _ Em).
  - injection Hrun as <- <-. exact (Hm _ _ _ Em).
Qed.


Lemma stops_try_except {A} X E E' (m : M A) h :
  stops X E' m ->
  (forall e, E' e ->
             match h e with Some k => stops X E k | None => E e end) ->
  stops X E (try_except m h).
Proof.
  intros Hm Hh s r s' Hrun. unfold try_except in Hrun.
  destruct (m s) as [[a | c | e] s1] eqn:Em.
  - injection Hrun as <- <-. exact I.
  - injection Hrun as <- <-. exact (Hm _ _ _ Em).
  - pose proof (Hm _ _ _ Em) as He. cbn in He. specialize (Hh e He).
    destruct (h e) as [k |].
    + exact (Hh _ _ _ Hrun).
    + injection Hrun as <- <-. exact Hh.
Qed.

Lemma stops_try_finally {A} X E (m : M A) cleanup :
  stops X E m -> stops X E cleanup -> stops X E (try_finally m cleanup).
Proof.
  intros Hm Hc s r s' Hrun. unfold try_finally in Hrun.
  destruct (m s) as [r1 s1] eqn:Em.
  destruct (cleanup s1) as [[u | c | e] s2] eqn:Ec; injection Hrun as <- <-.
  - exact (Hm _ _ _ Em).
  - exact (Hc _ _ _ Ec).
  - exact (Hc _ _ _ Ec).
Qed.

Lemma stops_unless X E b m : stops X E (unless b (print m)).
Proof. destruct b; [apply stops_ret | apply stops_print]. Qed.


Section Ends.

Context (w : world) (X : Z -> Prop) (E : exn -> Prop).
Hypothesis HX1 : X 1.
Hypothesis HE_type : E TypeError.
Hypothesis HE_ill : E IllTyped.
Hypothesis HE_value : E ValueError.

Lemma stops_or_value_error {A} (o : option A) : stops X E (or_value_error o).
Proof. destruct o; [apply stops_ret | now apply stops_raise]. Qed.

Lemma stops_as_int v : stops X E (as_int v).
Proof. destruct v; first [apply stops_ret | now apply stops_raise]. Qed.

Lemma stops_as_str_list v : stops X E (as_str_list v).
Proof.
  intros s r s'. unfold as_str_list.
  destruct (_ ≫= mapM as_str); intros [= <- <-]; [exact I | exact HE_ill].
Qed.

Lemma stops_read_dict l : stops X E (read_dict l).
Proof.
  intros s r s'. unfold read_dict.
  destruct (heap s !! l) as [[? | ?] |]; intros [= <- <-];
    [exact I | exact HE_type | exact HE_type].
Qed.

Lemma stops_alloc o : stops X E (alloc o).
Proof. now intros s r s' [= <- <-]. Qed.

Lemma stops_store l o : stops X E (store l o).
Proof. now intros s r s' [= <- <-]. Qed.

Lemma stops_dict_store_all d items : stops X E (dict_store_all d items).
Proof.
  induction items as [| [k v] items IH]; simpl; [apply stops_ret |].
  apply stops_bind; [| intros _; exact IH].
  apply stops_bind; [apply stops_read_dict | intros; apply stops_store].
Qed.

Ltac stops_step :=
  lazymatch goal with
  | |- stops _ _ (ret _) => apply stops_ret
  | |- stops _ _ (exit _) => apply stops_exit
  | |- stops _ _ (raise _) => apply stops_raise
  | |- stops _ _ (or_value_error _) => apply stops_or_value_error
  | |- stops _ _ (as_int _) => apply stops_as_int
  | |- stops _ _ (as_str_list _) => apply stops_as_str_list
  | |- stops _ _ (read_dict _) => apply stops_read_dict
  | |- stops _ _ (alloc _) => apply stops_alloc
  | |- stops _ _ (store _ _) => apply stops_store
  | |- stops _ _ (dict_store_all _ _) => apply stops_dict_store_all
  | |- stops _ _ (unless _ (print _)) => apply stops_unless
  | |- stops _ _ (print _) => apply stops_print
  | |- stops _ _ (emit _) => apply stops_emit
  | |- stops _ _ (bind _ _) => apply stops_bind; [| intros ? ]
  | |- stops _ _ (try_finally _ _) => apply stops_try_finally
  | |- stops _ _ (match ?x with _ => _ end) => destruct x
  | |- stops _ _ (if ?b then _ else _) => destruct b
  | |- stops _ _ (let (_, _) := ?x in _) => destruct x
  | |- stops _ _ (let _ := _ in _) => cbv zeta
  end.

Ltac stops_auto tac := repeat first [ stops_step | tac ].

Ltac known := first [ exact HX1 | exact HE_type | exact HE_ill | exact HE_value ].

Lemma stops_run_git args check : stops X E (run_git w args check).
Proof. unfold run_git. stops_auto known. Qed.


Lemma stops_get_repo_root : stops X E (get_repo_root w).
Proof. unfold get_repo_root. stops_auto ltac:(apply stops_run_git). Qed.

Lemma stops_collect_branches lines branches :
  stops X E (collect_branches lines branches).
Proof.
  revert branches. induction lines as [| line rest IH]; intros branches; simpl.
  - apply stops_ret.
  - stops_auto ltac:(apply IH).
Qed.

Lemma stops_get_all_branches_with_status :
  stops X E (get_all_branches_with_status w).
Proof.
  unfold get_all_branches_with_status.
  stops_auto ltac:(first [apply stops_run_git | apply stops_collect_branches]).
Qed.

Lemma stops_first_candidate upstream candidates :
  stops X E (first_candidate w upstream candidates).
Proof.
  induction candidates as [| candidate rest IH]; simpl.
  - apply stops_ret.
  - stops_auto ltac:(first [apply stops_run_git | apply IH]).
Qed.

Lemma stops_collect_branch branch upstream config :
  stops X E (collect_branch w branch upstream config).
Proof. unfold collect_branch. stops_auto ltac:(apply stops_run_git). Qed.

Lemma stops_get_branch_diff branch upstream config :
  stops X E (get_branch_diff w branch upstream config).
Proof.
  unfold get_branch_diff.
  stops_auto ltac:(first [apply stops_run_git | apply stops_first_candidate
                         | apply stops_collect_branch]).
Qed.

Lemma stops_get_staged_changes config : stops X E (get_staged_changes w config).
Proof. unfold get_staged_changes. stops_auto ltac:(apply stops_run_git). Qed.

Lemma stops_attempts config max_retries todo :
  stops X E (attempts w config max_retries todo).
Proof.
  induction todo as [| attempt rest IH]; simpl.
  - apply stops_ret.
  - apply stops_bind; [now intros s r s' [= <- <-] |].
    intros message. stops_auto ltac:(apply IH).
Qed.

Lemma stops_generate_commit_message branch_info config :
  stops X E (generate_commit_message w branch_info config).
Proof.
  unfold generate_commit_message. stops_auto ltac:(apply stops_attempts).
Qed.

Lemma stops_new_Config d : stops X E (new_Config d).
Proof. unfold new_Config. stops_auto known. Qed.

Lemma stops_load_first d config_paths : stops X E (load_first w d config_paths).
Proof.
  induction config_paths as [| path rest IH]; simpl.
  - apply stops_ret.
  - stops_auto ltac:(apply IH).
Qed.

Lemma stops_load_config : stops X E (load_config w).
Proof.
  unfold load_config, dict_copy.
  stops_auto ltac:(first [apply stops_get_repo_root | apply stops_load_first
                         | apply stops_new_Config]).
Qed.

Hypothesis HX0 : X 0.
Hypothesis HE_eof : E EOFError.
Hypothesis HE_int : E KeyboardInterrupt.
Hypothesis HE_unicode : E UnicodeEncodeError.
Hypothesis HE_os : E OSError.

Lemma stops_input prompt : stops X E (input prompt).
Proof.
  intros s r s'. unfold input.
  destruct (pending s) as [| [l |] rest]; intros [= <- <-];
    [exact HE_eof | exact I | exact HE_int].
Qed.

(** A round of the menu catches the [ValueError] of [int] and the
    interrupt; the end of the input is not caught. *)
Lemma stops_select_once branches : stops X E (select_once branches).
Proof.
  unfold select_once.
  apply (stops_try_except X E E).
  - stops_auto ltac:(first [apply stops_input | known]).
  - intros e He. destruct e; try exact He; stops_auto idtac.
Qed.

Lemma stops_write_temp commit_message :
  stops X E (write_temp w commit_message).
Proof.
  unfold write_temp.
  stops_auto ltac:(first [exact HE_unicode | exact HE_os]).
Qed.

Lemma stops_select_loop fuel branches : stops X E (select_loop fuel branches).
Proof.
  induction fuel as [| fuel IH]; simpl.
  - now apply stops_raise.
  - stops_auto ltac:(first [apply stops_select_once | apply IH]).
Qed.

Lemma stops_interactive_select_branch branches :
  stops X E (interactive_select_branch branches).
Proof.
  unfold interactive_select_branch. destruct branches as [| row rest].
  - apply stops_ret.
  - apply stops_bind; [apply stops_print |]. intros _.
    intros s r s' Hrun. exact (stops_select_loop _ _ _ _ _ Hrun).
Qed.

Ltac program_step :=
  first [ apply stops_run_git | apply stops_get_staged_changes
        | apply stops_get_branch_diff
        | apply stops_get_all_branches_with_status
        | apply stops_generate_commit_message
        | apply stops_interactive_select_branch
        | apply stops_input | apply stops_load_config
        | apply stops_write_temp
        | exact HX0 | exact HX1 ].






End Ends.



(** ** JSON mode *)

Lemma ordinary_unattended e : ordinary e -> unattended e.
Proof. destruct e; simpl; tauto. Qed.

Lemma ordinary_no_write e : ordinary e -> no_write e.
Proof. destruct e; simpl; tauto. Qed.

Section Json.

Context (w : world) (P : event -> Prop).
Hypothesis HP : forall e, ordinary e -> P e.
Hypothesis Hgen :
  forall branch_info config,
    emits P (generate_commit_message w branch_info config).

Ltac program_step :=
  first [ apply Hgen
        | apply emits_run_git; exact HP
        | apply emits_is_git_repo; exact HP
        | apply emits_get_staged_changes; exact HP
        | apply emits_get_branch_diff; exact HP
        | apply emits_get_all_branches_with_status; exact HP
        | apply emits_load_config; exact HP
        | apply HP; exact I ].

Lemma emits_scan_all_json config branches results :
  emits P (scan_all w config branches results).
Proof.
  revert results.
  induction branches as [| [[[branch_name upstream] ahead] behind] rest IH];
    intros results; simpl.
  - apply emits_ret.
  - emits_auto ltac:(first [apply IH | program_step]).
Qed.

(** With [--json], [main] neither shows the menu nor asks for a
    confirmation. *)
Lemma emits_main_json args :
  Args.json args = true -> emits P (main w args).
Proof.
  intros Hjson s r s' Hrun. unfold main in Hrun. unfold bind at 1 in Hrun.
  destruct (is_git_repo w s) as [r0 s0] eqn:Erepo.
  apply is_git_repo_inv in Erepo as [(-> & -> & _) | (-> & Hout & _)].
  - cbn [negb] in Hrun. revert s r s' Hrun.
    change (emits P (bind (load_config w) (fun config =>
              if Args.staged args then main_staged w args config
              else match Args.branch args with
                   | Some (c :: b) => main_branch w args (c :: b) config
                   | _ => main_scan w args config
                   end))).
    unfold main_staged, main_branch, main_scan, print_branch_info.
    rewrite Hjson.
    emits_auto ltac:(first [apply emits_scan_all_json | program_step]).
  - injection Hrun as <- <-. exists [Print GitNotFound].
    split; [exact Hout | repeat constructor; apply HP; exact I].
Qed.

End Json.

(** X19.  With [--json] a run needs nobody at the terminal and commits
    nothing: in every mode, [main] prompts for no input, so it shows no
    menu and asks for no confirmation, and it never writes the commit
    message file, with [--auto-commit] or without. *)
Theorem json_mode_is_unattended (w : world) (args : Args.t) (s : state)
    (r : res unit) (s' : state) :
  Args.json args = true ->
  main w args s = (r, s') ->
  exists evs, out s' = out s ++ evs /\ Forall unattended evs.
Proof.
  intros Hjson Hrun.
  exact (emits_main_json w unattended ordinary_unattended
           (fun info config =>
              emits_generate_commit_message w _ ordinary_unattended
                info config (fun _ _ => I))
           args Hjson s r s' Hrun).
Qed.

(** The theorem in the small world whose service answers, on the staged
    changes with [--auto-commit]: the JSON document is printed, then the
    error, and the run ends with exit code 1 without a commit. *)
Lemma json_mode_is_unattended_witness :
  exists s',
    main answering_world (Args.mk true None true true)
      (init_state answering_world) = (Exit 1, s') /\
    Forall unattended (out s') /\
    last (out s') = Some (Print AutoCommitWithJson).
Proof.
  destruct (main answering_world (Args.mk true None true true)
              (init_state answering_world)) as [r s'] eqn:E.
  destruct (json_mode_is_unattended answering_world
              (Args.mk true None true true) (init_state answering_world)
              r s' eq_refl E) as (evs & Hout & Hevs).
  exists s'. split; [| split].
  - vm_compute in E. injection E as <- _. reflexivity.
  - rewrite Hout. exact Hevs.
  - vm_compute in E. injection E as _ <-. reflexivity.
Defined.

(** ** The commit message file *)

Lemma write_failed_returned {A} (a : A) : ~ write_failed (Ret a).
Proof. intros []. Qed.

Lemma removed_after_write_app {A B} (a : A) (r : res B) evs1 evs2 :
  removed_after_write (Ret a) evs1 -> removed_after_write r evs2 ->
  removed_after_write r (evs1 ++ evs2).
Proof.
  intros [Hw1 Hc1] [Hw2 Hc2]. split.
  - intros pre text post Heq.
    apply app_eq_app in Heq as [l [[-> Hpost] | [-> ->]]].
    + destruct l as [| e l].
      * simpl in Hpost. rewrite app_nil_r in *.
        exact (Hw2 [] _ _ (eq_sym Hpost)).
      * injection Hpost as <- ->. apply in_or_app. left.
        exact (Hw1 pre text l eq_refl).
    + exact (Hw2 l text post eq_refl).
  - intros pre post Heq.
    apply app_eq_app in Heq as [l [[-> Hpost] | [-> ->]]].
    + destruct l as [| e l].
      * simpl in Hpost. rewrite app_nil_r in *.
        exact (Hc2 [] _ (eq_sym Hpost)).
      * injection Hpost as <- ->. left. apply in_or_app. left.
        destruct (Hc1 pre l eq_refl) as [Hin | [_ []]]. exact Hin.
    + exact (Hc2 l post eq_refl).
Qed.

Lemma removed_after_write_none {A} (r : res A) evs :
  Forall no_write evs -> removed_after_write r evs.
Proof.
  intros H. split.
  - intros pre text post ->. apply Forall_app in H as [_ H].
    inversion H as [| ? ? Hw _]. destruct Hw.
  - intros pre post ->. apply Forall_app in H as [_ H].
    inversion H as [| ? ? Hw _]. destruct Hw.
Qed.

(** The result of a run that did not return, at another type. *)
Lemma removed_after_write_ended {A B} (r : res A) (r' : res B) evs :
  match r, r' with
  | Exit c, Exit c' => c = c'
  | Raise e, Raise e' => e = e'
  | _, _ => False
  end ->
  removed_after_write r evs -> removed_after_write r' evs.
Proof.
  intros Hr [Hw Hc]. split; [exact Hw |].
  intros pre post Heq. destruct (Hc pre post Heq) as [Hin | [-> Hfail]];
    [now left | right; split; [reflexivity |]].
  destruct r as [a | c | e], r' as [a' | c' | e']; try contradiction.
  now subst e'.
Qed.

Lemma traces_of_emits {A} (m : M A) :
  emits no_write m -> traces removed_after_write m.
Proof.
  intros Hm s r s' Hrun. destruct (Hm _ _ _ Hrun) as (evs & Hout & Hevs).
  exists evs. split; [exact Hout | now apply removed_after_write_none].
Qed.

Lemma traces_bind {A B} (m : M A) (f : A -> M B) :
  traces removed_after_write m ->
  (forall a, traces removed_after_write (f a)) ->
  traces removed_after_write (bind m f).
Proof.
  intros Hm Hf s r s' Hrun. unfold bind in Hrun.
  destruct (m s) as [[a | c | e] s1] eqn:E;
    destruct (Hm _ _ _ E) as (evs1 & Hout1 & Hevs1).
  - destruct (Hf a _ _ _ Hrun) as (evs2 & Hout2 & Hevs2).
    exists (evs1 ++ evs2). rewrite Hout2, Hout1, app_assoc.
    split; [reflexivity | exact (removed_after_write_app _ _ _ _ Hevs1 Hevs2)].
  - injection Hrun as <- <-. exists evs1. split; [exact Hout1 |].
    exact (removed_after_write_ended (Exit c) (Exit c) _ eq_refl Hevs1).
  - injection Hrun as <- <-. exists evs1. split; [exact Hout1 |].
    exact (removed_after_write_ended (Raise e) (Raise e) _ eq_refl Hevs1).
Qed.

(** The file is created and written, the commit is tried, and whatever the
    commit does, the [finally] clause removes the file.  When the file
    cannot be written, the error leaves before the [try], and the file that
    was created stays. *)
Lemma traces_write_then_remove {A} w text (body : M A) :
  emits no_write body ->
  traces removed_after_write
    (bind (write_temp w text)
          (fun _ => try_finally body (emit TempUnlink))).
Proof.
  intros Hbody s r s' Hrun. unfold bind at 1 in Hrun. unfold write_temp in Hrun.
  destruct (temp_file w text).
  - unfold bind at 1 in Hrun. unfold emit at 1 2 in Hrun.
    unfold try_finally in Hrun.
    match type of Hrun with
    | context [body ?s1] => destruct (body s1) as [r1 s2] eqn:Eb
    end.
    destruct (Hbody _ _ _ Eb) as (evs & Hout & Hevs).
    unfold emit in Hrun. injection Hrun as <- <-. simpl in *.
    exists (TempCreate :: TempWrite text :: evs ++ [TempUnlink]).
    split; [rewrite Hout; now rewrite <- !app_assoc |].
    assert (Hlast : In TempUnlink (evs ++ [TempUnlink]))
      by (apply in_or_app; right; now left).
    assert (Hnone : forall e pre post,
               ~ no_write e -> evs ++ [TempUnlink] = pre ++ e :: post -> False).
    { intros e pre post He Heq.
      assert (Hin : In e (evs ++ [TempUnlink])) by (rewrite Heq; apply in_elt).
      apply in_app_or in Hin as [Hin | [<- | []]]; [| apply He; exact I].
      rewrite List.Forall_forall in Hevs. exact (He (Hevs _ Hin)). }
    split.
    + intros pre text' post Heq. destruct pre as [| e0 [| e1 pre]].
      * discriminate Heq.
      * injection Heq as _ _ <-. exact Hlast.
      * injection Heq as _ _ Heq. exfalso.
        exact (Hnone (TempWrite text') _ _ (fun H => H) Heq).
    + intros pre post Heq. left. destruct pre as [| e0 [| e1 pre]].
      * injection Heq as <-. right. exact Hlast.
      * discriminate Heq.
      * injection Heq as _ _ Heq. exfalso.
        exact (Hnone TempCreate _ _ (fun H => H) Heq).
  - injection Hrun as <- <-. exists []. split; [now rewrite app_nil_r |].
    apply removed_after_write_none. constructor.
  - unfold bind, emit, raise in Hrun. injection Hrun as <- <-.
    exists [TempCreate]. split; [reflexivity |]. split.
    + intros [| e [| e' pre]] text' post Heq; discriminate Heq.
    + intros [| e [| e' pre]] post Heq; try discriminate Heq.
      injection Heq as <-. right. split; [reflexivity | exact I].
  - unfold bind, emit, raise in Hrun. injection Hrun as <- <-.
    exists [TempCreate]. split; [reflexivity |]. split.
    + intros [| e [| e' pre]] text' post Heq; discriminate Heq.
    + intros [| e [| e' pre]] post Heq; try discriminate Heq.
      injection Heq as <-. right. split; [reflexivity | exact I].
Qed.

Section Removal.

Context (w : world).

Lemma emits_generate_no_write branch_info config :
  emits no_write (generate_commit_message w branch_info config).
Proof.
  apply emits_generate_commit_message; [exact ordinary_no_write |].
  intros; exact I.
Qed.

Ltac leaf :=
  first [ apply emits_generate_no_write
        | apply emits_run_git; exact ordinary_no_write
        | apply emits_get_staged_changes; exact ordinary_no_write
        | apply emits_input; intros; exact I
        | exact I ].

Ltac traces_step :=
  lazymatch goal with
  | |- traces _ (bind (write_temp _ _) _) =>
      apply traces_write_then_remove; emits_auto leaf
  | |- traces _ (bind _ _) => apply traces_bind; [| intros ? ]
  | |- traces _ (match ?x with _ => _ end) => destruct x
  | |- traces _ (if ?b then _ else _) => destruct b
  | |- traces _ (let _ := _ in _) => cbv zeta
  | |- traces _ _ => apply traces_of_emits; emits_auto leaf
  end.

Lemma traces_main_staged args config :
  traces removed_after_write (main_staged w args config).
Proof. unfold main_staged. repeat traces_step. Qed.

Lemma traces_main args : traces removed_after_write (main w args).
Proof.
  unfold main.
  apply traces_bind;
    [apply traces_of_emits, emits_is_git_repo, ordinary_no_write |].
  intros repo. destruct (negb repo); [apply traces_of_emits; emits_auto leaf |].
  apply traces_bind;
    [apply traces_of_emits, emits_load_config, ordinary_no_write |].
  intros config. destruct (Args.staged args); [apply traces_main_staged |].
  apply traces_of_emits.
  assert (Hgen : forall info config0,
             emits no_write (generate_commit_message w info config0))
    by exact emits_generate_no_write.
  destruct (Args.branch args) as [[| c b] |];
    first [ apply emits_main_branch | apply emits_main_scan ];
    first [ exact ordinary_no_write | exact Hgen | intros; exact I ].
Qed.

End Removal.

(** X20.  The file that carries the commit message to [git commit -F] does
    not outlive a run that wrote it: in every run of [main], each write of
    the file is followed by its removal, whether the commit succeeds,
    fails, or git cannot be run.  The file is created before the [try]
    whose [finally] clause removes it, so a created file is removed too,
    except in one case: when writing the message to it fails, the creation
    is the last event of the run, the run ends in the error of the write
    ([UnicodeEncodeError] or [OSError]), and the file stays. *)
Theorem commit_file_is_removed (w : world) (args : Args.t) (s : state)
    (r : res unit) (s' : state) :
  main w args s = (r, s') ->
  exists evs,
    out s' = out s ++ evs /\
    (forall pre text post,
        evs = pre ++ TempWrite text :: post -> In TempUnlink post) /\
    (forall pre post,
        evs = pre ++ TempCreate :: post ->
        In TempUnlink post \/
        (post = [] /\ (r = Raise UnicodeEncodeError \/ r = Raise OSError))).
Proof.
  intros Hrun.
  destruct (traces_main w args s r s' Hrun) as (evs & Hout & Hw & Hc).
  exists evs. split; [exact Hout |]. split; [exact Hw |].
  intros pre post Heq. destruct (Hc pre post Heq) as [Hin | [-> Hfail]];
    [now left | right; split; [reflexivity |]].
  destruct r as [a | c | e]; try contradiction.
  destruct e; try contradiction; auto.
Qed.

(** The theorem in two small worlds whose service answers, on the staged
    changes with [--auto-commit] and the answer [Y].  In the first the
    file is written, git refuses the commit, the run ends with exit code 1,
    and the file is removed.  In the second the message cannot be encoded:
    the run ends in the error, and the file that was created is the last
    event of the run. *)
Lemma commit_file_is_removed_witness :
  (exists s' pre post,
      main answering_world (Args.mk true None true false)
        (init_state answering_world) = (Exit 1, s') /\
      out s' = pre ++ TempWrite (lit "fix(cli): handle empty input") :: post /\
      In TempUnlink post) /\
  (exists r s' pre,
      main unwritable_world (Args.mk true None true false)
        (init_state unwritable_world) = (r, s') /\
      out s' = pre ++ [TempCreate] /\
      (r = Raise UnicodeEncodeError \/ r = Raise OSError)).
Proof.
  split.
  - destruct (main answering_world (Args.mk true None true false)
                (init_state answering_world)) as [r s'] eqn:E.
    destruct (commit_file_is_removed _ _ _ _ _ E) as (evs & Hout & Hevs & _).
    pose proof E as E'. vm_compute in E'. injection E' as <- Hs'.
    assert (Hout' : out s'
              = firstn 7 (out s')
                ++ TempWrite (lit "fix(cli): handle empty input")
                :: skipn 8 (out s')).
    { rewrite <- Hs'. reflexivity. }
    exists s', (firstn 7 (out s')), (skipn 8 (out s')).
    split; [reflexivity |]. split; [exact Hout' |].
    apply (Hevs (firstn 7 (out s')) (lit "fix(cli): handle empty input")).
    rewrite Hout in Hout' at 1. exact Hout'.
  - destruct (main unwritable_world (Args.mk true None true false)
                (init_state unwritable_world)) as [r s'] eqn:E.
    destruct (commit_file_is_removed _ _ _ _ _ E) as (evs & Hout & _ & Hevs).
    pose proof E as E'. vm_compute in E'. injection E' as _ Hs'.
    assert (Hout' : out s' = firstn 6 (out s') ++ [TempCreate])
      by (rewrite <- Hs'; reflexivity).
    exists r, s', (firstn 6 (out s')).
    split; [reflexivity |]. split; [exact Hout' |].
    rewrite Hout in Hout' at 1.
    destruct (Hevs _ _ Hout') as [[] | [_ Hfail]]. exact Hfail.
Defined.

(** ** The commit of [--auto-commit] *)

Lemma eqb_str_eq a b : eqb_str a b = true -> a = b.
Proof.
  revert b. induction a as [| x a IH]; intros [| y b]; simpl;
    try discriminate; [reflexivity |].
  intros H. apply andb_prop in H as [Hxy Hab].
  apply Ascii.eqb_eq in Hxy as ->. now rewrite (IH _ Hab).
Qed.

Lemma bind_assoc {A B C} (m : M A) (f : A -> M B) (g : B -> M C) s :
  bind (bind m f) g s = bind m (fun x => bind (f x) g) s.
Proof. unfold bind. destruct (m s) as [[a | c | e] s1]; reflexivity. Qed.

Lemma input_line prompt line rest s :
  pending s = Line line :: rest ->
  input prompt s = (Ret line, reads s [Prompt prompt] rest).
Proof. intros Hp. unfold input. now rewrite Hp. Qed.

(** [main_staged] up to the prompt, when there are staged changes and a
    message for them. *)
Lemma main_staged_asks w args config s info s0 message s1 confirm rest :
  Args.json args = false ->
  Args.auto_commit args = true ->
  get_staged_changes w config (reads s [Print AnalyzingStaged] (pending s))
    = (Ret (Some info), s0) ->
  generate_commit_message w info config s0 = (Ret (Some message), s1) ->
  message <> [] ->
  pending s1 = Line confirm :: rest ->
  main_staged w args config s
  = bind (if eqb_str (lower (strip confirm)) (lit "y") then
            bind (write_temp w message)
              (fun _ =>
                 try_finally
                   (bind (run_git w (commit_query w) true)
                      (fun x => let '(success, output) := x in
                         if success then print Committed
                         else bind (print (CommitFailed output))
                                (fun _ => exit 1)))
                   (emit TempUnlink))
          else print CommitCancelled)
      (fun _ => exit 0)
      (reads s1 [Print (StagedReport info message); Print Separator;
                 Prompt confirm_prompt] rest).
Proof.
  intros Hjson Hauto Hstaged Hgen Hne Hp. unfold main_staged.
  unfold bind at 1. rewrite unless_run, Hjson.
  unfold bind at 1.
  change {| heap := heap s; out := out s ++ [Print AnalyzingStaged];
            api_calls := api_calls s; pending := pending s |}
    with (reads s [Print AnalyzingStaged] (pending s)).
  rewrite Hstaged. unfold bind at 1. rewrite Hgen.
  destruct message as [| c message]; [congruence |].
  cbn [no_message default]. rewrite Hauto.
  unfold bind at 1. rewrite print_run.
  rewrite bind_assoc. unfold bind at 1. rewrite print_run.
  rewrite bind_assoc. unfold bind at 1.
  rewrite (input_line _ confirm rest) by exact Hp.
  fold (commit_query w). f_equal.
  unfold reads. cbn [heap out api_calls pending].
  now rewrite <- !app_assoc.
Qed.

(** X21.  [--auto-commit] commits only after the answer [y].  When there
    are staged changes and a message for them, the program shows the
    message and asks; the answer is read without the white space around it
    and without regard to case.  Any other answer: it prints that the
    commit is cancelled and ends with exit code 0, and creates no file.
    The answer [y]: it creates the file and writes the message, as
    generated, to it.  When that succeeds it runs the commit; when git ends
    the commit with exit code 0 the run ends with exit code 0, otherwise it
    prints a notice and ends with exit code 1; the file is removed in both
    cases.  When the file cannot be created the run ends in [OSError]; when
    the message cannot be written to the file that was created the run ends
    in the error of the write, and in both cases nothing is committed and
    nothing is removed. *)
Theorem auto_commit_asks_first (w : world) (args : Args.t) (config : Config.t)
    (s : state) (info : BranchInfo.t) (s0 : state) (message : str)
    (s1 : state) (confirm : str) (rest : list input_event) :
  Args.json args = false ->
  Args.auto_commit args = true ->
  get_staged_changes w config (reads s [Print AnalyzingStaged] (pending s))
    = (Ret (Some info), s0) ->
  generate_commit_message w info config s0 = (Ret (Some message), s1) ->
  message <> [] ->
  pending s1 = Line confirm :: rest ->
  exists r tail,
    main_staged w args config s
    = (r, reads s1 ([Print (StagedReport info message); Print Separator;
                     Prompt confirm_prompt] ++ tail) rest) /\
    (lower (strip confirm) <> lit "y" ->
     r = Exit 0 /\ tail = [Print CommitCancelled]) /\
    (lower (strip confirm) = lit "y" ->
     match temp_file w message with
     | TempWritten =>
         (forall output,
             git_output w (commit_query w) = Some output ->
             r = Exit 0 /\
             tail = [TempCreate; TempWrite message; Print Committed;
                     TempUnlink]) /\
         (git_output w (commit_query w) = None ->
          r = Exit 1 /\
          exists notice,
            tail = [TempCreate; TempWrite message; Print notice; TempUnlink])
     | TempNotCreated => r = Raise OSError /\ tail = []
     | TempEncodeError => r = Raise UnicodeEncodeError /\ tail = [TempCreate]
     | TempWriteError => r = Raise OSError /\ tail = [TempCreate]
     end).
Proof.
  intros Hjson Hauto Hstaged Hgen Hne Hp.
  rewrite (main_staged_asks _ _ _ _ _ _ _ _ _ _ Hjson Hauto Hstaged Hgen Hne Hp).
  destruct (eqb_str (lower (strip confirm)) (lit "y")) eqn:Ey.
  - apply eqb_str_eq in Ey.
    unfold bind at 1. unfold bind at 1. unfold write_temp.
    destruct (temp_file w message).
    + unfold bind at 1. unfold emit at 1 2.
      unfold try_finally. unfold bind at 1. unfold run_git, git_output.
      destruct (git w (commit_query w)) as [result |].
      * cbn [andb]. destruct (returncode result =? 0); cbn [negb].
        -- exists (Exit 0),
             [TempCreate; TempWrite message; Print Committed; TempUnlink].
           split; [| split; [congruence |]].
           { unfold ret, print, emit, exit, reads. cbn.
             now rewrite <- !app_assoc. }
           intros _. split; [auto | discriminate].
        -- exists (Exit 1),
             [TempCreate; TempWrite message;
              Print (CommitFailed (if falsy (stderr result) then []
                                   else strip (stderr result)));
              TempUnlink].
           split; [| split; [congruence |]].
           { unfold ret, bind, print, emit, exit, reads. cbn.
             now rewrite <- !app_assoc. }
           intros _. split; [discriminate | eauto].
      * exists (Exit 1),
          [TempCreate; TempWrite message; Print GitNotFound; TempUnlink].
        split; [| split; [congruence |]].
        { unfold ret, bind, print, emit, exit, reads. cbn.
          now rewrite <- !app_assoc. }
        intros _. split; [discriminate | eauto].
    + exists (Raise OSError), [].
      split; [| split; [congruence | auto]].
      unfold raise, reads. cbn. reflexivity.
    + exists (Raise UnicodeEncodeError), [TempCreate].
      split; [| split; [congruence | auto]].
      unfold bind, emit, raise, reads. cbn. now rewrite <- !app_assoc.
    + exists (Raise OSError), [TempCreate].
      split; [| split; [congruence | auto]].
      unfold bind, emit, raise, reads. cbn. now rewrite <- !app_assoc.
  - exists (Exit 0), [Print CommitCancelled].
    split; [| split].
    + unfold ret, bind, print, emit, exit, reads. cbn.
      now rewrite <- !app_assoc.
    + auto.
    + intros Hy. rewrite Hy in Ey. discriminate Ey.
Qed.

(** The theorem in two small worlds whose service answers, with the answer
    [Y] between blanks.  In the first the message is written, git refuses
    the commit, the file is removed and the run ends with exit code 1.  In
    the second the message cannot be encoded: the file is created, the run
    ends in the error, and nothing removes the file. *)
Lemma auto_commit_asks_first_witness :
  (exists s' notice,
      main_staged answering_world (Args.mk true None true false)
        (demo_config 50000) (init_state answering_world) = (Exit 1, s') /\
      out s' = [Print AnalyzingStaged;
                call_of (demo_config 50000); call_of (demo_config 50000);
                Print (StagedReport staged_info
                         (lit "fix(cli): handle empty input"));
                Print Separator; Prompt confirm_prompt;
                TempCreate; TempWrite (lit "fix(cli): handle empty input");
                Print notice; TempUnlink]) /\
  (exists s',
      main_staged unwritable_world (Args.mk true None true false)
        (demo_config 50000) (init_state unwritable_world)
        = (Raise UnicodeEncodeError, s') /\
      out s' = [Print AnalyzingStaged;
                call_of (demo_config 50000); call_of (demo_config 50000);
                Print (StagedReport staged_info
                         (lit "fix(cli): handle empty input"));
                Print Separator; Prompt confirm_prompt;
                TempCreate]).
Proof.
  split.
  - destruct (auto_commit_asks_first answering_world
                (Args.mk true None true false) (demo_config 50000)
                (init_state answering_world) staged_info
                (reads (init_state answering_world) [Print AnalyzingStaged]
                   [Line (lit " Y ")])
                (lit "fix(cli): handle empty input")
                {| heap := module_heap;
                   out := [Print AnalyzingStaged;
                           call_of (demo_config 50000);
                           call_of (demo_config 50000)];
                   api_calls := 2; pending := [Line (lit " Y ")] |}
                (lit " Y ") [])
      as (r & tail & Hrun & _ & Hyes).
    + reflexivity.
    + reflexivity.
    + vm_compute. reflexivity.
    + vm_compute. reflexivity.
    + discriminate.
    + reflexivity.
    + destruct (Hyes eq_refl) as [_ Hfail].
      destruct (Hfail eq_refl) as (-> & notice & ->).
      eexists. exists notice. split; [exact Hrun | reflexivity].
  - destruct (auto_commit_asks_first unwritable_world
                (Args.mk true None true false) (demo_config 50000)
                (init_state unwritable_world) staged_info
                (reads (init_state unwritable_world) [Print AnalyzingStaged]
                   [Line (lit " Y ")])
                (lit "fix(cli): handle empty input")
                {| heap := module_heap;
                   out := [Print AnalyzingStaged;
                           call_of (demo_config 50000);
                           call_of (demo_config 50000)];
                   api_calls := 2; pending := [Line (lit " Y ")] |}
                (lit " Y ") [])
      as (r & tail & Hrun & _ & Hyes).
    + reflexivity.
    + reflexivity.
    + vm_compute. reflexivity.
    + vm_compute. reflexivity.
    + discriminate.
    + reflexivity.
    + destruct (Hyes eq_refl) as (-> & ->).
      eexists. split; [exact Hrun | reflexivity].
Defined.

(** ** The scan of all branches *)





(** ** The summary line of git *)

Lemma search_skip_prefix p pre rest :
  no_match_before p (length pre) (pre ++ rest) = true ->
  re_search p (pre ++ rest) = re_search p rest.
Proof.
  induction pre as [| c pre IH]; intros H; [reflexivity |].
  cbn [length no_match_before app] in H. apply andb_prop in H as [Hm H].
  cbn [app re_search].
  destruct (match_here p (c :: pre ++ rest)); [discriminate Hm |].
  exact (IH H).
Qed.

Section DigitsFirst.

(** A pattern that starts with its group, followed by something that
    cannot start with a digit. *)
Context (p p' : list item).
Hypothesis Hp : p = Digits :: p'.
Hypothesis Hk : forall t, starts_with_digit t = true -> match_here p' t = None.

Lemma match_here_digits_first s :
  match_here p s
  = match span_digits s with
    | ([], _) => None
    | (ds, r) => match match_here p' r with Some _ => Some ds | None => None end
    end.
Proof. rewrite Hp. cbn [match_here]. now apply digits_then_sep. Qed.

Lemma re_search_unfold s :
  re_search p s
  = match match_here p s with
    | Some g => Some g
    | None => match s with [] => None | _ :: s' => re_search p s' end
    end.
Proof. destruct s; reflexivity. Qed.

Lemma search_skip_digits ds rest :
  forallb is_digit ds = true ->
  starts_with_digit rest = false ->
  match_here p' rest = None ->
  re_search p (ds ++ rest) = re_search p rest.
Proof.
  intros Hd Hr Hnone. induction ds as [| c ds IH]; [reflexivity |].
  rewrite re_search_unfold, match_here_digits_first.
  rewrite (span_digits_app _ _ Hd Hr), Hnone. cbn [app].
  apply IH. cbn [forallb] in Hd. now apply andb_prop in Hd as [_ Hd].
Qed.

Lemma search_skip_nondigits seg rest :
  forallb (fun c => negb (is_digit c)) seg = true ->
  re_search p (seg ++ rest) = re_search p rest.
Proof.
  intros Hs. induction seg as [| c seg IH]; [reflexivity |].
  cbn [forallb] in Hs. apply andb_prop in Hs as [Hc Hs].
  apply negb_true_iff in Hc.
  rewrite re_search_unfold, match_here_digits_first.
  cbn [app span_digits]. rewrite Hc. exact (IH Hs).
Qed.

Lemma search_nothing : re_search p [] = None.
Proof. rewrite Hp. reflexivity. Qed.

Lemma search_head ds rest :
  ds <> [] ->
  forallb is_digit ds = true ->
  starts_with_digit rest = false ->
  is_Some (match_here p' rest) ->
  re_search p (ds ++ rest) = Some ds.
Proof.
  intros Hne Hd Hr [g Hg].
  rewrite re_search_unfold, match_here_digits_first.
  rewrite (span_digits_app _ _ Hd Hr), Hg.
  destruct ds; [congruence | reflexivity].
Qed.

End DigitsFirst.

Lemma files_rest_sep t :
  starts_with_digit t = true -> match_here files_rest t = None.
Proof.
  destruct t as [| c t]; [discriminate |]. intros Hc.
  change (match_here files_rest (c :: t))
    with (if Ascii.eqb " "%char c then match_here (tl files_rest) t else None).
  destruct (Ascii.eqb_spec " "%char c) as [<- |]; [discriminate Hc | reflexivity].
Qed.

Lemma insertions_rest_sep t :
  starts_with_digit t = true -> match_here insertions_rest t = None.
Proof.
  destruct t as [| c t]; [discriminate |]. intros Hc.
  change (match_here insertions_rest (c :: t))
    with (if Ascii.eqb " "%char c then match_here (tl insertions_rest) t else None).
  destruct (Ascii.eqb_spec " "%char c) as [<- |]; [discriminate Hc | reflexivity].
Qed.

Lemma deletions_rest_sep t :
  starts_with_digit t = true -> match_here deletions_rest t = None.
Proof.
  destruct t as [| c t]; [discriminate |]. intros Hc.
  change (match_here deletions_rest (c :: t))
    with (if Ascii.eqb " "%char c then match_here (tl deletions_rest) t else None).
  destruct (Ascii.eqb_spec " "%char c) as [<- |]; [discriminate Hc | reflexivity].
Qed.

Lemma plural_nondigits n :
  forallb (fun c => negb (is_digit c)) (plural n) = true.
Proof. unfold plural. now destruct (n =? 1)%N. Qed.

Ltac side :=
  first [ reflexivity
        | apply decimal_digits
        | apply decimal_nonempty
        | apply plural_nondigits
        | exact files_rest_sep
        | exact insertions_rest_sep
        | exact deletions_rest_sep ].

Ltac skip p p' :=
  repeat first
    [ rewrite (search_skip_nondigits p p' eq_refl) by side
    | rewrite (search_skip_digits p p' eq_refl) by side ].

Lemma search_files files tail :
  re_search files_re
    (decimal files ++ lit " file" ++ plural files ++ lit " changed" ++ tail)
  = Some (decimal files).
Proof.
  apply (search_head files_re files_rest eq_refl); try side.
  unfold plural. destruct (files =? 1)%N; cbn; eauto.
Qed.

Lemma search_insertions_present n tail :
  re_search insertions_re
    (decimal n ++ lit " insertion" ++ plural n ++ lit "(+)" ++ tail)
  = Some (decimal n).
Proof.
  apply (search_head insertions_re insertions_rest eq_refl); try side.
  unfold plural. destruct (n =? 1)%N; cbn; eauto.
Qed.

Lemma search_deletions_present n tail :
  re_search deletions_re
    (decimal n ++ lit " deletion" ++ plural n ++ lit "(-)" ++ tail)
  = Some (decimal n).
Proof.
  apply (search_head deletions_re deletions_rest eq_refl); try side.
  unfold plural. destruct (n =? 1)%N; cbn; eauto.
Qed.

(** *** The length of a numeral *)

Lemma nzhead_not_D0 u v : nzhead u <> D0 v.
Proof. induction u; simpl; try discriminate. exact IHu. Qed.

(** A numeral is [0] or starts with a digit that is not 0. *)
Lemma decimal_head n :
  decimal n = lit "0" \/
  exists c ds, decimal n = c :: ds /\ 1 <= digit_val c.
Proof.
  unfold decimal.
  assert (Hu : N.to_uint n = unorm (N.to_uint n)).
  { rewrite <- DecimalN.Unsigned.to_of. now rewrite DecimalN.Unsigned.of_to. }
  unfold unorm in Hu.
  destruct (nzhead (N.to_uint n)) as [| u | u | u | u | u | u | u | u | u | u]
    eqn:E; rewrite Hu.
  - now left.
  - exfalso. exact (nzhead_not_D0 _ _ E).
  - right. eexists _, _. split; [reflexivity | vm_compute; discriminate].
  - right. eexists _, _. split; [reflexivity | vm_compute; discriminate].
  - right. eexists _, _. split; [reflexivity | vm_compute; discriminate].
  - right. eexists _, _. split; [reflexivity | vm_compute; discriminate].
  - right. eexists _, _. split; [reflexivity | vm_compute; discriminate].
  - right. eexists _, _. split; [reflexivity | vm_compute; discriminate].
  - right. eexists _, _. split; [reflexivity | vm_compute; discriminate].
  - right. eexists _, _. split; [reflexivity | vm_compute; discriminate].
  - right. eexists _, _. split; [reflexivity | vm_compute; discriminate].
Qed.

Lemma horner_lower acc ds :
  0 <= acc -> forallb is_digit ds = true ->
  acc * 10 ^ len ds <= horner acc ds.
Proof.
  revert acc. unfold horner.
  induction ds as [| c ds IH]; intros acc Hacc Hd.
  - unfold len. cbn [length fold_left]. change (Z.of_nat 0) with 0.
    rewrite Z.pow_0_r. lia.
  - cbn [forallb] in Hd. apply andb_prop in Hd as [Hc Hd].
    assert (Hval : 0 <= digit_val c).
    { unfold is_digit in Hc. apply andb_prop in Hc as [H1 _].
      apply Nat.leb_le in H1. unfold digit_val. lia. }
    cbn [fold_left]. specialize (IH (10 * acc + digit_val c) ltac:(lia) Hd).
    rewrite len_cons, Z.pow_add_r by (unfold len; lia).
    assert (0 <= 10 ^ len ds) by (apply Z.pow_nonneg; lia).
    nia.
Qed.

(** A number below [10 ^ k] is written with at most [k] digits. *)
Lemma decimal_len n k :
  1 <= k -> Z.of_N n < 10 ^ k -> len (decimal n) <= k.
Proof.
  intros Hk Hn. destruct (decimal_head n) as [-> | (c & ds & Heq & Hc)].
  - unfold len. cbn. lia.
  - pose proof (digits_value_decimal n) as Hval.
    pose proof (decimal_digits n) as Hd.
    rewrite Heq in Hval, Hd |- *.
    cbn [forallb] in Hd. apply andb_prop in Hd as [_ Hd].
    unfold digits_value in Hval. cbn [fold_left] in Hval.
    pose proof (horner_lower (10 * 0 + digit_val c) ds ltac:(lia) Hd) as Hlow.
    unfold horner in Hlow. rewrite Hval in Hlow.
    assert (Hpos : 0 < 10 ^ len ds) by (apply Z.pow_pos_nonneg; unfold len; lia).
    assert (Hlt : 10 ^ len ds < 10 ^ k) by nia.
    apply Z.pow_lt_mono_r_iff in Hlt; [| lia | lia].
    rewrite len_cons. lia.
Qed.

Lemma decimal_convertible n :
  Z.of_N n < 10 ^ int_max_str_digits -> len (decimal n) <= int_max_str_digits.
Proof. apply decimal_len. unfold int_max_str_digits. lia. Qed.

Lemma search_int_found p s n dflt :
  len (decimal n) <= int_max_str_digits ->
  re_search p s = Some (decimal n) -> search_int p s dflt = Some (Z.of_N n).
Proof.
  intros Hlen H. unfold search_int. rewrite H. now apply py_int_decimal.
Qed.

Lemma search_int_missing p s dflt :
  re_search p s = None -> search_int p s dflt = Some dflt.
Proof. intros H. unfold search_int. now rewrite H. Qed.

(** The three searches on the summary line. *)
Lemma summary_files files insertions deletions :
  re_search files_re (git_summary files insertions deletions)
  = Some (decimal files).
Proof. unfold git_summary. apply search_files. Qed.

Lemma summary_insertions files insertions deletions :
  len (decimal insertions) <= int_max_str_digits ->
  search_int insertions_re (git_summary files insertions deletions) 0
  = Some (Z.of_N insertions).
Proof.
  intros Hlen. unfold git_summary.
  destruct (N.eqb_spec insertions 0) as [-> | Hi];
    destruct (N.eqb_spec deletions 0) as [-> | Hd]; cbn [andb negb];
    rewrite <- ?app_assoc; cbn [app].
  - apply search_int_found; [exact Hlen |]. skip insertions_re insertions_rest.
    apply search_insertions_present.
  - apply search_int_missing.
    rewrite <- (app_nil_r (lit "(-)")).
    skip insertions_re insertions_rest.
    apply (search_nothing insertions_re insertions_rest eq_refl).
  - apply search_int_found; [exact Hlen |]. skip insertions_re insertions_rest.
    apply search_insertions_present.
  - apply search_int_found; [exact Hlen |]. skip insertions_re insertions_rest.
    apply search_insertions_present.
Qed.

Lemma summary_deletions files insertions deletions :
  len (decimal deletions) <= int_max_str_digits ->
  search_int deletions_re (git_summary files insertions deletions) 0
  = Some (Z.of_N deletions).
Proof.
  intros Hlen. unfold git_summary.
  destruct (N.eqb_spec insertions 0) as [-> | Hi];
    destruct (N.eqb_spec deletions 0) as [-> | Hd]; cbn [andb negb];
    rewrite <- ?app_assoc; cbn [app].
  - apply search_int_found; [exact Hlen |]. skip deletions_re deletions_rest.
    rewrite <- (app_nil_r (lit "(-)")).
    apply search_deletions_present.
  - apply search_int_found; [exact Hlen |]. skip deletions_re deletions_rest.
    rewrite <- (app_nil_r (lit "(-)")).
    apply search_deletions_present.
  - apply search_int_missing. skip deletions_re deletions_rest.
    apply (search_nothing deletions_re deletions_rest eq_refl).
  - apply search_int_found; [exact Hlen |]. skip deletions_re deletions_rest.
    rewrite <- (app_nil_r (lit "(-)")).
    apply search_deletions_present.
Qed.

(** X23.  [parse_stats] reads back the summary line of [git diff --stat].
    For the line git writes for any numbers of files, insertions and
    deletions below [10 ^ 4300] (numbers of more digits [int] does not
    convert), in the singular or the plural, with the insertions or the
    deletions left out when there are none, the three statistics are these
    numbers.  The file lines before the summary do not matter as long as no
    pattern matches at a position inside them. *)
Theorem stat_summary_round_trip (lines : str) (files insertions deletions : N) :
  let diff_stat := lines ++ git_summary files insertions deletions in
  Z.of_N files < 10 ^ int_max_str_digits ->
  Z.of_N insertions < 10 ^ int_max_str_digits ->
  Z.of_N deletions < 10 ^ int_max_str_digits ->
  no_match_before files_re (length lines) diff_stat = true ->
  no_match_before insertions_re (length lines) diff_stat = true ->
  no_match_before deletions_re (length lines) diff_stat = true ->
  parse_stats diff_stat
  = Some (Z.of_N files, Z.of_N insertions, Z.of_N deletions).
Proof.
  intros diff_stat Lf Li Ld Hf Hi Hd. unfold parse_stats.
  apply decimal_convertible in Lf, Li, Ld.
  assert (H1 : search_int files_re diff_stat 0 = Some (Z.of_N files)).
  { apply search_int_found; [exact Lf |]. subst diff_stat.
    rewrite (search_skip_prefix _ _ _ Hf). apply summary_files. }
  assert (H2 : search_int insertions_re diff_stat 0 = Some (Z.of_N insertions)).
  { unfold search_int. subst diff_stat. rewrite (search_skip_prefix _ _ _ Hi).
    apply summary_insertions. exact Li. }
  assert (H3 : search_int deletions_re diff_stat 0 = Some (Z.of_N deletions)).
  { unfold search_int. subst diff_stat. rewrite (search_skip_prefix _ _ _ Hd).
    apply summary_deletions. exact Ld. }
  rewrite H1, H2, H3. reflexivity.
Qed.

(** The theorem on the output for two files, one with five insertions and
    one with a deletion. *)
Lemma stat_summary_round_trip_witness :
  parse_stats
    (lit "a.py | 5 +++++" ++ [nl] ++ lit " docs/b.md | 1 -" ++ [nl]
     ++ lit " 2 files changed, 5 insertions(+), 1 deletion(-)")
  = Some (2, 5, 1).
Proof.
  apply (stat_summary_round_trip two_file_stat 2 5 1);
    first [reflexivity | vm_compute; reflexivity].
Defined.

(** ** The time spent waiting *)

Lemma waited_app evs1 evs2 : waited (evs1 ++ evs2) = waited evs1 + waited evs2.
Proof.
  unfold waited, sleeps. rewrite flat_map_app.
  induction (flat_map _ evs1) as [| n l IH]; simpl; [reflexivity | lia].
Qed.

(** The loop over the attempts [first], ..., [max_retries - 1] sleeps
    after a rate limit at an attempt that is not the last, [2 ^ attempt]
    seconds; so the total stays below [2 ^ (max_retries - 1)]. *)
Lemma attempts_waited w config max_retries :
  forall k first s r s',
    Z.of_nat (first + k) = max_retries ->
    attempts w config max_retries (seq first k) s = (r, s') ->
    exists evs,
      out s' = out s ++ evs /\
      0 <= waited evs /\
      (k = 0%nat -> waited evs = 0) /\
      ((0 < k)%nat -> waited evs + 2 ^ Z.of_nat first <= 2 ^ (max_retries - 1)).
Proof.
  induction k as [| k IH]; intros first s r s' Hmax H.
  - injection H as <- <-. exists []. rewrite app_nil_r.
    repeat split; try reflexivity; lia.
  - assert (Hfirst : 2 ^ Z.of_nat first <= 2 ^ (max_retries - 1))
      by (apply Z.pow_le_mono_r; lia).
    assert (Hnext : 2 ^ Z.of_nat (S first) = 2 * 2 ^ Z.of_nat first)
      by (rewrite Nat2Z.inj_succ, Z.pow_succ_r; lia).
    assert (Hpos : 0 < 2 ^ Z.of_nat first) by (apply Z.pow_pos_nonneg; lia).
    cbn [seq attempts] in H. unfold bind at 1 in H. unfold messages_create in H.
    set (s1 := {| heap := heap s; out := _; api_calls := S (api_calls s) |}) in H.
    assert (Hrest : forall evs0,
               waited evs0 = 0 -> out s' = out s1 ++ evs0 ->
               exists evs,
                 out s' = out s ++ evs /\ 0 <= waited evs /\
                 (S k = 0%nat -> waited evs = 0) /\
                 ((0 < S k)%nat ->
                  waited evs + 2 ^ Z.of_nat first <= 2 ^ (max_retries - 1))).
    { intros evs0 Hw Hout.
      exists (call_of config :: evs0). subst s1. simpl in Hout.
      rewrite Hout, <- app_assoc. split; [reflexivity |].
      change (call_of config :: evs0) with ([call_of config] ++ evs0).
      rewrite waited_app, Hw.
      replace (waited [call_of config]) with 0 by reflexivity.
      repeat split; lia. }
    assert (Hloop : forall s2 evs0,
               out s2 = out s1 ++ evs0 ->
               (waited evs0 = 0 \/
                (waited evs0 = 2 ^ Z.of_nat first /\ (0 < k)%nat)) ->
               attempts w config max_retries (seq (S first) k) s2 = (r, s') ->
               exists evs,
                 out s' = out s ++ evs /\ 0 <= waited evs /\
                 (S k = 0%nat -> waited evs = 0) /\
                 ((0 < S k)%nat ->
                  waited evs + 2 ^ Z.of_nat first <= 2 ^ (max_retries - 1))).
    { intros s2 evs0 Hout Hw Hrun.
      destruct (IH (S first) s2 r s' ltac:(lia) Hrun)
        as (evs' & Hout' & Hnonneg & Hzero & Hbound).
      exists (call_of config :: evs0 ++ evs'). subst s1. simpl in Hout.
      rewrite Hout', Hout, <- !app_assoc. split; [reflexivity |].
      change (call_of config :: evs0 ++ evs')
        with ([call_of config] ++ evs0 ++ evs').
      rewrite !waited_app.
      replace (waited [call_of config]) with 0 by reflexivity.
      destruct k as [| k'].
      - rewrite (Hzero eq_refl). destruct Hw as [-> | [_ Hk]]; [| lia].
        repeat split; lia.
      - specialize (Hbound ltac:(lia)).
        destruct Hw as [-> | [-> _]]; repeat split; lia. }
    destruct (api w (api_calls s)) as [[| [text |] blocks] | | |].
    + apply (Hloop s1 []); [now rewrite app_nil_r | now left | exact H].
    + unfold ret in H. injection H as <- <-.
      apply (Hrest []); [reflexivity | now rewrite app_nil_r].
    + unfold bind, print, emit, ret in H. injection H as <- <-.
      apply (Hrest [Print UnexpectedErrorMsg]); reflexivity.
    + destruct (Z.ltb_spec (Z.of_nat first) (max_retries - 1)).
      * unfold bind at 1 in H. rewrite print_run in H.
        unfold bind at 1 in H. unfold emit at 1 in H.
        match type of H with
        | attempts _ _ _ _ ?s2 = _ =>
            apply (Hloop s2 [Print (RateLimitedWaiting (2 ^ Z.of_nat first));
                             Sleep (2 ^ Z.of_nat first)])
        end; [simpl; now rewrite <- app_assoc | | exact H].
        right. split; [cbn; lia | lia].
      * unfold bind, print, emit, ret in H. injection H as <- <-.
        apply (Hrest [Print RateLimitExceeded]); reflexivity.
    + unfold bind, print, emit, ret in H. injection H as <- <-.
      apply (Hrest [Print ApiErrorMsg]); reflexivity.
    + unfold bind, print, emit, ret in H. injection H as <- <-.
      apply (Hrest [Print UnexpectedErrorMsg]); reflexivity.
Qed.

(** X24.  The generator never waits long.  In every run, whatever the
    service answers, the seconds it sleeps add up to at most
    [2 ^ (max_retries - 1) - 1], and to nothing when [max_retries] is below
    1: at most 3 seconds with the default of 3 attempts. *)
Theorem waiting_is_bounded (w : world) (branch_info : BranchInfo.t)
    (config : Config.t) (max_retries : Z) (s : state) (r : res (option str))
    (s' : state) :
  Config.max_retries config = VInt max_retries ->
  generate_commit_message w branch_info config s = (r, s') ->
  exists evs,
    out s' = out s ++ evs /\
    0 <= waited evs /\
    (max_retries < 1 -> waited evs = 0) /\
    (1 <= max_retries -> waited evs <= 2 ^ (max_retries - 1) - 1).
Proof.
  intros Hmax H. unfold generate_commit_message in H.
  assert (Hquiet : forall evs, waited evs = 0 -> out s' = out s ++ evs ->
            exists evs,
              out s' = out s ++ evs /\ 0 <= waited evs /\
              (max_retries < 1 -> waited evs = 0) /\
              (1 <= max_retries -> waited evs <= 2 ^ (max_retries - 1) - 1)).
  { intros evs Hw Hout. exists evs. rewrite Hw.
    assert (0 < 2 ^ (max_retries - 1) \/ max_retries < 1)
      by (destruct (Z.le_gt_cases 1 max_retries);
          [left; apply Z.pow_pos_nonneg; lia | now right]).
    repeat split; try assumption; lia. }
  destruct (environ w "ANTHROPIC_API_KEY") as [[| c key] |];
    try (injection H as <- <-; now apply (Hquiet [Print ApiKeyNotSet])).
  unfold bind at 1 in H.
  destruct (as_str_list (Config.commit_types config) s) as [[tags | code | e] s0]
    eqn:Etags;
    (assert (s0 = s) as ->
       by (unfold as_str_list in Etags;
           destruct (_ ≫= mapM as_str); now injection Etags as _ <-));
    try (injection H as <- <-; apply (Hquiet []); [reflexivity |];
         now rewrite app_nil_r).
  rewrite Hmax in H. unfold bind at 1 in H. cbn [as_int] in H. unfold ret in H.
  destruct (Z.le_gt_cases 0 max_retries) as [Hle | Hlt].
  - destruct (attempts_waited w config max_retries (Z.to_nat max_retries) 0
                s r s' ltac:(lia) H)
      as (evs & Hout & Hnonneg & Hzero & Hbound).
    exists evs. split; [exact Hout |]. split; [exact Hnonneg |]. split.
    + intros Hlt. apply Hzero. lia.
    + intros Hge. specialize (Hbound ltac:(lia)). cbn in Hbound. lia.
  - (* a negative number of attempts: the loop does not run *)
    replace (Z.to_nat max_retries) with 0%nat in H by lia.
    cbn [seq attempts] in H. injection H as <- <-.
    apply (Hquiet []); [reflexivity | now rewrite app_nil_r].
Qed.

(** The theorem in the small world whose service is always rate limited,
    with three attempts: the run sleeps 1 and 2 seconds, which is the
    bound. *)
Lemma waiting_is_bounded_witness :
  exists r s',
    generate_commit_message demo_world_key demo_info (demo_config 50000)
      (init_state demo_world_key) = (r, s') /\
    waited (out s') = 3 /\ 2 ^ (3 - 1) - 1 = 3.
Proof.
  destruct (generate_commit_message demo_world_key demo_info (demo_config 50000)
              (init_state demo_world_key)) as [r s'] eqn:E.
  destruct (waiting_is_bounded demo_world_key demo_info (demo_config 50000) 3
              (init_state demo_world_key) r s' eq_refl E)
    as (evs & Hout & _ & _ & Hbound).
  exists r, s'. split; [reflexivity |]. split; [| reflexivity].
  vm_compute in E. injection E as _ <-. reflexivity.
Defined.

(** ** Running git *)

Lemma lstrip_split s :
  exists pre, s = pre ++ lstrip s /\ forallb is_space pre = true.
Proof.
  induction s as [| c s (pre & Hs & Hpre)]; [now exists [] |]. simpl.
  destruct (is_space c) eqn:Hc.
  - exists (c :: pre). simpl. rewrite Hc, Hpre. split; [now f_equal | reflexivity].
  - now exists [].
Qed.

Lemma lstrip_head s :
  match lstrip s with c :: _ => is_space c = false | [] => True end.
Proof.
  induction s as [| c s IH]; simpl; [exact I |].
  destruct (is_space c) eqn:Hc; [exact IH | exact Hc].
Qed.

Lemma lstrip_id s :
  match s with c :: _ => is_space c = false | [] => True end -> lstrip s = s.
Proof. destruct s as [| c s]; simpl; [reflexivity |]. now intros ->. Qed.

(** What [strip] returns has no white space at either end, so stripping
    it again changes nothing. *)
Lemma strip_strip s : strip (strip s) = strip s.
Proof.
  unfold strip. set (a := lstrip s). set (b := lstrip (rev a)).
  assert (Hb : lstrip b = b) by (apply lstrip_id, lstrip_head).
  assert (Hrev : lstrip (rev b) = rev b).
  { apply lstrip_id. destruct (rev b) as [| c r] eqn:Er; [exact I |].
    destruct (lstrip_split (rev a)) as (pre & Hsplit & _). fold b in Hsplit.
    apply (f_equal (@rev ascii)) in Hsplit.
    rewrite rev_involutive, rev_app_distr, Er in Hsplit.
    pose proof (lstrip_head s) as Hhead. fold a in Hhead.
    rewrite Hsplit in Hhead. exact Hhead. }
  now rewrite Hrev, rev_involutive, Hb.
Qed.

(** X25.  The contract of [run_git].  When git can be run, the call
    returns and leaves the state alone: it reports success unless [check]
    is set and git ended with another exit code than 0; the text is the
    standard output on success and the error output on failure, in both
    cases without white space around it.  When there is no git binary, it
    prints a notice and ends the program with exit code 1. *)
Theorem run_git_contract (w : world) (args : list str) (check : bool)
    (s : state) :
  (forall result,
      git w args = Some result ->
      exists success output,
        run_git w args check s = (Ret (success, output), s) /\
        (success = true <-> check = false \/ returncode result = 0) /\
        output = strip (if success then stdout result else stderr result) /\
        strip output = output) /\
  (git w args = None ->
   run_git w args check s
   = (Exit 1, reads s [Print GitNotFound] (pending s))).
Proof.
  split.
  - intros result Hgit. unfold run_git. rewrite Hgit.
    destruct check; cbn [andb negb].
    + destruct (Z.eqb_spec (returncode result) 0) as [Hz | Hnz]; cbn [negb].
      * exists true, (strip (stdout result)).
        split; [reflexivity |]. split; [tauto |].
        split; [reflexivity | apply strip_strip].
      * exists false, (strip (stderr result)). split.
        { destruct (stderr result); reflexivity. }
        split; [| split; [reflexivity | apply strip_strip]].
        split; [discriminate | intros [[=] | H]; contradiction].
    + exists true, (strip (stdout result)).
      split; [reflexivity |]. split; [tauto |].
      split; [reflexivity | apply strip_strip].
  - intros Hgit. unfold run_git. rewrite Hgit. reflexivity.
Qed.

(** The theorem outside a repository, where git ends with exit code 128:
    a failure with [check], a success without. *)
Lemma run_git_contract_witness :
  run_git outside_world [lit "rev-parse"; lit "--git-dir"] true
    (init_state outside_world)
  = (Ret (false, lit "fatal: not a git repository"), init_state outside_world)
  /\
  run_git outside_world [lit "rev-parse"; lit "--git-dir"] false
    (init_state outside_world)
  = (Ret (true, []), init_state outside_world).
Proof.
  split.
  - destruct (run_git_contract outside_world [lit "rev-parse"; lit "--git-dir"]
                true (init_state outside_world)) as [Hrun _].
    destruct (Hrun _ eq_refl) as (success & output & -> & Hsuccess & -> & _).
    destruct success; [| reflexivity].
    destruct Hsuccess as [Hsuccess _].
    destruct (Hsuccess eq_refl) as [H | H]; discriminate H.
  - destruct (run_git_contract outside_world [lit "rev-parse"; lit "--git-dir"]
                false (init_state outside_world)) as [Hrun _].
    destruct (Hrun _ eq_refl) as (success & output & -> & Hsuccess & -> & _).
    destruct success; [reflexivity |].
    destruct Hsuccess as [_ Hsuccess].
    discriminate (Hsuccess (or_introl eq_refl)).
Defined.

(** ** [--auto-commit] without [--staged] *)

Lemma emits_main_unstaged w args :
  Args.staged args = false -> emits no_write (main w args).
Proof.
  intros Hstaged s r s' Hrun. unfold main in Hrun. unfold bind at 1 in Hrun.
  destruct (is_git_repo w s) as [r0 s0] eqn:Erepo.
  apply is_git_repo_inv in Erepo as [(-> & -> & _) | (-> & Hout & _)].
  - cbn [negb] in Hrun. rewrite Hstaged in Hrun. revert s r s' Hrun.
    change (emits no_write (bind (load_config w) (fun config =>
              match Args.branch args with
              | Some (c :: b) => main_branch w args (c :: b) config
              | _ => main_scan w args config
              end))).
    apply emits_bind; [apply emits_load_config, ordinary_no_write |].
    intros config.
    destruct (Args.branch args) as [[| c b] |];
      first [ apply emits_main_branch | apply emits_main_scan ];
      first [ exact ordinary_no_write | intros; exact I
            | intros info config0; apply emits_generate_commit_message;
              [exact ordinary_no_write | intros; exact I] ].
  - injection Hrun as <- <-. exists [Print GitNotFound].
    split; [exact Hout | repeat constructor].
Qed.

(** X26.  [--auto-commit] does nothing without [--staged].  For a branch
    and for the scan of all branches, [main] runs exactly as it does
    without the option: it gives no error for it, and it never writes the
    commit message file, so nothing is committed. *)
Theorem auto_commit_needs_staged (w : world) (args : Args.t) (s : state) :
  Args.staged args = false ->
  main w args s
  = main w (Args.mk false (Args.branch args) (negb (Args.auto_commit args))
              (Args.json args)) s /\
  forall r s',
    main w args s = (r, s') ->
    exists evs, out s' = out s ++ evs /\ Forall no_write evs.
Proof.
  intros Hstaged. split.
  - destruct args as [staged branch auto_commit json]. cbn in Hstaged.
    subst staged. reflexivity.
  - exact (emits_main_unstaged w args Hstaged s).
Qed.

(** The theorem in the small world, for [--branch feature --auto-commit]:
    the run is that of [--branch feature]. *)
Lemma auto_commit_needs_staged_witness :
  main demo_world (Args.mk false (Some (lit "feature")) true false)
    (init_state demo_world)
  = main demo_world (Args.mk false (Some (lit "feature")) false false)
      (init_state demo_world).
Proof.
  destruct (auto_commit_needs_staged demo_world
              (Args.mk false (Some (lit "feature")) true false)
              (init_state demo_world) eq_refl) as [Hsame _].
  exact Hsame.
Defined.
